(** * market-feed-cpp: order book, SPSC ring, feed decoder, symbol and publisher

    A shallow embedding of the C++ sources

      - [src/book/order_book.cpp], [include/order_book.hpp]   (Module [Book])
      - [include/ring_buffer.hpp]                             (Modules [Ring], [Spsc])
      - [include/messages.hpp], [src/feed/decoder.cpp]        (Module [Feed])
      - [src/publish/publisher.cpp]                           (Modules [Publish], [Session])
      - [src/main.cpp]                                        (Modules [Consumer], [Stats])
      - [tools/simgen/simgen.cpp]                             (Modules [Wire], [Simgen])

    Fixed-width integers are carried as [Z] with the wrap-around of the C++
    type written out ([wrap32], [wrap64]); [std::map] and
    [std::unordered_map] are finite maps; arrays are lists. *)

From Stdlib Require Import ZArith Lia.
From Stdlib.Strings Require Import Byte String.
From Stdlib.Floats Require Import SpecFloat.
From stdpp Require Import gmap list pretty.
From stdpp Require Import sorting strings.

Local Open Scope Z_scope.

(** ** Machine integers *)

Definition wrap32 (z : Z) : Z := z mod 2 ^ 32.
Definition wrap64 (z : Z) : Z := z mod 2 ^ 64.

(** * The order book *)

Module Book.

(** [enum class Side : char { BUY = 'B', SELL = 'S' }] *)
Inductive Side := BUY | SELL.

Global Instance Side_eq_dec : EqDecision Side.
Proof. solve_decision. Defined.

(** [struct OrderInfo { Side side; int64_t price; uint32_t quantity; }] *)
Record OrderInfo := mkOrderInfo { side : Side; price : Z; quantity : Z }.

(** [struct TopOfBook], all four fields default to 0. *)
Record TopOfBook := mkTopOfBook
  { best_bid_px : Z; bid_sz : Z; best_ask_px : Z; ask_sz : Z }.

Definition has_bid (tob : TopOfBook) : bool := 0 <? bid_sz tob.
Definition has_ask (tob : TopOfBook) : bool := 0 <? ask_sz tob.

(** [class OrderBook]: [bids_] is a [std::map] ordered by [std::greater],
    [asks_] a [std::map] ordered by [std::less], [orders_] an
    [std::unordered_map]. The ordering of a [std::map] is observed through
    [begin()] only, which is [first_entry] below. *)
Record OrderBook := mkOrderBook
  { bids_ : gmap Z Z; asks_ : gmap Z Z; orders_ : gmap Z OrderInfo }.

(** [OrderBook() = default] *)
Definition empty_book : OrderBook := mkOrderBook ∅ ∅ ∅.

(** [m.begin()] of a [std::map] whose comparator is [before]: the entry whose
    key comes before every other key, [None] standing for [m.end()]. [pick]
    scans the entries; the comparator alone decides the outcome. *)
Definition pick (before : Z → Z → bool) (l : list (Z * Z)) : option (Z * Z) :=
  foldr (λ kv acc,
           match acc with
           | Some best => if before kv.1 best.1 then Some kv else Some best
           | None => Some kv
           end) None l.

Definition first_entry (before : Z → Z → bool) (m : gmap Z Z) : option (Z * Z) :=
  pick before (map_to_list m).

Definition bids_begin (b : OrderBook) : option (Z * Z) := first_entry Z.gtb (bids_ b).
Definition asks_begin (b : OrderBook) : option (Z * Z) := first_entry Z.ltb (asks_ b).

(** [OrderBook::has_crossing] *)
Definition has_crossing (b : OrderBook) (s : Side) (p : Z) : bool :=
  match s with
  | BUY =>
      match asks_begin b with
      | Some (best, _) => p >=? best
      | None => false
      end
  | SELL =>
      match bids_begin b with
      | Some (best, _) => p <=? best
      | None => false
      end
  end.

(** [level[price] += quantity] on one ladder; [operator[]] value-initialises a
    missing entry to 0 and the sum is a [uint32_t]. *)
Definition level_add (m : gmap Z Z) (p q : Z) : gmap Z Z :=
  <[p := wrap32 (default 0 (m !! p) + q)]> m.

(** The body of one branch of [remove_from_level]: [find], subtract, erase
    the level when it reaches 0. *)
Definition level_remove (m : gmap Z Z) (p q : Z) : gmap Z Z :=
  match m !! p with
  | Some v =>
      let v' := wrap32 (v - q) in
      if v' =? 0 then delete p m else <[p := v']> m
  | None => m
  end.

(** [OrderBook::add_to_level] *)
Definition add_to_level (b : OrderBook) (s : Side) (p q : Z) : OrderBook :=
  match s with
  | BUY => mkOrderBook (level_add (bids_ b) p q) (asks_ b) (orders_ b)
  | SELL => mkOrderBook (bids_ b) (level_add (asks_ b) p q) (orders_ b)
  end.

(** [OrderBook::remove_from_level] *)
Definition remove_from_level (b : OrderBook) (s : Side) (p q : Z) : OrderBook :=
  match s with
  | BUY => mkOrderBook (level_remove (bids_ b) p q) (asks_ b) (orders_ b)
  | SELL => mkOrderBook (bids_ b) (level_remove (asks_ b) p q) (orders_ b)
  end.

Definition set_orders (b : OrderBook) (o : gmap Z OrderInfo) : OrderBook :=
  mkOrderBook (bids_ b) (asks_ b) o.

(** [OrderBook::on_add]; the result pairs the returned flag with the book
    after the call. *)
Definition on_add (b : OrderBook) (order_id : Z) (s : Side) (p q : Z)
  : bool * OrderBook :=
  match orders_ b !! order_id with
  | Some _ => (false, b)
  | None =>
      if has_crossing b s p then (false, b)
      else
        let b1 := set_orders b (<[order_id := mkOrderInfo s p q]> (orders_ b)) in
        (true, add_to_level b1 s p q)
  end.

(** [OrderBook::on_modify] *)
Definition on_modify (b : OrderBook) (order_id new_price new_quantity : Z)
  : bool * OrderBook :=
  match orders_ b !! order_id with
  | None => (false, b)
  | Some order =>
      if new_quantity =? 0 then (false, b)
      else if has_crossing b (side order) new_price then (false, b)
      else
        let b1 := remove_from_level b (side order) (price order) (quantity order) in
        let b2 := set_orders b1
                    (<[order_id := mkOrderInfo (side order) new_price new_quantity]>
                       (orders_ b1)) in
        (true, add_to_level b2 (side order) new_price new_quantity)
  end.

(** [OrderBook::on_execute] *)
Definition on_execute (b : OrderBook) (order_id exec_quantity : Z)
  : bool * OrderBook :=
  match orders_ b !! order_id with
  | None => (false, b)
  | Some order =>
      if exec_quantity >? quantity order then (false, b)
      else
        let b1 := remove_from_level b (side order) (price order) exec_quantity in
        let left := wrap32 (quantity order - exec_quantity) in
        if left =? 0
        then (true, set_orders b1 (delete order_id (orders_ b1)))
        else (true, set_orders b1
                      (<[order_id := mkOrderInfo (side order) (price order) left]>
                         (orders_ b1)))
  end.

(** [OrderBook::on_delete] *)
Definition on_delete (b : OrderBook) (order_id : Z) : bool * OrderBook :=
  match orders_ b !! order_id with
  | None => (false, b)
  | Some order =>
      let b1 := remove_from_level b (side order) (price order) (quantity order) in
      (true, set_orders b1 (delete order_id (orders_ b1)))
  end.

(** [OrderBook::top_of_book] *)
Definition top_of_book (b : OrderBook) : TopOfBook :=
  let '(bid_px, bid_q) := default (0, 0) (bids_begin b) in
  let '(ask_px, ask_q) := default (0, 0) (asks_begin b) in
  mkTopOfBook bid_px bid_q ask_px ask_q.

(** [order_count()] and [empty()] *)
Definition order_count (b : OrderBook) : nat := size (orders_ b).
Definition empty (b : OrderBook) : bool := bool_decide (orders_ b = ∅).

(** The four public mutators as one operation type. *)
Inductive Op :=
| Add (order_id : Z) (s : Side) (p q : Z)
| Modify (order_id new_price new_quantity : Z)
| Execute (order_id exec_quantity : Z)
| Delete (order_id : Z).

Definition apply_op (b : OrderBook) (op : Op) : bool * OrderBook :=
  match op with
  | Add i s p q => on_add b i s p q
  | Modify i p q => on_modify b i p q
  | Execute i q => on_execute b i q
  | Delete i => on_delete b i
  end.

(** ** The book invariants I1-I5 *)

Definition ladder (b : OrderBook) (s : Side) : gmap Z Z :=
  match s with BUY => bids_ b | SELL => asks_ b end.

(** What one order adds to the level of side [s] and price [p]. *)
Definition contribution (oi : OrderInfo) (s : Side) (p : Z) : Z :=
  if bool_decide (side oi = s ∧ price oi = p) then quantity oi else 0.

(** Sum of the quantities of the live orders resting on side [s] at price [p]. *)
Definition level_sum (o : gmap Z OrderInfo) (s : Side) (p : Z) : Z :=
  map_fold (λ _ oi acc, contribution oi s p + acc) 0 o.

(** I1: an order id is stored at most once. *)
Definition I1 (b : OrderBook) : Prop := NoDup (map_to_list (orders_ b)).*1.

(** I2: a level holds the sum of the live orders of its side and price. *)
Definition I2 (b : OrderBook) : Prop :=
  ∀ s p, default 0 (ladder b s !! p) = level_sum (orders_ b) s p.

(** I3: a level entry exists iff its aggregated quantity is positive. *)
Definition I3 (b : OrderBook) : Prop :=
  ∀ s p, is_Some (ladder b s !! p) ↔ 0 < level_sum (orders_ b) s p.

(** I4: best bid below best ask whenever both sides are non-empty. *)
Definition I4 (b : OrderBook) : Prop :=
  ∀ bp bq ap aq,
    bids_begin b = Some (bp, bq) → asks_begin b = Some (ap, aq) → bp < ap.

(** I5: every live order has a positive quantity. *)
Definition I5 (b : OrderBook) : Prop :=
  ∀ order_id o, orders_ b !! order_id = Some o → 0 < quantity o.

Definition invariants (b : OrderBook) : Prop :=
  I1 b ∧ I2 b ∧ I3 b ∧ I4 b ∧ I5 b.

(** No level sum exceeds what the [uint32_t] level counter can hold. *)
Definition levels_fit (b : OrderBook) : Prop :=
  ∀ s p, level_sum (orders_ b) s p < 2 ^ 32.

(** I2 and I3 together at one level: the stored quantity, if any, is the
    sum and is positive; no entry means the sum is 0. *)
Definition level_ok_at (v : option Z) (sum : Z) : Prop :=
  match v with
  | Some v => v = sum ∧ 0 < v
  | None => sum = 0
  end.

Definition level_ok (b : OrderBook) (s : Side) (p : Z) : Prop :=
  level_ok_at (ladder b s !! p) (level_sum (orders_ b) s p).

(** The invariants in the form the proofs keep: every level is right, every
    bid price lies below every ask price, every quantity is positive. *)
Definition kept (b : OrderBook) : Prop :=
  (∀ s p, level_ok b s p) ∧
  (∀ bp ap, is_Some (ladder b BUY !! bp) → is_Some (ladder b SELL !! ap) → bp < ap) ∧
  I5 b.

(** The quantity arguments for which the invariants are kept: a positive
    quantity on [on_add]; [uint32_t] values are never negative. *)
Definition quantities_ok (op : Op) : Prop :=
  match op with
  | Add _ _ _ q => 0 < q
  | Modify _ _ q => 0 ≤ q
  | Execute _ q => 0 ≤ q
  | Delete _ => True
  end.

(** Running a list of operations, keeping the returned flags. *)
Fixpoint run (b : OrderBook) (ops : list Op) : list bool * OrderBook :=
  match ops with
  | [] => ([], b)
  | op :: ops' =>
      let '(ok, b1) := apply_op b op in
      let '(oks, b2) := run b1 ops' in
      (ok :: oks, b2)
  end.

(** The books a run goes through, one per operation. *)
Fixpoint states (b : OrderBook) (ops : list Op) : list OrderBook :=
  match ops with
  | [] => []
  | op :: ops' => (apply_op b op).2 :: states (apply_op b op).2 ops'
  end.

(** ** Total quantity and a sample book *)

(** The quantity resting in the whole book: the sum over the live orders. *)
Definition total_quantity (o : gmap Z OrderInfo) : Z :=
  map_fold (λ _ oi acc, quantity oi + acc) 0 o.

(** A book with one bid of 10 at 100 and one ask of 20 at 105. *)
Definition two_sided_book : OrderBook :=
  (on_add (on_add empty_book 1 BUY 100 10).2 2 SELL 105 20).2.

End Book.

(** * The single-producer single-consumer ring buffer *)

Module Ring.

Section RingBuffer.
Context {T : Type}.

(** [T()], the value [std::make_unique<T[]>(capacity)] initialises every
    slot with. *)
Variable T_init : T.

(** [class RingBuffer<T>]; [head_] and [tail_] are [size_t] indices. The
    atomics are read and written one call at a time, so each is a plain
    field here. *)
Record RingBuffer := mkRing
  { capacity_ : Z; mask_ : Z; buffer_ : list T; head_ : Z; tail_ : Z }.

(** The two [assert]s of the constructor. *)
Definition capacity_assert (capacity : Z) : bool :=
  (Z.land capacity (wrap64 (capacity - 1)) =? 0) && (0 <? capacity).

(** [RingBuffer(size_t capacity)] *)
Definition make (capacity : Z) : RingBuffer :=
  mkRing capacity (wrap64 (capacity - 1))
         (replicate (Z.to_nat capacity) T_init) 0 0.

(** [buffer_[i]] as an rvalue. An index past the array is undefined
    behaviour in C++; the model reads [T_init] there, and [wf_slot_in_range]
    shows it never happens. *)
Definition slot (buf : list T) (i : Z) : T := default T_init (buf !! Z.to_nat i).

(** [(i + 1) & mask_] *)
Definition advance (mask i : Z) : Z := Z.land (wrap64 (i + 1)) mask.

(** [try_push], both overloads: the returned flag and the ring afterwards. *)
Definition try_push (r : RingBuffer) (item : T) : bool * RingBuffer :=
  let current_tail := tail_ r in
  let next_tail := advance (mask_ r) current_tail in
  if next_tail =? head_ r then (false, r)
  else (true, mkRing (capacity_ r) (mask_ r)
                     (<[Z.to_nat current_tail := item]> (buffer_ r))
                     (head_ r) next_tail).

(** [try_pop]: [None] when it returns false (the out-parameter is left
    alone), [Some v] when it returns true having stored [v] in it. The slot
    keeps its value, as it does for trivially copyable [T]. *)
Definition try_pop (r : RingBuffer) : option T * RingBuffer :=
  let current_head := head_ r in
  if current_head =? tail_ r then (None, r)
  else (Some (slot (buffer_ r) current_head),
        mkRing (capacity_ r) (mask_ r) (buffer_ r)
               (advance (mask_ r) current_head) (tail_ r)).

(** [empty()], [size()], [capacity()] *)
Definition empty (r : RingBuffer) : bool := head_ r =? tail_ r.
Definition size (r : RingBuffer) : Z := Z.land (wrap64 (tail_ r - head_ r)) (mask_ r).
Definition capacity (r : RingBuffer) : Z := capacity_ r.

(** The test [try_push] makes before writing: [((tail+1) & mask) == head]. *)
Definition full (r : RingBuffer) : bool := advance (mask_ r) (tail_ r) =? head_ r.

(** A sequential run: one call at a time, pushes and pops interleaved. *)
Inductive Op := Push (item : T) | Pop.

(** The run's outcome: the items of the pushes that returned true, the
    items handed out by the pops that returned true, and the final ring. *)
Fixpoint run (r : RingBuffer) (ops : list Op) : list T * list T * RingBuffer :=
  match ops with
  | [] => ([], [], r)
  | Push x :: ops' =>
      let '(ok, r1) := try_push r x in
      let '(pushed, popped, r2) := run r1 ops' in
      (if ok then x :: pushed else pushed, popped, r2)
  | Pop :: ops' =>
      let '(got, r1) := try_pop r in
      let '(pushed, popped, r2) := run r1 ops' in
      (pushed, match got with Some v => v :: popped | None => popped end, r2)
  end.

(** Pushing a list of items in order, keeping every returned flag. *)
Fixpoint push_all (r : RingBuffer) (items : list T) : list bool * RingBuffer :=
  match items with
  | [] => ([], r)
  | x :: items' =>
      let '(ok, r1) := try_push r x in
      let '(oks, r2) := push_all r1 items' in
      (ok :: oks, r2)
  end.

(** The [n] slots read from index [h] onwards, wrapping with the mask. *)
Fixpoint slots_from (buf : list T) (mask h : Z) (n : nat) : list T :=
  match n with
  | O => []
  | S n' => slot buf h :: slots_from buf mask (advance mask h) n'
  end.

(** The queued items, oldest first: [size()] slots starting at [head_]. *)
Definition contents (r : RingBuffer) : list T :=
  slots_from (buffer_ r) (mask_ r) (head_ r) (Z.to_nat (size r)).

(** A ring as the constructor builds it for capacity [2^k], up to the
    positions of the two indices and the stored items. *)
Definition wf (k : Z) (r : RingBuffer) : Prop :=
  0 ≤ k < 64 ∧ capacity_ r = 2 ^ k ∧ mask_ r = 2 ^ k - 1 ∧
  Z.of_nat (length (buffer_ r)) = 2 ^ k ∧
  0 ≤ head_ r < 2 ^ k ∧ 0 ≤ tail_ r < 2 ^ k.

End RingBuffer.

Arguments RingBuffer : clear implicits.
Arguments Op : clear implicits.

End Ring.

(** * Messages, symbols and the feed decoder *)

Module Feed.

(** ** Bytes of the mapping *)

(** A little-endian unsigned field. *)
Definition le_unsigned (bs : list byte) : Z :=
  foldr (λ b acc, Z.of_N (Byte.to_N b) + 256 * acc) 0 bs.

(** A little-endian [int64_t] field (two's complement). *)
Definition le_int64 (bs : list byte) : Z :=
  let u := le_unsigned bs in if u <? 2 ^ 63 then u else u - 2 ^ 64.

(** The [len] bytes at offset [off]. *)
Definition bytes_at (bs : list byte) (off len : Z) : list byte :=
  take (Z.to_nat len) (drop (Z.to_nat off) bs).

(** [bs[off]]; past the end the C++ read is undefined, the model reads 0. *)
Definition byte_at (bs : list byte) (off : Z) : byte :=
  nth (Z.to_nat off) bs "000"%byte.

(** ** The packed records ([#pragma pack(push, 1)]) *)

Module AddOrderMsg.
Record t := mk
  { type : byte; ts_us : Z; order_id : Z; symbol : list byte; side : byte;
    px_nano : Z; qty : Z }.
Definition sizeof : Z := 36.
(** The record seen through [reinterpret_cast<const AddOrderMsg*>]. *)
Definition view (bs : list byte) : t :=
  mk (byte_at bs 0) (le_unsigned (bytes_at bs 1 8)) (le_unsigned (bytes_at bs 9 8))
     (bytes_at bs 17 6) (byte_at bs 23) (le_int64 (bytes_at bs 24 8))
     (le_unsigned (bytes_at bs 32 4)).
End AddOrderMsg.

Module ModifyOrderMsg.
Record t := mk
  { type : byte; ts_us : Z; order_id : Z; new_px_nano : Z; new_qty : Z }.
Definition sizeof : Z := 29.
Definition view (bs : list byte) : t :=
  mk (byte_at bs 0) (le_unsigned (bytes_at bs 1 8)) (le_unsigned (bytes_at bs 9 8))
     (le_int64 (bytes_at bs 17 8)) (le_unsigned (bytes_at bs 25 4)).
End ModifyOrderMsg.

Module ExecuteOrderMsg.
Record t := mk { type : byte; ts_us : Z; order_id : Z; exec_qty : Z }.
Definition sizeof : Z := 21.
Definition view (bs : list byte) : t :=
  mk (byte_at bs 0) (le_unsigned (bytes_at bs 1 8)) (le_unsigned (bytes_at bs 9 8))
     (le_unsigned (bytes_at bs 17 4)).
End ExecuteOrderMsg.

Module DeleteOrderMsg.
Record t := mk { type : byte; ts_us : Z; order_id : Z }.
Definition sizeof : Z := 17.
Definition view (bs : list byte) : t :=
  mk (byte_at bs 0) (le_unsigned (bytes_at bs 1 8)) (le_unsigned (bytes_at bs 9 8)).
End DeleteOrderMsg.

(** [enum class EventType : uint8_t] *)
Inductive EventType :=
| ADD_ORDER | MODIFY_ORDER | EXECUTE_ORDER | DELETE_ORDER | INVALID.

(** [union EventPayload]: the member last written, or nothing yet
    ([EventPayload() {}] initialises no member). *)
Inductive EventPayload :=
| payload_add (m : AddOrderMsg.t)
| payload_modify (m : ModifyOrderMsg.t)
| payload_execute (m : ExecuteOrderMsg.t)
| payload_delete_order (m : DeleteOrderMsg.t)
| payload_unset.

(** [struct Event] *)
Record Event := mkEvent
  { type : EventType; payload : EventPayload; decode_timestamp_us : Z }.

(** [Event()] *)
Definition Event_default : Event := mkEvent INVALID payload_unset 0.

(** ** Symbol *)

(** [struct Symbol { char data[6]; }] *)
Record Symbol := mkSymbol { data : list byte }.

(** [std::strlen]: the bytes before the first NUL. The list is the memory
    [str] points to; where it ends without a NUL, the terminator is taken to
    follow. *)
Fixpoint strlen (str : list byte) : nat :=
  match str with
  | [] => O
  | b :: str' => if Byte.eqb b "000"%byte then O else S (strlen str')
  end.

(** [Symbol()] *)
Definition Symbol_default : Symbol := mkSymbol (replicate 6 " "%byte).

(** [Symbol(const char* str)] *)
Definition Symbol_of (str : list byte) : Symbol :=
  let data0 := replicate 6 " "%byte in
  let len := Z.of_nat (strlen str) in
  let len := if len >? 5 then 5 else len in
  mkSymbol (take (Z.to_nat len) str ++ drop (Z.to_nat len) data0).

(** [std::memcmp(a, b, n)] on unsigned bytes. *)
Fixpoint memcmp (a b : list byte) (n : nat) : Z :=
  match n, a, b with
  | S n', x :: a', y :: b' =>
      if Byte.eqb x y then memcmp a' b' n'
      else Z.of_N (Byte.to_N x) - Z.of_N (Byte.to_N y)
  | _, _, _ => 0
  end.

(** [operator==] and [operator<] *)
Definition Symbol_eq (a b : Symbol) : bool := memcmp (data a) (data b) 6 =? 0.
Definition Symbol_lt (a b : Symbol) : bool := memcmp (data a) (data b) 6 <? 0.

(** [std::string::npos] *)
Definition npos : Z := 2 ^ 64 - 1.

(** [find_last_not_of(c)] scanning the reversed string: the index of the last
    byte different from [c], or [npos]. *)
Fixpoint last_not_of_rev (rs : list byte) (c : byte) : Z :=
  match rs with
  | [] => npos
  | b :: rs' => if Byte.eqb b c then last_not_of_rev rs' c else Z.of_nat (length rs')
  end.

Definition find_last_not_of (s : list byte) (c : byte) : Z :=
  last_not_of_rev (reverse s) c.

(** [Symbol::to_string] *)
Definition to_string (s : Symbol) : list byte :=
  let result := take 6 (data s) in
  take (Z.to_nat (wrap64 (find_last_not_of result " "%byte + 1))) result.

(** ** Decoder *)

(** [class Decoder]: the mapping, its size and the cursor. The descriptor
    plays no part in decoding and is left out. *)
Record Decoder := mkDecoder
  { mapped_data_ : list byte; file_size_ : Z; current_pos_ : Z }.

(** The constructor on a file that opens and maps: it throws on an empty
    file ([None]), otherwise the cursor starts at 0. *)
Definition Decoder_open (contents : list byte) : option Decoder :=
  let file_size := Z.of_nat (length contents) in
  if file_size =? 0 then None else Some (mkDecoder contents file_size 0).

Definition size (d : Decoder) : Z := file_size_ d.
Definition position (d : Decoder) : Z := current_pos_ d.
Definition has_next (d : Decoder) : bool := current_pos_ d <? file_size_ d.

Definition set_pos (d : Decoder) (pos : Z) : Decoder :=
  mkDecoder (mapped_data_ d) (file_size_ d) pos.

(** [Decoder::reset] *)
Definition reset (d : Decoder) : Decoder := set_pos d 0.

(** The four instantiations of [read_message<T>]. *)
Inductive MsgKind := KAdd | KModify | KExecute | KDelete.

Definition sizeof (T : MsgKind) : Z :=
  match T with
  | KAdd => AddOrderMsg.sizeof
  | KModify => ModifyOrderMsg.sizeof
  | KExecute => ExecuteOrderMsg.sizeof
  | KDelete => DeleteOrderMsg.sizeof
  end.

(** The [if constexpr] chain of [read_message<T>]: the validation of the
    record lying at [bs], and the payload member it is copied to. *)
Definition validate (T : MsgKind) (bs : list byte) : option EventPayload :=
  match T with
  | KAdd =>
      let msg := AddOrderMsg.view bs in
      if negb (Byte.eqb (AddOrderMsg.side msg) "B"%byte)
         && negb (Byte.eqb (AddOrderMsg.side msg) "S"%byte) then None
      else if AddOrderMsg.qty msg =? 0 then None
      else Some (payload_add msg)
  | KModify =>
      let msg := ModifyOrderMsg.view bs in
      if ModifyOrderMsg.new_qty msg =? 0 then None
      else Some (payload_modify msg)
  | KExecute =>
      let msg := ExecuteOrderMsg.view bs in
      if ExecuteOrderMsg.exec_qty msg =? 0 then None
      else Some (payload_execute msg)
  | KDelete => Some (payload_delete_order (DeleteOrderMsg.view bs))
  end.

(** [Decoder::read_message<T>]: [None] for false (nothing written), else the
    payload written to the event and the decoder with the cursor moved. *)
Definition read_message (T : MsgKind) (d : Decoder) : option (EventPayload * Decoder) :=
  if wrap64 (current_pos_ d + sizeof T) >? file_size_ d then None
  else
    match validate T (bytes_at (mapped_data_ d) (current_pos_ d) (sizeof T)) with
    | None => None
    | Some p => Some (p, set_pos d (wrap64 (current_pos_ d + sizeof T)))
    end.

(** The [case] labels of the [switch] in [next]. *)
Definition tag_of (msg_type : byte) : option MsgKind :=
  match msg_type with
  | "A"%byte => Some KAdd
  | "U"%byte => Some KModify
  | "E"%byte => Some KExecute
  | "D"%byte => Some KDelete
  | _ => None
  end.

Definition event_type_of (T : MsgKind) : EventType :=
  match T with
  | KAdd => ADD_ORDER
  | KModify => MODIFY_ORDER
  | KExecute => EXECUTE_ORDER
  | KDelete => DELETE_ORDER
  end.

(** [Decoder::next]. [core::Clock::now_us()] is an oracle: [clock n] is the
    value of the [n]-th reading, [ticks] counts the readings made so far. The
    recursive call of the [default] label spends one unit of [fuel]. *)
Fixpoint next_fuel (fuel : nat) (clock : nat → Z) (d : Decoder) (ticks : nat)
  : Event * Decoder * nat :=
  if negb (has_next d) then (Event_default, d, ticks)
  else if current_pos_ d >=? file_size_ d then (Event_default, d, ticks)
  else
    let msg_type := byte_at (mapped_data_ d) (current_pos_ d) in
    let now := clock ticks in
    match tag_of msg_type with
    | Some T =>
        match read_message T d with
        | Some (p, d') => (mkEvent (event_type_of T) p now, d', S ticks)
        | None => (Event_default, d, S ticks)
        end
    | None =>
        match fuel with
        | S fuel' =>
            next_fuel fuel' clock (set_pos d (wrap64 (current_pos_ d + 1))) (S ticks)
        | O => (Event_default, d, S ticks)
        end
    end.

(** Every recursive call moves the cursor one byte closer to the end of the
    mapping, so the bytes left bound the depth ([next_fuel_enough]). *)
Definition next (clock : nat → Z) (d : Decoder) (ticks : nat)
  : Event * Decoder * nat :=
  next_fuel (Z.to_nat (file_size_ d - current_pos_ d)) clock d ticks.

(** [n] calls of [next] in a row. *)
Fixpoint next_n (n : nat) (clock : nat → Z) (d : Decoder) (ticks : nat)
  : list Event * Decoder * nat :=
  match n with
  | O => ([], d, ticks)
  | S n' =>
      let '(e, d1, t1) := next clock d ticks in
      let '(es, d2, t2) := next_n n' clock d1 t1 in
      (e :: es, d2, t2)
  end.

(** An event without its decode timestamp. *)
Definition untimed (e : Event) : EventType * EventPayload := (type e, payload e).

(** A decoder over a mapped file: the size is the length of the mapping and
    fits [off_t], the cursor lies in [0, file_size]. *)
Definition wf (d : Decoder) : Prop :=
  file_size_ d = Z.of_nat (length (mapped_data_ d)) ∧
  file_size_ d < 2 ^ 63 ∧
  0 ≤ current_pos_ d ≤ file_size_ d.

(** A record that fails the per-type validation of [read_message]. *)
Definition fails_validation (T : MsgKind) (bs : list byte) : Prop :=
  match T with
  | KAdd =>
      (AddOrderMsg.side (AddOrderMsg.view bs) ≠ "B"%byte ∧
       AddOrderMsg.side (AddOrderMsg.view bs) ≠ "S"%byte) ∨
      AddOrderMsg.qty (AddOrderMsg.view bs) = 0
  | KModify => ModifyOrderMsg.new_qty (ModifyOrderMsg.view bs) = 0
  | KExecute => ExecuteOrderMsg.exec_qty (ExecuteOrderMsg.view bs) = 0
  | KDelete => False
  end.

(** ** Sample feeds *)

(** A clock that moves on by one microsecond between readings. *)
Definition sample_clock (n : nat) : Z := 1000 + Z.of_nat n.

(** One Delete record: tag 'D', [ts_us = 3], [order_id = 1]. *)
Definition delete_record : list byte :=
  ["D"; "003"; "000"; "000"; "000"; "000"; "000"; "000"; "000";
   "001"; "000"; "000"; "000"; "000"; "000"; "000"; "000"]%byte.

(** An unknown byte followed by the Delete record. *)
Definition noisy_feed : list byte := "X"%byte :: delete_record.

(** An Add record whose side byte is 'X' ([order_id = 1], symbol "AAPL  ",
    [px_nano = 1], [qty = 5]). *)
Definition bad_side_add_record : list byte :=
  ["A"; "000"; "000"; "000"; "000"; "000"; "000"; "000"; "000";
   "001"; "000"; "000"; "000"; "000"; "000"; "000"; "000";
   "A"; "A"; "P"; "L"; " "; " "; "X";
   "001"; "000"; "000"; "000"; "000"; "000"; "000"; "000";
   "005"; "000"; "000"; "000"]%byte.

(** The Add record of [test_decoder.cpp]: [ts_us = 1234567890],
    [order_id = 12345], symbol "AAPL  ", side 'B', [px_nano = 150000000000],
    [qty = 100]. *)
Definition test_add_record : list byte :=
  ["065"; "210"; "002"; "150"; "073"; "000"; "000"; "000"; "000";
   "057"; "048"; "000"; "000"; "000"; "000"; "000"; "000";
   "065"; "065"; "080"; "076"; "032"; "032"; "066";
   "000"; "092"; "178"; "236"; "034"; "000"; "000"; "000";
   "100"; "000"; "000"; "000"]%byte.

(** A Modify record with a negative price: [ts_us = 1234567891],
    [order_id = 12345], [new_px_nano = -151000000000], [new_qty = 150]. *)
Definition test_modify_record : list byte :=
  ["085"; "211"; "002"; "150"; "073"; "000"; "000"; "000"; "000";
   "057"; "048"; "000"; "000"; "000"; "000"; "000"; "000";
   "000"; "218"; "178"; "215"; "220"; "255"; "255"; "255";
   "150"; "000"; "000"; "000"]%byte.

End Feed.

(** * The top-of-book publisher *)

Module Publish.

(** ** IEEE-754 binary64 ([double])

    A [double] is a [spec_float] of the Standard Library: sign, significand
    [m] and exponent [e], of value [m * 2^e]. Conversion and division are the
    library's [binary_normalize] and [SFdiv] at precision 53 and maximal
    exponent 1024, which round to nearest, ties to even. *)

Definition prec : Z := 53.
Definition emax : Z := 1024.

(** [static_cast<double>(z)] for an [int64_t] [z]. *)
Definition double_of_int64 (z : Z) : spec_float :=
  binary_normalize prec emax z 0 false.

(** [x / y] on [double]. *)
Definition double_div (x y : spec_float) : spec_float := SFdiv prec emax x y.

(** The literal [1e9], which is [8388608000000000 * 2^-23]. *)
Definition double_1e9 : spec_float := S754_finite false 8388608000000000 (-23).

(** ** Rounding in closed form *)

(** [n / d] rounded to the nearest integer, ties to even ([0 ≤ n], [0 < d]). *)
Definition rne (n d : Z) : Z :=
  let q := n / d in
  match 2 * (n mod d) ?= d with
  | Lt => q
  | Gt => q + 1
  | Eq => if Z.even q then q else q + 1
  end.

(** [(n / d) * 2^s] rounded to the nearest integer, ties to even. *)
Definition rne_scaled (n d s : Z) : Z :=
  if 0 <=? s then rne (n * 2 ^ s) d else rne n (d * 2 ^ (- s)).

(** The [k] with [2^k ≤ n / d < 2^(k+1)] ([0 < n], [0 < d]). *)
Definition floor_log2 (n d : Z) : Z :=
  let k := Z.log2 n - Z.log2 d in
  if (if 0 <=? k then d * 2 ^ k <=? n else d <=? n * 2 ^ (- k)) then k else k - 1.

(** The normal binary64 nearest to [(n / d) * 2^x], negated when [neg]; it is
    what [SFdiv] computes on two normal numbers ([SFdiv_round_binary64]). *)
Definition round_binary64 (neg : bool) (n d x : Z) : spec_float :=
  let k := floor_log2 n d in
  let m := rne_scaled n d (52 - k) in
  let e := k - 52 + x in
  if m =? 2 ^ 53 then S754_finite neg (Z.to_pos (2 ^ 52)) (e + 1)
  else S754_finite neg (Z.to_pos m) e.

(** ** Decimal output *)

(** The last [k] decimal digits of [n], leading zeros kept. *)
Fixpoint digits (k : nat) (n : Z) : string :=
  match k with
  | O => EmptyString
  | S k' => digits k' (n / 10) +:+ pretty (n mod 10)
  end.

(** [N] billionths written with nine fractional digits, after the sign. *)
Definition fixed9_digits (sign : bool) (N : Z) : string :=
  (if sign then "-" else "") +:+ pretty (N / 10 ^ 9) +:+ "." +:+ digits 9 (N mod 10 ^ 9).

(** [oss << std::fixed << std::setprecision(9) << x]: the value of [x]
    rounded to nine decimals, to nearest and ties to even, as the C library
    converts it. *)
Definition fixed9 (x : spec_float) : string :=
  match x with
  | S754_zero s => fixed9_digits s 0
  | S754_finite s m e => fixed9_digits s (rne_scaled (Z.pos m * 10 ^ 9) 1 e)
  | S754_infinity s => if s then "-inf" else "inf"
  | S754_nan => "nan"
  end.

(** [TopOfBookPublisher::format_price] *)
Definition format_price (price_nano : Z) : string :=
  fixed9 (double_div (double_of_int64 price_nano) double_1e9).

(** [class TopOfBookPublisher]: the text written to [output_] so far, and
    whether the header is out. *)
Record TopOfBookPublisher := mkPublisher
  { output_ : string; header_printed_ : bool }.

Definition header : string :=
  "ts_us,symbol,bid_px,bid_sz,ask_px,ask_sz" +:+ String (Ascii.ascii_of_nat 10) EmptyString.

(** One data row of [publish]. *)
Definition data_row (timestamp_us : Z) (symbol : Feed.Symbol) (tob : Book.TopOfBook)
  : string :=
  pretty timestamp_us +:+ "," +:+ string_of_list_byte (Feed.to_string symbol) +:+ ","
  +:+ (if Book.has_bid tob
       then format_price (Book.best_bid_px tob) +:+ "," +:+ pretty (Book.bid_sz tob)
       else ",")
  +:+ ","
  +:+ (if Book.has_ask tob
       then format_price (Book.best_ask_px tob) +:+ "," +:+ pretty (Book.ask_sz tob)
       else ",")
  +:+ String (Ascii.ascii_of_nat 10) EmptyString.

(** [TopOfBookPublisher::publish] *)
Definition publish (p : TopOfBookPublisher) (timestamp_us : Z)
    (symbol : Feed.Symbol) (tob : Book.TopOfBook) : TopOfBookPublisher :=
  let out := if header_printed_ p then output_ p else output_ p +:+ header in
  mkPublisher (out +:+ data_row timestamp_us symbol tob) true.

(** What the specification asks of the price string: [price_nano / 10^9]
    written out exactly, nine fractional digits. *)
Definition exact_decimal9 (price_nano : Z) : string :=
  fixed9_digits (price_nano <? 0) (Z.abs price_nano).

End Publish.

(** * Records as they are written to a feed file *)

Module Wire.
Import Feed.

(** The low byte of [z]. *)
Definition byte_of (z : Z) : byte :=
  default "000"%byte (Byte.of_N (Z.to_N (z mod 256))).

(** The [n] bytes an integer field occupies in memory on a little-endian
    host, which is how the decoder reads them back: least significant byte
    first, a negative [z] in two's complement. *)
Fixpoint le_bytes (n : nat) (z : Z) : list byte :=
  match n with
  | O => []
  | S n' => byte_of z :: le_bytes n' (z / 256)
  end.

(** [reinterpret_cast<const char*>(&msg)] over [sizeof(msg)] bytes, for each
    packed record: what [output.write] puts in the file. *)
Definition add_bytes (m : AddOrderMsg.t) : list byte :=
  AddOrderMsg.type m :: le_bytes 8 (AddOrderMsg.ts_us m)
  ++ le_bytes 8 (AddOrderMsg.order_id m) ++ AddOrderMsg.symbol m
  ++ AddOrderMsg.side m :: le_bytes 8 (AddOrderMsg.px_nano m)
  ++ le_bytes 4 (AddOrderMsg.qty m).

Definition modify_bytes (m : ModifyOrderMsg.t) : list byte :=
  ModifyOrderMsg.type m :: le_bytes 8 (ModifyOrderMsg.ts_us m)
  ++ le_bytes 8 (ModifyOrderMsg.order_id m)
  ++ le_bytes 8 (ModifyOrderMsg.new_px_nano m)
  ++ le_bytes 4 (ModifyOrderMsg.new_qty m).

Definition execute_bytes (m : ExecuteOrderMsg.t) : list byte :=
  ExecuteOrderMsg.type m :: le_bytes 8 (ExecuteOrderMsg.ts_us m)
  ++ le_bytes 8 (ExecuteOrderMsg.order_id m)
  ++ le_bytes 4 (ExecuteOrderMsg.exec_qty m).

Definition delete_bytes (m : DeleteOrderMsg.t) : list byte :=
  DeleteOrderMsg.type m :: le_bytes 8 (DeleteOrderMsg.ts_us m)
  ++ le_bytes 8 (DeleteOrderMsg.order_id m).

Definition object_bytes (p : EventPayload) : list byte :=
  match p with
  | payload_add m => add_bytes m
  | payload_modify m => modify_bytes m
  | payload_execute m => execute_bytes m
  | payload_delete_order m => delete_bytes m
  | payload_unset => []
  end.

(** The record type a payload member belongs to. *)
Definition kind_of (p : EventPayload) : option MsgKind :=
  match p with
  | payload_add _ => Some KAdd
  | payload_modify _ => Some KModify
  | payload_execute _ => Some KExecute
  | payload_delete_order _ => Some KDelete
  | payload_unset => None
  end.

(** The bytes at [bs] seen as a record of type [T]. *)
Definition view (T : MsgKind) (bs : list byte) : EventPayload :=
  match T with
  | KAdd => payload_add (AddOrderMsg.view bs)
  | KModify => payload_modify (ModifyOrderMsg.view bs)
  | KExecute => payload_execute (ExecuteOrderMsg.view bs)
  | KDelete => payload_delete_order (DeleteOrderMsg.view bs)
  end.

(** Every field holds a value of its C++ type. *)
Definition uint64_t (z : Z) : Prop := 0 ≤ z < 2 ^ 64.
Definition int64_t (z : Z) : Prop := - 2 ^ 63 ≤ z < 2 ^ 63.
Definition uint32_t (z : Z) : Prop := 0 ≤ z < 2 ^ 32.

Definition representable (p : EventPayload) : Prop :=
  match p with
  | payload_add m =>
      uint64_t (AddOrderMsg.ts_us m) ∧ uint64_t (AddOrderMsg.order_id m) ∧
      length (AddOrderMsg.symbol m) = 6%nat ∧
      int64_t (AddOrderMsg.px_nano m) ∧ uint32_t (AddOrderMsg.qty m)
  | payload_modify m =>
      uint64_t (ModifyOrderMsg.ts_us m) ∧ uint64_t (ModifyOrderMsg.order_id m) ∧
      int64_t (ModifyOrderMsg.new_px_nano m) ∧ uint32_t (ModifyOrderMsg.new_qty m)
  | payload_execute m =>
      uint64_t (ExecuteOrderMsg.ts_us m) ∧ uint64_t (ExecuteOrderMsg.order_id m) ∧
      uint32_t (ExecuteOrderMsg.exec_qty m)
  | payload_delete_order m =>
      uint64_t (DeleteOrderMsg.ts_us m) ∧ uint64_t (DeleteOrderMsg.order_id m)
  | payload_unset => False
  end.

(** A record the decoder takes: the type byte is the tag of its record type
    and the fields pass the checks of [read_message]. *)
Definition well_formed (p : EventPayload) : Prop :=
  representable p ∧
  match p with
  | payload_add m =>
      AddOrderMsg.type m = "A"%byte ∧
      (AddOrderMsg.side m = "B"%byte ∨ AddOrderMsg.side m = "S"%byte) ∧
      AddOrderMsg.qty m ≠ 0
  | payload_modify m =>
      ModifyOrderMsg.type m = "U"%byte ∧ ModifyOrderMsg.new_qty m ≠ 0
  | payload_execute m =>
      ExecuteOrderMsg.type m = "E"%byte ∧ ExecuteOrderMsg.exec_qty m ≠ 0
  | payload_delete_order m => DeleteOrderMsg.type m = "D"%byte
  | payload_unset => False
  end.

(** The event [next] hands out for a record, read at clock value [now]. *)
Definition event_of (p : EventPayload) (now : Z) : Event :=
  match kind_of p with
  | Some T => mkEvent (event_type_of T) p now
  | None => Event_default
  end.

(** The loop of the tests and of the producer thread:
    [while (decoder.has_next()) { e = decoder.next(); if (e.type != INVALID)
    events.push_back(e); }], cut off after [fuel] iterations. The flag tells
    whether the loop has ended by itself. *)
Fixpoint decode_all (fuel : nat) (clock : nat → Z) (d : Decoder) (ticks : nat)
  : list Event * Decoder * nat * bool :=
  if negb (has_next d) then ([], d, ticks, true)
  else
    match fuel with
    | O => ([], d, ticks, false)
    | S fuel' =>
        let '(e, d1, t1) := next clock d ticks in
        let '(es, d2, t2, fin) := decode_all fuel' clock d1 t1 in
        (match type e with INVALID => es | _ => e :: es end, d2, t2, fin)
    end.

(** A decoder that [next] cannot move: the byte under the cursor is a known
    tag and [read_message] turns the record down. *)
Definition stuck (d : Decoder) : Prop :=
  has_next d = true ∧
  ∃ T, tag_of (byte_at (mapped_data_ d) (current_pos_ d)) = Some T ∧
       read_message T d = None.

(** ** Sample records *)

(** The Add record of [test_decoder.cpp], as a payload. *)
Definition sample_add : EventPayload :=
  payload_add
    (AddOrderMsg.mk "A"%byte 1234567890 12345 (list_byte_of_string "AAPL  ")
       "B"%byte 150000000000 100).

(** The Delete record of [delete_record], as a payload. *)
Definition sample_delete : EventPayload :=
  payload_delete_order (DeleteOrderMsg.mk "D"%byte 3 1).

End Wire.

(** * The hash of a symbol *)

Module SymbolHash.
Import Feed.

(** [static_cast<size_t>(c)] for a [char] [c]. Whether [char] is signed is
    left to the platform: where it is, a byte of 128 or more is a negative
    [char] and converts to [2^64 - 256 + byte]. *)
Definition size_t_of_char (char_is_signed : bool) (c : byte) : Z :=
  let u := Z.of_N (Byte.to_N c) in
  if char_is_signed && (128 <=? u) then wrap64 (u - 256) else u.

(** [std::hash<feed::Symbol>::operator()]: the loop
    [result = result * 31 + static_cast<size_t>(symbol.data[i])] over the six
    bytes, in [size_t] arithmetic. *)
Definition hash (char_is_signed : bool) (s : Symbol) : Z :=
  foldl (λ result c, wrap64 (result * 31 + size_t_of_char char_is_signed c))
        0 (take 6 (data s)).

End SymbolHash.

(** * Sessions of calls on one publisher *)

Module Session.
Import Publish.

(** [TopOfBookPublisher(std::ostream& output)] on a stream that holds [out]. *)
Definition make (out : string) : TopOfBookPublisher := mkPublisher out false.

(** [TopOfBookPublisher::print_header], a public member: it writes the
    header line and leaves [header_printed_] alone. *)
Definition print_header (p : TopOfBookPublisher) : TopOfBookPublisher :=
  mkPublisher (output_ p +:+ header) (header_printed_ p).

(** The calls a client makes on one publisher. *)
Inductive Call :=
| PublishRow (timestamp_us : Z) (symbol : Feed.Symbol) (tob : Book.TopOfBook)
| PrintHeader.

Definition call (p : TopOfBookPublisher) (c : Call) : TopOfBookPublisher :=
  match c with
  | PublishRow ts sym tob => publish p ts sym tob
  | PrintHeader => print_header p
  end.

Definition calls (p : TopOfBookPublisher) (cs : list Call) : TopOfBookPublisher :=
  foldl call p cs.

(** The text a list of calls writes once the header is out. *)
Fixpoint body (cs : list Call) : string :=
  match cs with
  | [] => ""
  | PublishRow ts sym tob :: cs' => data_row ts sym tob +:+ body cs'
  | PrintHeader :: cs' => header +:+ body cs'
  end.

(** The text a list of calls writes on a publisher whose header is not out
    yet: an automatic header goes before the first [publish]. *)
Fixpoint transcript (cs : list Call) : string :=
  match cs with
  | [] => ""
  | PublishRow ts sym tob :: cs' => header +:+ data_row ts sym tob +:+ body cs'
  | PrintHeader :: cs' => header +:+ transcript cs'
  end.

Definition is_publish (c : Call) : bool :=
  match c with PublishRow _ _ _ => true | PrintHeader => false end.

(** A [double] whose sign bit is clear: [+0], a positive number or [+inf]. *)
Definition sign_clear (x : spec_float) : Prop :=
  match x with
  | S754_zero s | S754_infinity s | S754_finite s _ _ => s = false
  | S754_nan => False
  end.

End Session.

(** * The consumer of [main.cpp] *)

Module Consumer.
Import Feed.

(** [std::unordered_map<feed::Symbol, book::OrderBook> order_books], as the
    consumer sees it: the entries in the order in which the range-for loops
    visit them. *)
Definition Books := list (Symbol * Book.OrderBook).

(** [(msg.side == 'B') ? book::Side::BUY : book::Side::SELL] *)
Definition side_of (c : byte) : Book.Side :=
  if Byte.eqb c "B"%byte then Book.BUY else Book.SELL.

(** [order_books.find(symbol)] followed by a call on [it->second]: [f] runs
    on the book stored under a key equal to [symbol]; [None] when [find]
    returns [end()]. *)
Fixpoint at_symbol (symbol : Symbol) (f : Book.OrderBook → bool * Book.OrderBook)
    (books : Books) : option bool * Books :=
  match books with
  | [] => (None, [])
  | (sym, book) :: rest =>
      if Symbol_eq sym symbol
      then let '(ok, book') := f book in (Some ok, (sym, book') :: rest)
      else let '(r, rest') := at_symbol symbol f rest in (r, (sym, book) :: rest')
  end.

(** [for (auto& [sym, book] : order_books) { if (f(book)) { symbol = sym;
    processed = true; break; } }]: every book up to the first that accepts is
    called, and keeps what the call leaves. *)
Fixpoint probe (f : Book.OrderBook → bool * Book.OrderBook) (books : Books)
  : option Symbol * Books :=
  match books with
  | [] => (None, [])
  | (sym, book) :: rest =>
      let '(ok, book') := f book in
      if ok then (Some sym, (sym, book') :: rest)
      else let '(r, rest') := probe f rest in (r, (sym, book') :: rest')
  end.

(** The [switch (event.type)] of the consumer loop: whether the event was
    processed, the symbol it was booked under, and the books afterwards. An
    event pairs its type with the payload member of that type, as [next]
    builds it; any other event falls to [default]. *)
Definition process (books : Books) (e : Event) : bool * Symbol * Books :=
  match type e, payload e with
  | ADD_ORDER, payload_add msg =>
      let symbol := Symbol_of (AddOrderMsg.symbol msg) in
      let '(r, books') :=
        at_symbol symbol
          (λ book, Book.on_add book (AddOrderMsg.order_id msg)
                     (side_of (AddOrderMsg.side msg))
                     (AddOrderMsg.px_nano msg) (AddOrderMsg.qty msg)) books in
      (default false r, symbol, books')
  | MODIFY_ORDER, payload_modify msg =>
      let '(r, books') :=
        probe (λ book, Book.on_modify book (ModifyOrderMsg.order_id msg)
                         (ModifyOrderMsg.new_px_nano msg)
                         (ModifyOrderMsg.new_qty msg)) books in
      (bool_decide (is_Some r), default Symbol_default r, books')
  | EXECUTE_ORDER, payload_execute msg =>
      let '(r, books') :=
        probe (λ book, Book.on_execute book (ExecuteOrderMsg.order_id msg)
                         (ExecuteOrderMsg.exec_qty msg)) books in
      (bool_decide (is_Some r), default Symbol_default r, books')
  | DELETE_ORDER, payload_delete_order msg =>
      let '(r, books') :=
        probe (λ book, Book.on_delete book (DeleteOrderMsg.order_id msg)) books in
      (bool_decide (is_Some r), default Symbol_default r, books')
  | _, _ => (false, Symbol_default, books)
  end.

(** The book operation an event stands for. *)
Definition op_of (e : Event) : option Book.Op :=
  match type e, payload e with
  | ADD_ORDER, payload_add msg =>
      Some (Book.Add (AddOrderMsg.order_id msg) (side_of (AddOrderMsg.side msg))
              (AddOrderMsg.px_nano msg) (AddOrderMsg.qty msg))
  | MODIFY_ORDER, payload_modify msg =>
      Some (Book.Modify (ModifyOrderMsg.order_id msg)
              (ModifyOrderMsg.new_px_nano msg) (ModifyOrderMsg.new_qty msg))
  | EXECUTE_ORDER, payload_execute msg =>
      Some (Book.Execute (ExecuteOrderMsg.order_id msg) (ExecuteOrderMsg.exec_qty msg))
  | DELETE_ORDER, payload_delete_order msg =>
      Some (Book.Delete (DeleteOrderMsg.order_id msg))
  | _, _ => None
  end.

(** The books [f] turns down. *)
Definition rejects (f : Book.OrderBook → bool * Book.OrderBook)
    (entry : Symbol * Book.OrderBook) : Prop :=
  (f entry.2).1 = false.

(** ** Order ids across the books *)

(** I1 across the books: an order id is live in at most one of them. *)
Definition ids_unique (books : Books) : Prop :=
  ∀ (j1 j2 : nat) entry1 entry2 order_id,
    books !! j1 = Some entry1 → books !! j2 = Some entry2 →
    is_Some (Book.orders_ entry1.2 !! order_id) →
    is_Some (Book.orders_ entry2.2 !! order_id) →
    j1 = j2.

(** No book holds [order_id]. *)
Definition id_absent (order_id : Z) (books : Books) : Prop :=
  Forall (λ entry, Book.orders_ entry.2 !! order_id = None) books.

(** ** Sample books and events *)

(** Two configured symbols: an empty AAPL book and an MSFT book holding
    order 7, a bid of 50 at 300. *)
Definition sample_books : Books :=
  [(Symbol_of (list_byte_of_string "AAPL"), Book.empty_book);
   (Symbol_of (list_byte_of_string "MSFT"),
    (Book.on_add Book.empty_book 7 Book.BUY 300 50).2)].

(** An empty AAPL book beside an MSFT book that holds order 12345, the id
    of [sample_add_event]. *)
Definition books_sharing_id : Books :=
  [(Symbol_of (list_byte_of_string "AAPL"), Book.empty_book);
   (Symbol_of (list_byte_of_string "MSFT"),
    (Book.on_add Book.empty_book 12345 Book.BUY 300 50).2)].

(** A Delete of order 7. *)
Definition sample_delete_event : Event :=
  mkEvent DELETE_ORDER (payload_delete_order (DeleteOrderMsg.mk "D"%byte 3 7)) 1000.

(** The Add record of [test_decoder.cpp] as [next] hands it out. *)
Definition sample_add_event : Event := Wire.event_of Wire.sample_add 1000.

End Consumer.

(** * The latency statistics of [main.cpp] *)

Module Stats.

(** [struct LatencyStats { std::vector<uint64_t> latencies; }] *)
Record LatencyStats := mkStats { latencies : list Z }.

(** [LatencyStats::add] *)
Definition add (s : LatencyStats) (latency_us : Z) : LatencyStats :=
  mkStats (latencies s ++ [latency_us]).

(** [v[i]] on a vector; past the end the C++ read is undefined, the model
    reads 0. *)
Definition at_index (v : list Z) (i : Z) : Z := default 0 (v !! Z.to_nat i).

(** [n * p / 100] in [size_t] arithmetic. *)
Definition rank (n p : Z) : Z := wrap64 (n * p) / 100.

(** [LatencyStats::report]: [None] for the "No latency measurements" branch,
    else the values written for p50, p95, p99 and the sample count.
    [std::sort] leaves the one ascending arrangement of the samples. *)
Definition report (s : LatencyStats) : option (Z * Z * Z * Z) :=
  match latencies s with
  | [] => None
  | _ =>
      let sorted_latencies := merge_sort Z.le (latencies s) in
      let n := Z.of_nat (length sorted_latencies) in
      Some (at_index sorted_latencies (rank n 50),
            at_index sorted_latencies (rank n 95),
            at_index sorted_latencies (rank n 99), n)
  end.

(** How many samples are at most, resp. at least, [x]. *)
Definition count_le (x : Z) (l : list Z) : Z :=
  Z.of_nat (length (filter (λ y, y ≤ x) l)).
Definition count_ge (x : Z) (l : list Z) : Z :=
  Z.of_nat (length (filter (λ y, x ≤ y) l)).

End Stats.

(** * The feed generator of [tools/simgen/simgen.cpp] *)

Module Simgen.
Import Feed.

(** [struct OrderInfo] of [FeedGenerator] *)
Record OrderInfo := mkOrderInfo
  { order_id : Z; side : byte; price : Z; quantity : Z }.

(** [class FeedGenerator]. The random engine and [base_prices_] only feed
    the values drawn below, so they are not part of the state. *)
Record FeedGenerator := mkGenerator
  { symbols_ : list string;
    next_order_id_ : Z;
    active_orders_ : gmap string (list OrderInfo) }.

(** [FeedGenerator(symbols, rng)] *)
Definition make (symbols : list string) : FeedGenerator :=
  mkGenerator symbols 1 ∅.


Definition set_orders (g : FeedGenerator) (symbol : string)
    (orders : list OrderInfo) : FeedGenerator :=
  mkGenerator (symbols_ g) (next_order_id_ g) (<[symbol := orders]> (active_orders_ g)).













(** ** Sample draws *)


End Simgen.

(** * One producer and one consumer on the ring, step by step *)

Module Spsc.
Import Ring.

(** [try_push] and [try_pop] split into their accesses to memory: the load of
    the thread's own index, the load of the other index with the test, the
    access to the slot, the store of the new index. An execution interleaves
    the accesses of the producer and of the consumer in any order, and every
    load sees the value stored last: the [std::memory_order] arguments, all of
    them at least acquire on the loads of the other thread's index and release
    on the stores, are read as giving such executions. *)

Section Threads.
Context {T : Type}.
Variable T_init : T.

(** Where the producer stands inside [try_push(item)]: before the call,
    after [tail_.load], after the test against [head_.load] has found room,
    after the write to [buffer_[current_tail]]. *)
Inductive Producer :=
| PIdle
| PLoadedTail (item : T) (current_tail : Z)
| PChecked (item : T) (current_tail next_tail : Z)
| PWritten (item : T) (current_tail next_tail : Z).

(** Where the consumer stands inside [try_pop(item)]: before the call, after
    [head_.load], after the test against [tail_.load] has found an item,
    after the read of [buffer_[current_head]]. *)
Inductive Consumer :=
| CIdle
| CLoadedHead (current_head : Z)
| CChecked (current_head : Z)
| CRead (current_head : Z) (item : T).

(** The ring both threads share, the two threads, and what the calls have
    returned so far: the items of the [try_push] calls that returned true
    and the items handed out by the [try_pop] calls that returned true. *)
Record State := mkState
  { ring : RingBuffer T; producer : Producer; consumer : Consumer;
    pushed : list T; popped : list T }.

Definition init (capacity : Z) : State :=
  mkState (make T_init capacity) PIdle CIdle [] [].

(** One move of the scheduler: a thread enters a call, or the thread inside
    a call performs its next access to memory. *)
Inductive Move :=
| ProducerCall (item : T)
| ProducerStep
| ConsumerCall
| ConsumerStep.

(** The producer's next access. *)
Definition producer_step (s : State) : State :=
  let r := ring s in
  match producer s with
  | PIdle => s
  | PLoadedTail item current_tail =>
      let next_tail := advance (mask_ r) current_tail in
      if next_tail =? head_ r
      then mkState r PIdle (consumer s) (pushed s) (popped s)
      else mkState r (PChecked item current_tail next_tail) (consumer s)
                   (pushed s) (popped s)
  | PChecked item current_tail next_tail =>
      mkState (mkRing (capacity_ r) (mask_ r)
                 (<[Z.to_nat current_tail := item]> (buffer_ r)) (head_ r) (tail_ r))
              (PWritten item current_tail next_tail) (consumer s)
              (pushed s) (popped s)
  | PWritten item current_tail next_tail =>
      mkState (mkRing (capacity_ r) (mask_ r) (buffer_ r) (head_ r) next_tail)
              PIdle (consumer s) (pushed s ++ [item]) (popped s)
  end.

(** The consumer's next access. *)
Definition consumer_step (s : State) : State :=
  let r := ring s in
  match consumer s with
  | CIdle => s
  | CLoadedHead current_head =>
      if current_head =? tail_ r
      then mkState r (producer s) CIdle (pushed s) (popped s)
      else mkState r (producer s) (CChecked current_head) (pushed s) (popped s)
  | CChecked current_head =>
      mkState r (producer s) (CRead current_head (slot T_init (buffer_ r) current_head))
              (pushed s) (popped s)
  | CRead current_head item =>
      mkState (mkRing (capacity_ r) (mask_ r) (buffer_ r)
                 (advance (mask_ r) current_head) (tail_ r))
              (producer s) CIdle (pushed s) (popped s ++ [item])
  end.

(** A move that does not apply (a call while the thread is inside one, a
    step while it is outside) changes nothing. *)
Definition step (s : State) (m : Move) : State :=
  match m with
  | ProducerCall item =>
      match producer s with
      | PIdle => mkState (ring s) (PLoadedTail item (tail_ (ring s))) (consumer s)
                         (pushed s) (popped s)
      | _ => s
      end
  | ProducerStep => producer_step s
  | ConsumerCall =>
      match consumer s with
      | CIdle => mkState (ring s) (producer s) (CLoadedHead (head_ (ring s)))
                         (pushed s) (popped s)
      | _ => s
      end
  | ConsumerStep => consumer_step s
  end.

(** An execution: the moves in the order the scheduler makes them. *)
Definition execute (s : State) (schedule : list Move) : State :=
  foldl step s schedule.

(** What holds at every point of an execution on a ring of capacity [2^k]. *)
Definition producer_ok (s : State) : Prop :=
  let r := ring s in
  match producer s with
  | PIdle => True
  | PLoadedTail _ current_tail => current_tail = tail_ r
  | PChecked _ current_tail next_tail =>
      current_tail = tail_ r ∧ next_tail = advance (mask_ r) current_tail ∧
      next_tail ≠ head_ r
  | PWritten item current_tail next_tail =>
      current_tail = tail_ r ∧ next_tail = advance (mask_ r) current_tail ∧
      next_tail ≠ head_ r ∧ slot T_init (buffer_ r) current_tail = item
  end.

Definition consumer_ok (s : State) : Prop :=
  let r := ring s in
  match consumer s with
  | CIdle => True
  | CLoadedHead current_head => current_head = head_ r
  | CChecked current_head => current_head = head_ r ∧ head_ r ≠ tail_ r
  | CRead current_head item =>
      current_head = head_ r ∧ head_ r ≠ tail_ r ∧
      item = slot T_init (buffer_ r) current_head
  end.

Definition invariant (k : Z) (s : State) : Prop :=
  wf k (ring s) ∧ pushed s = popped s ++ contents T_init (ring s) ∧
  producer_ok s ∧ consumer_ok s.

(** The slot the producer is about to write, and the slot the consumer is
    about to read. *)
Definition writing (s : State) : option Z :=
  match producer s with PChecked _ current_tail _ => Some current_tail | _ => None end.
Definition reading (s : State) : option Z :=
  match consumer s with CChecked current_head => Some current_head | _ => None end.

End Threads.

Arguments State : clear implicits.
Arguments Producer : clear implicits.
Arguments Consumer : clear implicits.
Arguments Move : clear implicits.

End Spsc.

(** * Facts about machine integers *)

Lemma wrap32_small z : 0 ≤ z < 2 ^ 32 → wrap32 z = z.
Proof. intros. unfold wrap32. by apply Z.mod_small. Qed.

Lemma wrap64_small z : 0 ≤ z < 2 ^ 64 → wrap64 z = z.
Proof. intros. unfold wrap64. by apply Z.mod_small. Qed.

Lemma wrap32_range z : 0 ≤ wrap32 z < 2 ^ 32.
Proof. unfold wrap32. apply Z.mod_pos_bound. lia. Qed.

(** * Facts about the order book *)

Module BookFacts.
Import Book.

(** ** [begin()] of an ordered map *)

Section FirstEntry.
Variable before : Z → Z → bool.
Hypothesis before_irrefl : ∀ a, before a a = false.
Hypothesis before_trans :
  ∀ a b c, before a b = false → before b c = false → before a c = false.
Hypothesis before_total : ∀ a b, before a b = true → before b a = false.
Hypothesis before_antisym :
  ∀ a b, before a b = false → before b a = false → a = b.

Local Abbreviation pick := (Book.pick before).

Lemma pick_nil_iff l : pick l = None ↔ l = [].
Proof.
  destruct l as [|kv l]; simpl; [done|].
  split; [|done]. destruct (pick l) as [best|]; [|done].
  by destruct (before kv.1 best.1).
Qed.

Lemma pick_first l kv :
  pick l = Some kv →
  kv ∈ l ∧ ∀ kv', kv' ∈ l → before kv'.1 kv.1 = false.
Proof.
  revert kv. induction l as [|x l IH]; intros kv; simpl; [done|].
  destruct (pick l) as [best|] eqn:Hp.
  - destruct (IH best eq_refl) as [Hin Hmin].
    destruct (before x.1 best.1) eqn:Hb; intros [= <-].
    + split; [apply list_elem_of_here|].
      intros kv' [->|Hin']%elem_of_cons; [apply before_irrefl|].
      apply before_trans with best.1; [by apply Hmin | by apply before_total].
    + split; [by apply list_elem_of_further|].
      intros kv' [->|Hin']%elem_of_cons; [done | by apply Hmin].
  - intros [= <-]. apply pick_nil_iff in Hp as ->.
    split; [apply list_elem_of_here|].
    intros kv' [->|Hin']%elem_of_cons; [apply before_irrefl|].
    by apply elem_of_nil in Hin'.
Qed.

Lemma first_entry_empty m : first_entry before m = None ↔ m = ∅.
Proof.
  unfold first_entry.
  rewrite pick_nil_iff. apply map_to_list_empty_iff.
Qed.

Lemma first_entry_lookup m k v :
  first_entry before m = Some (k, v) →
  m !! k = Some v ∧ ∀ k', is_Some (m !! k') → before k' k = false.
Proof.
  unfold first_entry.
  intros [Hin Hmin]%pick_first. split; [by apply elem_of_map_to_list|].
  intros k' [v' Hv']. apply (Hmin (k', v')). by apply elem_of_map_to_list.
Qed.

Lemma first_entry_intro m k v :
  m !! k = Some v →
  (∀ k', is_Some (m !! k') → before k' k = false) →
  first_entry before m = Some (k, v).
Proof.
  intros Hk Hmin. destruct (first_entry before m) as [[k0 v0]|] eqn:Hf.
  - apply first_entry_lookup in Hf as [Hk0 Hmin0].
    assert (k0 = k) as ->.
    { apply before_antisym; [apply Hmin | apply Hmin0]; eauto. }
    congruence.
  - apply first_entry_empty in Hf. subst m. by rewrite lookup_empty in Hk.
Qed.
End FirstEntry.

Lemma asks_begin_spec b k v :
  asks_begin b = Some (k, v) ↔
  asks_ b !! k = Some v ∧ ∀ k', is_Some (asks_ b !! k') → k ≤ k'.
Proof.
  unfold asks_begin. split.
  - intros H. apply first_entry_lookup in H as [Hk Hmin]; try (intros; lia).
    split; [done|]. intros k' Hk'. specialize (Hmin k' Hk'). lia.
  - intros [Hk Hmin]. apply first_entry_intro; try done; try (intros; lia).
    intros k' Hk'. specialize (Hmin k' Hk'). lia.
Qed.

Lemma bids_begin_spec b k v :
  bids_begin b = Some (k, v) ↔
  bids_ b !! k = Some v ∧ ∀ k', is_Some (bids_ b !! k') → k' ≤ k.
Proof.
  unfold bids_begin. split.
  - intros H. apply first_entry_lookup in H as [Hk Hmin]; try (intros; lia).
    split; [done|]. intros k' Hk'. specialize (Hmin k' Hk'). lia.
  - intros [Hk Hmin]. apply first_entry_intro; try done; try (intros; lia).
    intros k' Hk'. specialize (Hmin k' Hk'). lia.
Qed.

Lemma asks_begin_None b : asks_begin b = None ↔ asks_ b = ∅.
Proof. apply first_entry_empty. Qed.

Lemma bids_begin_None b : bids_begin b = None ↔ bids_ b = ∅.
Proof. apply first_entry_empty. Qed.

(** ** Rejections *)

Lemma on_add_rejected_iff b i s p q :
  (on_add b i s p q).1 = false ↔
  is_Some (orders_ b !! i) ∨ has_crossing b s p = true.
Proof.
  unfold on_add. destruct (orders_ b !! i) eqn:Hi; simpl.
  - split; [eauto | done].
  - destruct (has_crossing b s p); simpl.
    + split; [eauto | done].
    + split; [done|]. intros [[? [=]]|[=]].
Qed.

Lemma on_modify_rejected_iff b i p q :
  (on_modify b i p q).1 = false ↔
  orders_ b !! i = None ∨ q = 0 ∨
  ∃ o, orders_ b !! i = Some o ∧ has_crossing b (side o) p = true.
Proof.
  unfold on_modify. destruct (orders_ b !! i) as [o|] eqn:Hi; simpl.
  - destruct (Z.eqb_spec q 0) as [->|Hq]; simpl; [split; eauto|].
    destruct (has_crossing b (side o) p) eqn:Hc; simpl.
    + split; [|done]. intros _. right; right. eauto.
    + split; [done|]. intros [[=]|[?|(o' & [= <-] & Hc')]]; [done|congruence].
  - split; eauto.
Qed.

Lemma on_execute_rejected_iff b i q :
  (on_execute b i q).1 = false ↔
  orders_ b !! i = None ∨ ∃ o, orders_ b !! i = Some o ∧ quantity o < q.
Proof.
  unfold on_execute. destruct (orders_ b !! i) as [o|] eqn:Hi; simpl.
  - destruct (Z.gtb_spec q (quantity o)) as [Hgt|Hle]; simpl.
    + split; [|done]. intros _. right. exists o. split; [done|lia].
    + split.
      * by destruct (wrap32 (quantity o - q) =? 0).
      * intros [[=]|(o' & [= <-] & Hlt)]. lia.
  - split; eauto.
Qed.

Lemma on_delete_rejected_iff b i :
  (on_delete b i).1 = false ↔ orders_ b !! i = None.
Proof.
  unfold on_delete. destruct (orders_ b !! i) as [o|] eqn:Hi; simpl; split; done.
Qed.

(** C2: a call of [on_add], [on_modify], [on_execute] or [on_delete] that
    returns false leaves the book as it was: the order map and both ladders
    are unchanged, hence so are [order_count], [empty] and [top_of_book]. *)
Theorem rejected_leaves_book_unchanged (b : OrderBook) (op : Op) :
  (apply_op b op).1 = false →
  let b' := (apply_op b op).2 in
  b' = b ∧
  orders_ b' = orders_ b ∧ bids_ b' = bids_ b ∧ asks_ b' = asks_ b ∧
  order_count b' = order_count b ∧ empty b' = empty b ∧
  top_of_book b' = top_of_book b.
Proof.
  intros Hrej. cbn zeta.
  assert ((apply_op b op).2 = b) as ->; [|done].
  destruct op as [i s p q|i p q|i q|i]; simpl in *.
  - unfold on_add in *. destruct (orders_ b !! i); [done|].
    by destruct (has_crossing b s p).
  - unfold on_modify in *. destruct (orders_ b !! i) as [o|]; [|done].
    destruct (q =? 0); [done|]. by destruct (has_crossing b (side o) p).
  - unfold on_execute in *. destruct (orders_ b !! i) as [o|]; [|done].
    destruct (q >? quantity o); [done|].
    by destruct (wrap32 (quantity o - q) =? 0).
  - unfold on_delete in *. by destruct (orders_ b !! i).
Qed.

Lemma rejected_leaves_book_unchanged_witness :
  let b := (on_add empty_book 1 BUY 100000000000 100).2 in
  (apply_op b (Execute 1 150)).1 = false ∧
  (apply_op b (Execute 1 150)).2 = b.
Proof.
  split; [reflexivity|].
  apply (rejected_leaves_book_unchanged
           (on_add empty_book 1 BUY 100000000000 100).2 (Execute 1 150)).
  reflexivity.
Defined.

(** ** Crossing *)

Lemma has_crossing_buy b p :
  has_crossing b BUY p = true ↔
  ∃ best, (∃ v, asks_ b !! best = Some v) ∧
          (∀ k, is_Some (asks_ b !! k) → best ≤ k) ∧ best ≤ p.
Proof.
  unfold has_crossing. destruct (asks_begin b) as [[k v]|] eqn:Hb.
  - apply asks_begin_spec in Hb as Hb'. destruct Hb' as [Hk Hmin]. split.
    + intros Hp. exists k. split; [eauto|]. split; [done|lia].
    + intros (best & [v' Hv'] & Hmin' & Hle).
      assert (best = k) as ->; [|lia].
      apply Z.le_antisymm; [apply Hmin' | apply Hmin]; eauto.
  - apply asks_begin_None in Hb. split; [done|].
    intros (best & [v' Hv'] & _). rewrite Hb in Hv'. by rewrite lookup_empty in Hv'.
Qed.

Lemma has_crossing_sell b p :
  has_crossing b SELL p = true ↔
  ∃ best, (∃ v, bids_ b !! best = Some v) ∧
          (∀ k, is_Some (bids_ b !! k) → k ≤ best) ∧ p ≤ best.
Proof.
  unfold has_crossing. destruct (bids_begin b) as [[k v]|] eqn:Hb.
  - apply bids_begin_spec in Hb as Hb'. destruct Hb' as [Hk Hmin]. split.
    + intros Hp. exists k. split; [eauto|]. split; [done|lia].
    + intros (best & [v' Hv'] & Hmin' & Hle).
      assert (best = k) as ->; [|lia].
      apply Z.le_antisymm; [apply Hmin | apply Hmin']; eauto.
  - apply bids_begin_None in Hb. split; [done|].
    intros (best & [v' Hv'] & _). rewrite Hb in Hv'. by rewrite lookup_empty in Hv'.
Qed.

(** C3: for a live order and a non-zero new quantity, [on_modify] accepts
    exactly when [has_crossing] is false on the book as it stands before the
    call. A BUY is rejected iff the ask ladder is non-empty and the new price
    is at or above the least ask price; a SELL is rejected iff the bid ladder
    is non-empty and the new price is at or below the greatest bid price. *)
Theorem on_modify_crossing_decision (b : OrderBook) (i new_price new_quantity : Z)
    (o : OrderInfo) :
  orders_ b !! i = Some o →
  new_quantity ≠ 0 →
  (on_modify b i new_price new_quantity).1 = negb (has_crossing b (side o) new_price) ∧
  (side o = BUY →
     ((on_modify b i new_price new_quantity).1 = false ↔
      ∃ best, (∃ v, asks_ b !! best = Some v) ∧
              (∀ k, is_Some (asks_ b !! k) → best ≤ k) ∧ best ≤ new_price)) ∧
  (side o = SELL →
     ((on_modify b i new_price new_quantity).1 = false ↔
      ∃ best, (∃ v, bids_ b !! best = Some v) ∧
              (∀ k, is_Some (bids_ b !! k) → k ≤ best) ∧ new_price ≤ best)).
Proof.
  intros Hi Hq.
  assert ((on_modify b i new_price new_quantity).1
          = negb (has_crossing b (side o) new_price)) as Hdec.
  { unfold on_modify. rewrite Hi.
    destruct (Z.eqb_spec new_quantity 0); [done|].
    by destruct (has_crossing b (side o) new_price). }
  split; [done|]. rewrite Hdec. split; intros Hs; rewrite Hs.
  - rewrite <- has_crossing_buy. by destruct (has_crossing b BUY new_price).
  - rewrite <- has_crossing_sell. by destruct (has_crossing b SELL new_price).
Qed.

Lemma on_modify_crossing_decision_witness :
  let b := (on_add (on_add empty_book 1 BUY 100 10).2 2 SELL 105 20).2 in
  orders_ b !! 1 = Some (mkOrderInfo BUY 100 10) ∧
  (on_modify b 1 105 10).1 = negb (has_crossing b BUY 105) ∧
  (on_modify b 1 105 10).1 = false ∧
  (on_modify b 1 104 10).1 = true.
Proof.
  split; [reflexivity|]. split; [|split; reflexivity].
  assert (10 ≠ 0) as Hq by lia.
  exact (proj1 (on_modify_crossing_decision
                  (on_add (on_add empty_book 1 BUY 100 10).2 2 SELL 105 20).2
                  1 105 10 (mkOrderInfo BUY 100 10) eq_refl Hq)).
Defined.

(** ** Zero-quantity add *)

(** C1: [on_add] has no zero-quantity test (its sibling [on_modify] has one),
    so [on_add(1, BUY, 100000000000, 0)] on a fresh book is accepted, and the
    book it leaves stores a live order of quantity 0 (I5 fails) and a bid
    level whose aggregated quantity is 0 (I3 fails). *)
Theorem on_add_zero_quantity_breaks_invariants :
  let r := on_add empty_book 1 BUY 100000000000 0 in
  r.1 = true ∧
  orders_ r.2 !! 1 = Some (mkOrderInfo BUY 100000000000 0) ∧
  bids_ r.2 !! 100000000000 = Some 0 ∧
  ¬ I5 r.2 ∧ ¬ I3 r.2 ∧ ¬ invariants r.2.
Proof.
  cbn zeta.
  assert (¬ I5 (on_add empty_book 1 BUY 100000000000 0).2) as H5.
  { intros H. specialize (H 1 (mkOrderInfo BUY 100000000000 0) eq_refl).
    simpl in H. lia. }
  assert (¬ I3 (on_add empty_book 1 BUY 100000000000 0).2) as H3.
  { intros H. destruct (H BUY 100000000000) as [Hpos _].
    assert (0 < 0); [|lia]. apply Hpos. by eexists. }
  repeat split; try reflexivity; try done.
  intros (_ & _ & _ & _ & H). done.
Qed.

(** ** The invariants are kept by accepted operations *)

Lemma level_sum_empty s p : level_sum ∅ s p = 0.
Proof. unfold level_sum. by rewrite map_fold_empty. Qed.

Lemma level_sum_insert_fresh (o : gmap Z OrderInfo) i oi s p :
  o !! i = None →
  level_sum (<[i := oi]> o) s p = contribution oi s p + level_sum o s p.
Proof.
  intros Hi. unfold level_sum.
  apply (map_fold_insert_L (λ _ oi acc, contribution oi s p + acc));
    [intros; lia | done].
Qed.

Lemma level_sum_delete (o : gmap Z OrderInfo) i oi s p :
  o !! i = Some oi →
  level_sum (delete i o) s p = level_sum o s p - contribution oi s p.
Proof.
  intros Hi. unfold level_sum.
  rewrite (map_fold_delete_L (λ _ oi acc, contribution oi s p + acc) 0 i oi o);
    [lia | intros; lia | done].
Qed.

Lemma level_sum_insert (o : gmap Z OrderInfo) i old new s p :
  o !! i = Some old →
  level_sum (<[i := new]> o) s p
  = level_sum o s p - contribution old s p + contribution new s p.
Proof.
  intros Hi. rewrite <- (insert_delete_eq o i new).
  rewrite level_sum_insert_fresh by apply lookup_delete_eq.
  rewrite (level_sum_delete o i old) by done. lia.
Qed.

Lemma contribution_at oi s p :
  contribution oi s p = if decide (side oi = s ∧ price oi = p) then quantity oi else 0.
Proof.
  unfold contribution.
  by destruct (decide _);
    [rewrite bool_decide_eq_true_2 | rewrite bool_decide_eq_false_2].
Qed.

(** A level as one sees it from outside: side [s], price [p]. *)
Lemma ladder_add_to_level b s p q s0 p0 :
  ladder (add_to_level b s p q) s0 !! p0
  = if decide (s = s0 ∧ p = p0)
    then Some (wrap32 (default 0 (ladder b s !! p) + q))
    else ladder b s0 !! p0.
Proof.
  case_decide as Hd.
  - destruct Hd as [<- <-]. destruct s; simpl; apply lookup_insert_eq.
  - destruct s, s0; simpl; try done; apply lookup_insert_ne; naive_solver.
Qed.

Lemma ladder_remove_from_level b s p q s0 p0 :
  ladder (remove_from_level b s p q) s0 !! p0
  = if decide (s = s0 ∧ p = p0)
    then match ladder b s !! p with
         | Some v => if wrap32 (v - q) =? 0 then None else Some (wrap32 (v - q))
         | None => None
         end
    else ladder b s0 !! p0.
Proof.
  assert (∀ m : gmap Z Z,
            level_remove m p q !! p0
            = if decide (p = p0)
              then match m !! p with
                   | Some v => if wrap32 (v - q) =? 0 then None
                               else Some (wrap32 (v - q))
                   | None => None
                   end
              else m !! p0) as Hm.
  { intros m. unfold level_remove. case_decide as Hp.
    - subst p0. destruct (m !! p) as [v|] eqn:Hv; [|done].
      destruct (wrap32 (v - q) =? 0);
        [apply lookup_delete_eq | apply lookup_insert_eq].
    - destruct (m !! p) as [v|] eqn:Hv; [|done].
      destruct (wrap32 (v - q) =? 0);
        [by apply lookup_delete_ne | by apply lookup_insert_ne]. }
  destruct (decide (s = s0 ∧ p = p0)) as [[<- <-]|Hd].
  - destruct s; simpl; rewrite Hm; by rewrite decide_True.
  - destruct s, s0; simpl; try done; rewrite Hm; apply decide_False;
      intros ->; by apply Hd.
Qed.

Lemma levels_ok_iff b : (∀ s p, level_ok b s p) ↔ I2 b ∧ I3 b.
Proof.
  unfold level_ok, level_ok_at, I2, I3. split.
  - intros H. split; intros s p; specialize (H s p);
      destruct (ladder b s !! p) as [v|]; simpl.
    + by destruct H.
    + done.
    + destruct H as [-> Hpos]. split; [done|eauto].
    + rewrite H. split; [by intros [? [=]] | lia].
  - intros [H2 H3] s p. specialize (H2 s p). specialize (H3 s p).
    destruct (ladder b s !! p) as [v|]; simpl in *.
    + split; [done|]. rewrite H2. apply H3. eauto.
    + done.
Qed.

(** I4, key by key: every bid price lies below every ask price. *)
Lemma I4_keys b :
  I4 b ↔ ∀ bp ap, is_Some (bids_ b !! bp) → is_Some (asks_ b !! ap) → bp < ap.
Proof.
  unfold I4. split.
  - intros H bp ap Hb Ha.
    destruct (bids_begin b) as [[bb bq]|] eqn:Eb.
    2:{ apply bids_begin_None in Eb. rewrite Eb, lookup_empty in Hb.
        by destruct Hb. }
    destruct (asks_begin b) as [[ab aq]|] eqn:Ea.
    2:{ apply asks_begin_None in Ea. rewrite Ea, lookup_empty in Ha.
        by destruct Ha. }
    specialize (H _ _ _ _ eq_refl eq_refl).
    apply bids_begin_spec in Eb as [_ Hmax]. apply asks_begin_spec in Ea as [_ Hmin].
    specialize (Hmax bp Hb). specialize (Hmin ap Ha). lia.
  - intros H bp bq ap aq [Hb _]%bids_begin_spec [Ha _]%asks_begin_spec.
    apply H; eauto.
Qed.

Lemma no_crossing_keys b s p :
  has_crossing b s p = false →
  match s with
  | BUY => ∀ ap, is_Some (asks_ b !! ap) → p < ap
  | SELL => ∀ bp, is_Some (bids_ b !! bp) → bp < p
  end.
Proof.
  unfold has_crossing. destruct s.
  - destruct (asks_begin b) as [[k v]|] eqn:E.
    + apply asks_begin_spec in E as [_ Hmin]. intros Hp ap Ha.
      specialize (Hmin ap Ha). lia.
    + apply asks_begin_None in E. intros _ ap Ha.
      rewrite E, lookup_empty in Ha. by destruct Ha.
  - destruct (bids_begin b) as [[k v]|] eqn:E.
    + apply bids_begin_spec in E as [_ Hmax]. intros Hp bp Hb.
      specialize (Hmax bp Hb). lia.
    + apply bids_begin_None in E. intros _ bp Hb.
      rewrite E, lookup_empty in Hb. by destruct Hb.
Qed.

Lemma invariants_iff b : invariants b ↔ kept b.
Proof.
  unfold invariants, kept. rewrite levels_ok_iff, I4_keys. split.
  - intros (_ & H2 & H3 & H4 & H5). done.
  - intros ((H2 & H3) & H4 & H5). split; [apply NoDup_fst_map_to_list|done].
Qed.

Lemma level_ok_value b s p :
  level_ok b s p →
  default 0 (ladder b s !! p) = level_sum (orders_ b) s p ∧
  0 ≤ level_sum (orders_ b) s p.
Proof.
  unfold level_ok, level_ok_at. destruct (ladder b s !! p) as [v|]; simpl.
  - intros [-> ?]. lia.
  - intros ->. done.
Qed.

Lemma ladder_set_orders b o s : ladder (set_orders b o) s = ladder b s.
Proof. by destruct s. Qed.

Lemma orders_add_to_level b s p q : orders_ (add_to_level b s p q) = orders_ b.
Proof. by destruct s. Qed.

Lemma orders_remove_from_level b s p q :
  orders_ (remove_from_level b s p q) = orders_ b.
Proof. by destruct s. Qed.

Lemma add_ok v sum q :
  level_ok_at v sum → 0 < q → sum + q < 2 ^ 32 →
  level_ok_at (Some (wrap32 (default 0 v + q))) (sum + q).
Proof.
  unfold level_ok_at. destruct v as [v|]; simpl.
  - intros [-> Hv] Hq Hfit. rewrite wrap32_small by lia. lia.
  - intros -> Hq Hfit. rewrite wrap32_small by lia. lia.
Qed.

Lemma remove_ok v sum e :
  level_ok_at v sum → sum < 2 ^ 32 → 0 ≤ e ≤ sum →
  level_ok_at match v with
              | Some v => if wrap32 (v - e) =? 0 then None else Some (wrap32 (v - e))
              | None => None
              end (sum - e).
Proof.
  unfold level_ok_at. destruct v as [v|]; simpl.
  - intros [-> Hv] Hfit He. rewrite wrap32_small by lia.
    destruct (Z.eqb_spec (sum - e) 0); lia.
  - intros -> _ He. lia.
Qed.

Lemma level_sum_nonneg (o : gmap Z OrderInfo) s p :
  (∀ j oi, o !! j = Some oi → 0 < quantity oi) → 0 ≤ level_sum o s p.
Proof.
  unfold level_sum.
  apply (map_fold_weak_ind
           (λ r (m : gmap Z OrderInfo),
              (∀ j oi, m !! j = Some oi → 0 < quantity oi) → 0 ≤ r)).
  - done.
  - intros j oi m r Hj IH Hall.
    assert (0 ≤ r) as Hr.
    { apply IH. intros j' oi' Hj'. apply (Hall j').
      rewrite lookup_insert_ne; [done|]. intros ->. congruence. }
    specialize (Hall j oi (lookup_insert_eq _ _ _)).
    rewrite contribution_at. case_decide; lia.
Qed.

(** A live order is counted in the sum of its own level. *)
Lemma level_sum_order b i ord :
  I5 b → orders_ b !! i = Some ord →
  quantity ord ≤ level_sum (orders_ b) (side ord) (price ord).
Proof.
  intros H5 Hi.
  pose proof (level_sum_delete (orders_ b) i ord (side ord) (price ord) Hi) as Hd.
  rewrite contribution_at in Hd. rewrite decide_True in Hd by done.
  assert (0 ≤ level_sum (delete i (orders_ b)) (side ord) (price ord)); [|lia].
  apply level_sum_nonneg. intros j oi [_ Hj]%lookup_delete_Some. by apply (H5 j).
Qed.

Lemma keys_add_to_level b s p q s0 p0 :
  is_Some (ladder (add_to_level b s p q) s0 !! p0) →
  (s = s0 ∧ p = p0) ∨ is_Some (ladder b s0 !! p0).
Proof. rewrite ladder_add_to_level. case_decide; eauto. Qed.

Lemma keys_remove_from_level b s p q s0 p0 :
  is_Some (ladder (remove_from_level b s p q) s0 !! p0) →
  is_Some (ladder b s0 !! p0).
Proof.
  rewrite ladder_remove_from_level. case_decide as Hd; [|done].
  destruct Hd as [<- <-]. destruct (ladder b s !! p); [eauto|by intros [? [=]]].
Qed.

(** A price that does not cross lies strictly on its own side of every
    level of the other side. *)
Lemma no_crossing_sides b s p bp ap :
  (∀ bp ap, is_Some (ladder b BUY !! bp) → is_Some (ladder b SELL !! ap) → bp < ap) →
  has_crossing b s p = false →
  (s = BUY ∧ p = bp) ∨ is_Some (ladder b BUY !! bp) →
  (s = SELL ∧ p = ap) ∨ is_Some (ladder b SELL !! ap) →
  bp < ap.
Proof.
  intros Hcross Hc%no_crossing_keys [[-> ->]|Hb] [[? ->]|Ha]; try done.
  - by apply Hc.
  - subst s. by apply Hc.
  - by apply Hcross.
Qed.

Lemma on_add_keeps b i s p q :
  kept b → 0 < q →
  (on_add b i s p q).1 = true →
  levels_fit (on_add b i s p q).2 →
  kept (on_add b i s p q).2.
Proof.
  intros (Hlv & Hcross & H5) Hq. unfold on_add.
  destruct (orders_ b !! i) eqn:Hi; [done|].
  destruct (has_crossing b s p) eqn:Hc; [done|]. simpl. intros _ Hfit.
  set (b1 := set_orders b (<[i:=mkOrderInfo s p q]> (orders_ b))) in *.
  assert (∀ s0 p0, level_sum (orders_ (add_to_level b1 s p q)) s0 p0
                   = level_sum (orders_ b) s0 p0
                     + (if decide (s = s0 ∧ p = p0) then q else 0)) as Hsum.
  { intros s0 p0. rewrite orders_add_to_level. simpl.
    rewrite level_sum_insert_fresh, contribution_at by done. simpl. lia. }
  split; [|split].
  - intros s0 p0. unfold level_ok. rewrite ladder_add_to_level, Hsum.
    specialize (Hfit s0 p0). rewrite Hsum in Hfit.
    case_decide as Hd.
    + destruct Hd as [<- <-]. by apply (add_ok _ _ _ (Hlv s p)).
    + rewrite Z.add_0_r. apply Hlv.
  - intros bp ap Hb%keys_add_to_level Ha%keys_add_to_level.
    unfold b1 in Hb, Ha. rewrite ladder_set_orders in Hb, Ha.
    by apply (no_crossing_sides b s p).
  - intros j o. rewrite orders_add_to_level. simpl.
    rewrite lookup_insert. case_decide; [intros [= <-]; done | apply H5].
Qed.

Lemma on_delete_keeps b i :
  kept b → levels_fit b →
  (on_delete b i).1 = true →
  kept (on_delete b i).2.
Proof.
  intros (Hlv & Hcross & H5) Hfit. unfold on_delete.
  destruct (orders_ b !! i) as [ord|] eqn:Hi; [|done]. simpl. intros _.
  pose proof (level_sum_order b i ord H5 Hi) as Hle.
  pose proof (H5 i ord Hi) as Hpos.
  split; [|split].
  - intros s0 p0. unfold level_ok. simpl.
    rewrite ladder_set_orders, ladder_remove_from_level, orders_remove_from_level.
    rewrite (level_sum_delete _ _ ord) by done. rewrite contribution_at.
    case_decide as Hd.
    + destruct Hd as [<- <-]. apply remove_ok; [apply Hlv | apply Hfit | lia].
    + rewrite Z.sub_0_r. apply Hlv.
  - intros bp ap. rewrite !ladder_set_orders.
    intros Hb%keys_remove_from_level Ha%keys_remove_from_level.
    by apply Hcross.
  - intros j o. simpl. rewrite orders_remove_from_level.
    intros [_ Hj]%lookup_delete_Some. by apply (H5 j).
Qed.

Lemma on_execute_keeps b i e :
  kept b → levels_fit b → 0 ≤ e →
  (on_execute b i e).1 = true →
  kept (on_execute b i e).2.
Proof.
  intros (Hlv & Hcross & H5) Hfit He. unfold on_execute.
  destruct (orders_ b !! i) as [ord|] eqn:Hi; [|done].
  destruct (Z.gtb_spec e (quantity ord)) as [|Hle]; [done|].
  pose proof (level_sum_order b i ord H5 Hi) as Hsum.
  pose proof (Hfit (side ord) (price ord)) as Hfit1.
  rewrite wrap32_small by lia.
  set (b1 := remove_from_level b (side ord) (price ord) e).
  assert (∀ o', (∀ s0 p0, level_sum o' s0 p0
                          = level_sum (orders_ b) s0 p0
                            - (if decide (side ord = s0 ∧ price ord = p0)
                               then e else 0)) →
                (∀ j oi, o' !! j = Some oi → 0 < quantity oi) →
                kept (set_orders b1 o')) as Hkept.
  { intros o' Hsum' Hpos'. split; [|split].
    - intros s0 p0. unfold level_ok. simpl.
      rewrite ladder_set_orders. unfold b1.
      rewrite ladder_remove_from_level, Hsum'.
      case_decide as Hd.
      + destruct Hd as [<- <-]. apply remove_ok; [apply Hlv | done | lia].
      + rewrite Z.sub_0_r. apply Hlv.
    - intros bp ap. rewrite !ladder_set_orders.
      intros Hb%keys_remove_from_level Ha%keys_remove_from_level.
      by apply Hcross.
    - done. }
  destruct (Z.eqb_spec (quantity ord - e) 0) as [Hz|Hnz]; simpl; intros _;
    apply Hkept.
  - intros s0 p0. unfold b1. rewrite orders_remove_from_level.
    rewrite (level_sum_delete _ _ ord) by done. rewrite contribution_at.
    case_decide; lia.
  - intros j oi. unfold b1. rewrite orders_remove_from_level.
    intros [_ Hj]%lookup_delete_Some. by apply (H5 j).
  - intros s0 p0. unfold b1. rewrite orders_remove_from_level.
    rewrite (level_sum_insert _ _ ord) by done. rewrite !contribution_at. simpl.
    case_decide; lia.
  - intros j oi. unfold b1. rewrite orders_remove_from_level.
    rewrite lookup_insert. case_decide; [intros [= <-]; simpl; lia | apply H5].
Qed.

Lemma on_modify_keeps b i np nq :
  kept b → levels_fit b → 0 ≤ nq →
  (on_modify b i np nq).1 = true →
  levels_fit (on_modify b i np nq).2 →
  kept (on_modify b i np nq).2.
Proof.
  intros (Hlv & Hcross & H5) Hfit Hnq. unfold on_modify.
  destruct (orders_ b !! i) as [ord|] eqn:Hi; [|done].
  destruct (Z.eqb_spec nq 0) as [|Hnz]; [done|].
  destruct (has_crossing b (side ord) np) eqn:Hc; [done|]. simpl.
  intros _ Hfit'.
  pose proof (level_sum_order b i ord H5 Hi) as Hsum.
  pose proof (H5 i ord Hi) as Hpos.
  set (s := side ord) in *. set (p := price ord) in *. set (q := quantity ord) in *.
  set (b1 := remove_from_level b s p q) in *.
  set (b2 := set_orders b1 (<[i:=mkOrderInfo s np nq]> (orders_ b1))) in *.
  assert (∀ s0 p0, level_sum (orders_ b2) s0 p0
                   = level_sum (orders_ b) s0 p0
                     - (if decide (s = s0 ∧ p = p0) then q else 0)
                     + (if decide (s = s0 ∧ np = p0) then nq else 0)) as Hsum2.
  { intros s0 p0. unfold b2, b1. simpl. rewrite orders_remove_from_level.
    rewrite (level_sum_insert _ _ ord) by done. by rewrite !contribution_at. }
  assert (∀ s0 p0,
            level_ok_at (ladder b1 s0 !! p0)
              (level_sum (orders_ b) s0 p0
               - (if decide (s = s0 ∧ p = p0) then q else 0))) as Hlv1.
  { intros s0 p0. unfold b1. rewrite ladder_remove_from_level.
    case_decide as Hd.
    - destruct Hd as [<- <-]. apply remove_ok; [apply Hlv | apply Hfit | lia].
    - rewrite Z.sub_0_r. apply Hlv. }
  split; [|split].
  - intros s0 p0. unfold level_ok.
    rewrite ladder_add_to_level, orders_add_to_level, Hsum2.
    specialize (Hfit' s0 p0). rewrite orders_add_to_level, Hsum2 in Hfit'.
    unfold b2 at 1. rewrite ladder_set_orders.
    destruct (decide (s = s0 ∧ np = p0)) as [[<- <-]|Hd].
    + apply add_ok; [apply Hlv1 | lia | done].
    + rewrite Z.add_0_r. apply Hlv1.
  - intros bp ap Hb%keys_add_to_level Ha%keys_add_to_level.
    unfold b2 in Hb, Ha. rewrite ladder_set_orders in Hb, Ha.
    apply (no_crossing_sides b s np); try done.
    + destruct Hb as [|Hb%keys_remove_from_level]; eauto.
    + destruct Ha as [|Ha%keys_remove_from_level]; eauto.
  - intros j oi. rewrite orders_add_to_level. unfold b2, b1. simpl.
    rewrite orders_remove_from_level, lookup_insert.
    case_decide; [intros [= <-]; simpl; lia | apply H5].
Qed.

Lemma empty_book_invariants : invariants empty_book ∧ levels_fit empty_book.
Proof.
  split.
  - apply invariants_iff. split; [|split].
    + intros s p. unfold level_ok. destruct s; simpl;
        rewrite lookup_empty; apply level_sum_empty.
    + intros bp ap [? Hb]. simpl in Hb. by rewrite lookup_empty in Hb.
    + intros j o Hj. simpl in Hj. by rewrite lookup_empty in Hj.
  - intros s p. simpl. rewrite level_sum_empty. done.
Qed.

(** An accepted operation keeps I1-I5, as long as an added quantity is
    positive and no level sum outgrows the [uint32_t] level counter. *)
Theorem accepted_op_keeps_invariants (b : OrderBook) (op : Op) :
  invariants b → levels_fit b → quantities_ok op →
  (apply_op b op).1 = true →
  levels_fit (apply_op b op).2 →
  invariants (apply_op b op).2.
Proof.
  rewrite !invariants_iff. intros Hk Hfit Hq Hok Hfit'.
  destruct op as [i s p q|i p q|i q|i]; simpl in *.
  - by apply on_add_keeps.
  - by apply on_modify_keeps.
  - by apply on_execute_keeps.
  - by apply on_delete_keeps.
Qed.

(** The same along a run: if every call is accepted and every book on the
    way fits, every book on the way satisfies I1-I5. *)
Theorem accepted_run_keeps_invariants (ops : list Op) : ∀ b : OrderBook,
  invariants b → levels_fit b →
  Forall quantities_ok ops →
  Forall (λ ok, ok = true) (run b ops).1 →
  Forall levels_fit (states b ops) →
  Forall invariants (states b ops).
Proof.
  induction ops as [|op ops IH]; intros b Hinv Hfit Hq Hok Hfits; simpl in *.
  - constructor.
  - destruct (apply_op b op) as [ok b1] eqn:Hop.
    pose proof (IH b1) as IH1.
    destruct (run b1 ops) as [oks b2] eqn:Hrun. simpl in *.
    apply Forall_cons in Hq as [Hq1 Hq]. apply Forall_cons in Hok as [-> Hok].
    apply Forall_cons in Hfits as [Hfit1 Hfits].
    pose proof (accepted_op_keeps_invariants b op Hinv Hfit Hq1) as Hstep.
    rewrite Hop in Hstep. simpl in Hstep.
    constructor; [by apply Hstep|]. apply IH1; try done. by apply Hstep.
Qed.

(** Why the level sums have to fit: two adds of [2^31] at one price wrap the
    [uint32_t] level to 0, and I2 fails. *)
Lemma level_overflow_breaks_I2 :
  let b := (run empty_book [Add 1 BUY 100 2147483648; Add 2 BUY 100 2147483648]) in
  b.1 = [true; true] ∧ bids_ b.2 !! 100 = Some 0 ∧
  level_sum (orders_ b.2) BUY 100 = 4294967296 ∧ ¬ I2 b.2.
Proof.
  cbn zeta. split; [by vm_compute|]. split; [by vm_compute|].
  split; [by vm_compute|]. intros H. specialize (H BUY 100). by vm_compute in H.
Qed.

(** ** The scenarios of the specification *)

Example scenario_A :
  let r := run empty_book
             [Add 1 BUY 150000000000 100; Add 2 SELL 151000000000 200;
              Modify 1 150500000000 150; Execute 1 50; Delete 2] in
  r.1 = [true; true; true; true; true] ∧
  top_of_book r.2 = mkTopOfBook 150500000000 100 0 0 ∧
  has_ask (top_of_book r.2) = false ∧ order_count r.2 = 1%nat.
Proof. by vm_compute. Qed.

Example scenario_B :
  let r := run empty_book
             [Add 1 BUY 100000000000 100; Add 1 SELL 101000000000 200] in
  r.1 = [true; false] ∧ order_count r.2 = 1%nat ∧
  top_of_book r.2 = mkTopOfBook 100000000000 100 0 0.
Proof. by vm_compute. Qed.

Example scenario_C :
  let r := run empty_book
             [Add 1 BUY 100000000000 100; Add 2 SELL 99000000000 200;
              Add 2 SELL 101000000000 200] in
  r.1 = [true; false; true] ∧
  top_of_book r.2 = mkTopOfBook 100000000000 100 101000000000 200.
Proof. by vm_compute. Qed.

Example scenario_D :
  let r := run empty_book
             [Add 1 BUY 100000000000 100; Add 2 BUY 100000000000 200;
              Add 3 BUY 100000000000 50; Delete 2] in
  r.1 = [true; true; true; true] ∧
  top_of_book r.2 = mkTopOfBook 100000000000 150 0 0.
Proof. by vm_compute. Qed.

Example scenario_E :
  let r := run empty_book [Add 1 BUY 100000000000 100; Execute 1 150] in
  r.1 = [true; false] ∧
  top_of_book r.2 = mkTopOfBook 100000000000 100 0 0.
Proof. by vm_compute. Qed.

End BookFacts.

(** * Facts about the ring buffer *)

Module RingFacts.
Import Ring.

(** Case analysis on every integer comparison in the goal, then [lia]. *)
Ltac case_cmp :=
  repeat match goal with
         | |- context [Z.ltb ?a ?b] => destruct (Z.ltb_spec a b)
         | |- context [Z.leb ?a ?b] => destruct (Z.leb_spec a b)
         | |- context [Z.eqb ?a ?b] => destruct (Z.eqb_spec a b)
         end;
  intros; try done; try lia.

Lemma pow2_le_63 k : 0 ≤ k < 64 → 0 < 2 ^ k ≤ 2 ^ 63.
Proof.
  intros Hk. split; [apply Z.pow_pos_nonneg; lia|].
  apply Z.pow_le_mono_r; lia.
Qed.

Lemma land_mask k x : 0 ≤ k → Z.land x (2 ^ k - 1) = x mod 2 ^ k.
Proof.
  intros Hk. rewrite <- Z.land_ones by done. f_equal.
  rewrite Z.ones_equiv. lia.
Qed.

Lemma mod_pow2_cases k x :
  0 ≤ k → - 2 ^ k ≤ x < 2 * 2 ^ k →
  x mod 2 ^ k = if x <? 0 then x + 2 ^ k
                else if x <? 2 ^ k then x else x - 2 ^ k.
Proof.
  intros Hk Hx. assert (0 < 2 ^ k) by (apply Z.pow_pos_nonneg; lia).
  destruct (Z.ltb_spec x 0).
  - symmetry. apply (Z.mod_unique_pos _ _ (-1)); lia.
  - destruct (Z.ltb_spec x (2 ^ k)).
    + apply Z.mod_small; lia.
    + symmetry. apply (Z.mod_unique_pos _ _ 1); lia.
Qed.

Lemma wrap64_mod_pow2 k x : 0 ≤ k < 64 → wrap64 x mod 2 ^ k = x mod 2 ^ k.
Proof.
  intros Hk. unfold wrap64. apply Z.mod_mod_divide.
  exists (2 ^ (64 - k)). rewrite <- Z.pow_add_r by lia. f_equal. lia.
Qed.

Lemma advance_cases k i :
  0 ≤ k < 64 → 0 ≤ i < 2 ^ k →
  advance (2 ^ k - 1) i = if i + 1 <? 2 ^ k then i + 1 else 0.
Proof.
  intros Hk Hi. unfold advance.
  rewrite land_mask, wrap64_mod_pow2, mod_pow2_cases by lia.
  destruct (Z.ltb_spec (i + 1) 0); [lia|].
  destruct (Z.ltb_spec (i + 1) (2 ^ k)); lia.
Qed.

Section Facts.
Context {T : Type} (T_init : T).

Local Abbreviation ring := (RingBuffer T).

Lemma size_cases k (r : ring) :
  wf k r →
  size r = if head_ r <=? tail_ r then tail_ r - head_ r
           else tail_ r - head_ r + 2 ^ k.
Proof.
  intros (Hk & _ & Hm & _ & Hh & Ht). unfold size. rewrite Hm.
  rewrite land_mask, wrap64_mod_pow2, mod_pow2_cases by lia.
  destruct (Z.leb_spec (head_ r) (tail_ r));
    destruct (Z.ltb_spec (tail_ r - head_ r) 0); try lia;
    destruct (Z.ltb_spec (tail_ r - head_ r) (2 ^ k)); lia.
Qed.

Lemma size_range k (r : ring) : wf k r → 0 ≤ size r < 2 ^ k.
Proof.
  intros Hwf. rewrite (size_cases k r Hwf).
  destruct Hwf as (Hk & _ & _ & _ & Hh & Ht).
  destruct (Z.leb_spec (head_ r) (tail_ r)); lia.
Qed.

(** The asserts of the constructor pass for a power of two. *)
Lemma capacity_assert_pow2 k : 0 ≤ k < 64 → capacity_assert (2 ^ k) = true.
Proof.
  intros Hk. pose proof (pow2_le_63 k Hk) as Hp. unfold capacity_assert.
  apply andb_true_intro. split; [|lia].
  rewrite wrap64_small by lia. apply Z.eqb_eq.
  rewrite land_mask, Z.mod_same by lia. done.
Qed.

Lemma make_wf k : 0 ≤ k < 64 → wf k (make T_init (2 ^ k)).
Proof.
  intros Hk. pose proof (pow2_le_63 k Hk) as Hp. unfold wf, make; simpl.
  rewrite wrap64_small, length_replicate by lia. lia.
Qed.

Lemma make_size k : 0 ≤ k < 64 → size (make T_init (2 ^ k)) = 0.
Proof.
  intros Hk. rewrite (size_cases k _ (make_wf k Hk)). simpl. lia.
Qed.

(** Under [wf] every slot index the code uses is inside the array. *)
Lemma wf_slot_in_range k (r : ring) :
  wf k r →
  (Z.to_nat (head_ r) < length (buffer_ r))%nat ∧
  (Z.to_nat (tail_ r) < length (buffer_ r))%nat.
Proof. intros (Hk & _ & _ & Hl & Hh & Ht). lia. Qed.

(** ** Slots *)

Lemma slot_insert_eq (buf : list T) i x :
  (Z.to_nat i < length buf)%nat → slot T_init (<[Z.to_nat i := x]> buf) i = x.
Proof. intros Hi. unfold slot. by rewrite list_lookup_insert_eq. Qed.

Lemma slot_insert_ne (buf : list T) i j x :
  0 ≤ i → 0 ≤ j → i ≠ j →
  slot T_init (<[Z.to_nat i := x]> buf) j = slot T_init buf j.
Proof.
  intros Hi Hj Hne. unfold slot. rewrite list_lookup_insert_ne; [done|lia].
Qed.

Lemma advance_range k i :
  0 ≤ k < 64 → 0 ≤ i < 2 ^ k → 0 ≤ advance (2 ^ k - 1) i < 2 ^ k.
Proof.
  intros Hk Hi. rewrite (advance_cases k) by done. case_cmp.
Qed.

(** Writing slot [t] leaves the [n] slots from [h] alone when [t] lies at
    least [n] steps ahead of [h]. *)
Lemma slots_from_insert_ahead k (buf : list T) t x n : ∀ h,
  0 ≤ k < 64 → 0 ≤ h < 2 ^ k → 0 ≤ t < 2 ^ k →
  Z.of_nat n ≤ (if h <=? t then t - h else t - h + 2 ^ k) →
  slots_from T_init (<[Z.to_nat t := x]> buf) (2 ^ k - 1) h n
  = slots_from T_init buf (2 ^ k - 1) h n.
Proof.
  induction n as [|n IH]; intros h Hk Hh Ht Hd; simpl; [done|].
  assert (h ≠ t) as Hne by (revert Hd; case_cmp).
  rewrite slot_insert_ne by lia. f_equal.
  apply IH; [done | by apply advance_range | done |].
  rewrite (advance_cases k) by done. revert Hd. case_cmp.
Qed.

Lemma slots_from_snoc k (buf : list T) n : ∀ h,
  0 ≤ k < 64 → 0 ≤ h < 2 ^ k →
  slots_from T_init buf (2 ^ k - 1) h (S n)
  = slots_from T_init buf (2 ^ k - 1) h n
      ++ [slot T_init buf ((h + Z.of_nat n) mod 2 ^ k)].
Proof.
  induction n as [|n IH]; intros h Hk Hh.
  - simpl. rewrite Z.add_0_r, Z.mod_small by lia. done.
  - change (slots_from T_init buf (2 ^ k - 1) h (S (S n)))
      with (slot T_init buf h
              :: slots_from T_init buf (2 ^ k - 1) (advance (2 ^ k - 1) h) (S n)).
    rewrite IH by (done || by apply advance_range). simpl. do 3 f_equal.
    f_equal. unfold advance. rewrite land_mask, wrap64_mod_pow2 by lia.
    rewrite Zplus_mod_idemp_l. f_equal. lia.
Qed.

(** ** One call *)

Lemma try_push_full k (r : ring) x :
  wf k r → full r = true →
  try_push r x = (false, r) ∧ size r = 2 ^ k - 1.
Proof.
  intros Hwf Hfull. unfold try_push. unfold full in Hfull. rewrite Hfull.
  split; [done|]. rewrite (size_cases k r Hwf).
  destruct Hwf as (Hk & _ & Hm & _ & Hh & Ht).
  rewrite Hm, (advance_cases k) in Hfull by done. revert Hfull. case_cmp.
Qed.

Lemma try_push_room k (r : ring) x :
  wf k r → full r = false →
  ∃ r', try_push r x = (true, r') ∧ wf k r' ∧
        size r' = size r + 1 ∧ contents T_init r' = contents T_init r ++ [x] ∧
        head_ r' = head_ r.
Proof.
  intros Hwf Hfull. unfold try_push. unfold full in Hfull. rewrite Hfull.
  eexists. split; [done|].
  pose proof (size_cases k r Hwf) as Hsz.
  pose proof (wf_slot_in_range k r Hwf) as [_ Htl].
  destruct Hwf as (Hk & Hc & Hm & Hl & Hh & Ht).
  pose proof (advance_range k (tail_ r) Hk Ht) as Hadv.
  assert (wf k (mkRing (capacity_ r) (mask_ r)
                  (<[Z.to_nat (tail_ r):=x]> (buffer_ r)) (head_ r)
                  (advance (mask_ r) (tail_ r)))) as Hwf'.
  { unfold wf; simpl. rewrite length_insert, Hm. done. }
  pose proof (size_cases k _ Hwf') as Hsz'. simpl in Hsz'.
  assert (size (mkRing (capacity_ r) (mask_ r)
                  (<[Z.to_nat (tail_ r):=x]> (buffer_ r)) (head_ r)
                  (advance (mask_ r) (tail_ r))) = size r + 1) as Hstep.
  { rewrite Hsz', Hsz. rewrite Hm, (advance_cases k) in Hfull |- * by done.
    revert Hfull. case_cmp. }
  split; [done|]. split; [done|]. split; [|done].
  unfold contents. rewrite Hstep. simpl.
  assert (0 ≤ size r) as Hnn by (rewrite Hsz; case_cmp).
  replace (Z.to_nat (size r + 1)) with (S (Z.to_nat (size r))) by lia.
  rewrite Hm, (slots_from_snoc k) by done.
  rewrite Z2Nat.id by done.
  assert ((head_ r + size r) mod 2 ^ k = tail_ r) as ->.
  { rewrite mod_pow2_cases by (try rewrite Hsz; case_cmp). rewrite Hsz. case_cmp. }
  rewrite slot_insert_eq by done.
  rewrite (slots_from_insert_ahead k); try done.
  rewrite Z2Nat.id by done. rewrite Hsz. case_cmp.
Qed.

Lemma try_pop_empty (r : ring) :
  empty r = true → try_pop T_init r = (None, r).
Proof. intros He. unfold try_pop. unfold empty in He. by rewrite He. Qed.

Lemma empty_contents k (r : ring) :
  wf k r → empty r = true → size r = 0 ∧ contents T_init r = [].
Proof.
  intros Hwf He. unfold empty in He. apply Z.eqb_eq in He.
  assert (size r = 0) as Hz.
  { rewrite (size_cases k r Hwf). rewrite He. case_cmp. }
  split; [done|]. unfold contents. by rewrite Hz.
Qed.

Lemma try_pop_item k (r : ring) :
  wf k r → empty r = false →
  ∃ v r', try_pop T_init r = (Some v, r') ∧ wf k r' ∧
          size r' = size r - 1 ∧ contents T_init r = v :: contents T_init r' ∧
          tail_ r' = tail_ r ∧ buffer_ r' = buffer_ r.
Proof.
  intros Hwf He. unfold try_pop. unfold empty in He. rewrite He.
  do 2 eexists. split; [done|].
  pose proof (size_cases k r Hwf) as Hsz.
  destruct Hwf as (Hk & Hc & Hm & Hl & Hh & Ht).
  pose proof (advance_range k (head_ r) Hk Hh) as Hadv.
  assert (wf k (mkRing (capacity_ r) (mask_ r) (buffer_ r)
                  (advance (mask_ r) (head_ r)) (tail_ r))) as Hwf'.
  { unfold wf; simpl. rewrite Hm. done. }
  pose proof (size_cases k _ Hwf') as Hsz'. simpl in Hsz'.
  assert (size (mkRing (capacity_ r) (mask_ r) (buffer_ r)
                  (advance (mask_ r) (head_ r)) (tail_ r)) = size r - 1) as Hstep.
  { rewrite Hsz', Hsz. rewrite Hm, (advance_cases k) by done.
    revert He. case_cmp. }
  split; [done|]. split; [done|]. split; [|done].
  unfold contents. rewrite Hstep. simpl.
  assert (0 < size r) as Hpos by (rewrite Hsz; revert He; case_cmp).
  replace (Z.to_nat (size r)) with (S (Z.to_nat (size r - 1))) by lia.
  done.
Qed.

Lemma empty_iff_size k (r : ring) :
  wf k r → (head_ r = tail_ r ↔ size r = 0) ∧ (empty r = true ↔ head_ r = tail_ r).
Proof.
  intros Hwf. rewrite (size_cases k r Hwf).
  destruct Hwf as (Hk & _ & _ & _ & Hh & Ht). unfold empty.
  split; [case_cmp | apply Z.eqb_eq].
Qed.

Lemma full_iff_size k (r : ring) :
  wf k r →
  (advance (mask_ r) (tail_ r) = head_ r ↔ size r = 2 ^ k - 1) ∧
  (full r = true ↔ advance (mask_ r) (tail_ r) = head_ r).
Proof.
  intros Hwf. rewrite (size_cases k r Hwf).
  destruct Hwf as (Hk & _ & Hm & _ & Hh & Ht). unfold full.
  split; [|apply Z.eqb_eq].
  rewrite Hm, (advance_cases k) by done. case_cmp.
Qed.

(** ** Runs *)

Lemma run_fifo k ops : ∀ r : ring,
  wf k r →
  ∃ pushed popped r',
    run T_init r ops = (pushed, popped, r') ∧ wf k r' ∧
    contents T_init r ++ pushed = popped ++ contents T_init r'.
Proof.
  induction ops as [|[x|] ops IH]; intros r Hwf; simpl.
  - exists [], [], r. by rewrite app_nil_r.
  - destruct (full r) eqn:Hf.
    + destruct (try_push_full k r x Hwf Hf) as [-> _].
      destruct (IH r Hwf) as (pushed & popped & r' & -> & Hwf' & Heq). eauto 10.
    + destruct (try_push_room k r x Hwf Hf) as (r1 & -> & Hwf1 & _ & Hc & _).
      destruct (IH r1 Hwf1) as (pushed & popped & r' & -> & Hwf' & Heq).
      exists (x :: pushed), popped, r'. split; [done|]. split; [done|].
      rewrite <- Heq, Hc, <- app_assoc. done.
  - destruct (empty r) eqn:He.
    + rewrite (try_pop_empty r He).
      destruct (IH r Hwf) as (pushed & popped & r' & -> & Hwf' & Heq). eauto 10.
    + destruct (try_pop_item k r Hwf He) as (v & r1 & -> & Hwf1 & _ & Hc & _).
      destruct (IH r1 Hwf1) as (pushed & popped & r' & -> & Hwf' & Heq).
      exists pushed, (v :: popped), r'. split; [done|]. split; [done|].
      rewrite Hc. simpl. by rewrite Heq.
Qed.

(** A run made of two parts runs the second on the ring the first leaves. *)
Lemma run_app ops1 ops2 : ∀ r : ring,
  run T_init r (ops1 ++ ops2)
  = let '(pushed1, popped1, r1) := run T_init r ops1 in
    let '(pushed2, popped2, r2) := run T_init r1 ops2 in
    (pushed1 ++ pushed2, popped1 ++ popped2, r2).
Proof.
  induction ops1 as [|[x|] ops1 IH]; intros r; simpl.
  - by destruct (run T_init r ops2) as [[pushed popped] r2].
  - destruct (try_push r x) as [ok r1]. rewrite IH.
    destruct (run T_init r1 ops1) as [[pushed1 popped1] r2].
    destruct (run T_init r2 ops2) as [[pushed2 popped2] r3]. by destruct ok.
  - destruct (try_pop T_init r) as [got r1]. rewrite IH.
    destruct (run T_init r1 ops1) as [[pushed1 popped1] r2].
    destruct (run T_init r2 ops2) as [[pushed2 popped2] r3]. by destruct got.
Qed.

(** Popping at least [size()] times hands out the queued items, oldest
    first, and leaves the ring empty. *)
Lemma run_drain k (n : nat) : ∀ r : ring,
  wf k r → size r ≤ Z.of_nat n →
  ∃ r', run T_init r (replicate n Pop) = ([], contents T_init r, r') ∧
        wf k r' ∧ empty r' = true.
Proof.
  induction n as [|n IH]; intros r Hwf Hn; simpl.
  - pose proof (size_range k r Hwf) as Hs.
    destruct (empty_iff_size k r Hwf) as [He1 He2].
    assert (empty r = true) as He by (apply He2, He1; lia).
    destruct (empty_contents k r Hwf He) as [_ ->]. by exists r.
  - destruct (empty r) eqn:He.
    + rewrite (try_pop_empty r He).
      destruct (empty_contents k r Hwf He) as [Hz Hc].
      destruct (IH r Hwf) as (r' & -> & Hwf' & He'); [lia|].
      exists r'. by rewrite Hc.
    + destruct (try_pop_item k r Hwf He) as (v & r1 & -> & Hwf1 & Hs & Hc & _).
      destruct (IH r1 Hwf1) as (r' & -> & Hwf' & He'); [lia|].
      exists r'. by rewrite Hc.
Qed.

(** C4: in every sequential run of [try_push] and [try_pop] calls on a
    ring built with a power-of-two capacity, the items handed out by the
    successful pops are, in order, a prefix of the items of the successful
    pushes, and the rest are exactly the ring's contents, oldest first: nothing
    is lost, duplicated or reordered. The two sequences are equal when the run
    ends on an empty ring, and popping [size()] times or more at the end of
    any run hands out the queued items and makes them equal. *)
Theorem ring_fifo (k : Z) (ops : list (Op T)) :
  0 ≤ k < 64 →
  ∃ pushed popped r',
    run T_init (make T_init (2 ^ k)) ops = (pushed, popped, r') ∧
    pushed = popped ++ contents T_init r' ∧
    (empty r' = true → popped = pushed) ∧
    ∀ n : nat, size r' ≤ Z.of_nat n →
      ∃ r'', run T_init r' (replicate n Pop) = ([], contents T_init r', r'') ∧
             empty r'' = true ∧
             run T_init (make T_init (2 ^ k)) (ops ++ replicate n Pop)
             = (pushed, pushed, r'').
Proof.
  intros Hk.
  destruct (run_fifo k ops _ (make_wf k Hk))
    as (pushed & popped & r' & Hrun & Hwf' & Heq).
  exists pushed, popped, r'. split; [done|].
  assert (contents T_init (make T_init (2 ^ k)) = []) as Hnil.
  { unfold contents. by rewrite (make_size k Hk). }
  rewrite Hnil in Heq. simpl in Heq. split; [done|]. split.
  { intros He. destruct (empty_contents k r' Hwf' He) as [_ Hc].
    by rewrite Heq, Hc, app_nil_r. }
  intros n Hn. destruct (run_drain k n r' Hwf' Hn) as (r'' & Hd & _ & He).
  exists r''. split; [done|]. split; [done|].
  by rewrite run_app, Hrun, Hd, app_nil_r, Heq.
Qed.

Lemma push_all_room k items : ∀ r : ring,
  wf k r → size r + Z.of_nat (length items) ≤ 2 ^ k - 1 →
  ∃ r', push_all r items = (replicate (length items) true, r') ∧ wf k r' ∧
        size r' = size r + Z.of_nat (length items) ∧
        contents T_init r' = contents T_init r ++ items ∧
        head_ r' = head_ r.
Proof.
  induction items as [|x items IH]; intros r Hwf Hroom; simpl.
  - exists r. rewrite app_nil_r. split_and!; try done. lia.
  - simpl in Hroom. destruct (full r) eqn:Hf.
    { destruct (try_push_full k r x Hwf Hf) as [_ Hsz]. lia. }
    destruct (try_push_room k r x Hwf Hf) as (r1 & -> & Hwf1 & Hs1 & Hc1 & Hh1).
    destruct (IH r1 Hwf1) as (r' & -> & Hwf' & Hs' & Hc' & Hh'); [lia|].
    exists r'. split_and!; try done; try lia; try congruence.
    rewrite Hc', Hc1, <- app_assoc. done.
Qed.

(** C5: on a ring freshly built with capacity [C = 2^k], [C - 1] pushes in
    a row all return true and leave [size() = C - 1]; one more push returns
    false and leaves the whole ring (indices and slots) as it was. For any
    well-formed ring, [size() = 0] iff [head == tail] and [size() = C - 1]
    iff [((tail + 1) & mask) == head], which is the test [try_push] fails on. *)
Theorem ring_usable_capacity (k : Z) (items : list T) (x : T) :
  0 ≤ k < 64 →
  Z.of_nat (length items) = 2 ^ k - 1 →
  (∃ r, push_all (make T_init (2 ^ k)) items = (replicate (length items) true, r) ∧
        size r = 2 ^ k - 1 ∧ contents T_init r = items ∧
        full r = true ∧
        try_push r x = (false, r)) ∧
  (∀ r : ring, wf k r →
     (head_ r = tail_ r ↔ size r = 0) ∧
     (advance (mask_ r) (tail_ r) = head_ r ↔ size r = 2 ^ k - 1) ∧
     ((try_push r x).1 = false ↔ advance (mask_ r) (tail_ r) = head_ r) ∧
     ((try_pop T_init r).1 = None ↔ head_ r = tail_ r)).
Proof.
  intros Hk Hlen. split.
  - pose proof (make_wf k Hk) as Hwf. pose proof (make_size k Hk) as Hz.
    destruct (push_all_room k items _ Hwf) as (r & Hp & Hwf' & Hs & Hc & Hh);
      [lia|].
    exists r. split; [done|]. rewrite Hz in Hs.
    assert (size r = 2 ^ k - 1) as Hsz by lia. split; [done|].
    split. { rewrite Hc. unfold contents. by rewrite Hz. }
    destruct (full_iff_size k r Hwf') as [Hf1 Hf2].
    assert (full r = true) as Hf by (apply Hf2, Hf1, Hsz).
    split; [done|]. by apply (try_push_full k).
  - intros r Hwf.
    destruct (empty_iff_size k r Hwf) as [He1 He2].
    destruct (full_iff_size k r Hwf) as [Hf1 Hf2].
    split; [done|]. split; [done|]. split.
    + rewrite <- Hf2. unfold try_push, full.
      by destruct (advance (mask_ r) (tail_ r) =? head_ r).
    + rewrite <- He2. unfold try_pop, empty.
      by destruct (head_ r =? tail_ r).
Qed.

End Facts.

Lemma ring_fifo_witness :
  0 ≤ 2 < 64 ∧
  ∃ pushed popped r',
    run 0 (make 0 (2 ^ 2)) [Push 1; Push 2; Pop; Push 3; Push 4; Push 5; Pop]
    = (pushed, popped, r') ∧
    pushed = popped ++ contents 0 r' ∧ (empty r' = true → popped = pushed) ∧
    ∀ n : nat, size r' ≤ Z.of_nat n →
      ∃ r'', run 0 r' (replicate n Pop) = ([], contents 0 r', r'') ∧
             empty r'' = true ∧
             run 0 (make 0 (2 ^ 2))
               ([Push 1; Push 2; Pop; Push 3; Push 4; Push 5; Pop] ++ replicate n Pop)
             = (pushed, pushed, r'').
Proof.
  assert (0 ≤ 2 < 64) as Hk by lia. split; [exact Hk|].
  exact (ring_fifo 0 2 [Push 1; Push 2; Pop; Push 3; Push 4; Push 5; Pop] Hk).
Defined.

(** C4, as stated, fails for a run that stops while items are queued: after
    one push and no pop the pushed sequence is [1] and the popped one is
    empty; the item is the ring's content. *)
Lemma pushed_item_still_queued :
  run 0 (make 0 4) [Push 1] = ([1], [], mkRing 4 3 [1; 0; 0; 0] 0 1) ∧
  (run 0 (make 0 4) [Push 1]).1.2 ≠ (run 0 (make 0 4) [Push 1]).1.1 ∧
  contents 0 (run 0 (make 0 4) [Push 1]).2 = [1].
Proof.
  split; [reflexivity|]. split; [discriminate | reflexivity].
Qed.

Lemma ring_usable_capacity_witness :
  0 ≤ 2 < 64 ∧ Z.of_nat (length [10; 20; 30]) = 2 ^ 2 - 1 ∧
  ∃ r, push_all (make 0 (2 ^ 2)) [10; 20; 30] = ([true; true; true], r) ∧
       size r = 2 ^ 2 - 1 ∧ contents 0 r = [10; 20; 30] ∧
       full r = true ∧ try_push r 40 = (false, r).
Proof.
  assert (0 ≤ 2 < 64) as Hk by lia.
  assert (Z.of_nat (length [10; 20; 30]) = 2 ^ 2 - 1) as Hlen by reflexivity.
  split; [exact Hk|]. split; [exact Hlen|].
  exact (proj1 (ring_usable_capacity 0 2 [10; 20; 30] 40 Hk Hlen)).
Defined.

(** The runs of [test_ring_buffer.cpp]: [BasicOperations] and [FullBuffer]. *)
Example test_basic_operations :
  run 0 (make 0 4) [Push 1; Push 2; Push 3; Pop; Pop; Pop; Pop]
  = ([1; 2; 3], [1; 2; 3], mkRing 4 3 [1; 2; 3; 0] 3 3).
Proof. reflexivity. Qed.

Example test_full_buffer :
  run 0 (make 0 4) [Push 1; Push 2; Push 3; Push 4; Pop; Push 4]
  = ([1; 2; 3; 4], [1], mkRing 4 3 [1; 2; 3; 4] 1 0).
Proof. reflexivity. Qed.

End RingFacts.

(** * Facts about the decoder *)

Module FeedFacts.
Import Feed.

Lemma next_fuel_unfold fuel clock d ticks :
  next_fuel fuel clock d ticks =
  if negb (has_next d) then (Event_default, d, ticks)
  else if current_pos_ d >=? file_size_ d then (Event_default, d, ticks)
  else
    match tag_of (byte_at (mapped_data_ d) (current_pos_ d)) with
    | Some T =>
        match read_message T d with
        | Some (p, d') => (mkEvent (event_type_of T) p (clock ticks), d', S ticks)
        | None => (Event_default, d, S ticks)
        end
    | None =>
        match fuel with
        | S fuel' =>
            next_fuel fuel' clock (set_pos d (wrap64 (current_pos_ d + 1))) (S ticks)
        | O => (Event_default, d, S ticks)
        end
    end.
Proof. by destruct fuel. Qed.

Lemma sizeof_range T : 17 ≤ sizeof T ≤ 36.
Proof. destruct T; cbv; split; congruence. Qed.

Lemma wf_set_pos d pos :
  wf d → 0 ≤ pos ≤ file_size_ d → wf (set_pos d pos).
Proof. intros (Hs & Hb & Hp) Hpos. unfold wf; simpl. done. Qed.

Lemma wf_open contents d :
  Z.of_nat (length contents) < 2 ^ 63 →
  Decoder_open contents = Some d →
  wf d ∧ current_pos_ d = 0 ∧ mapped_data_ d = contents ∧ has_next d = true.
Proof.
  intros Hlen. unfold Decoder_open.
  destruct (Z.eqb_spec (Z.of_nat (length contents)) 0) as [|Hne]; [done|].
  intros [= <-]. unfold wf, has_next; simpl.
  split_and!; try done; try lia; try (apply Z.ltb_lt; lia).
Qed.

(** Once the fuel covers the bytes left, more fuel changes nothing. *)
Lemma next_fuel_enough clock fuel : ∀ d ticks,
  wf d →
  (Z.to_nat (file_size_ d - current_pos_ d) ≤ fuel)%nat →
  next_fuel fuel clock d ticks = next clock d ticks.
Proof.
  unfold next. induction fuel as [|fuel IH]; intros d ticks Hwf Hfuel.
  - by replace (Z.to_nat (file_size_ d - current_pos_ d)) with O by lia.
  - rewrite !(next_fuel_unfold _ clock d ticks).
    unfold has_next.
    destruct (Z.ltb_spec (current_pos_ d) (file_size_ d)) as [Hlt|Hge]; simpl; [|done].
    destruct (current_pos_ d >=? file_size_ d); [done|].
    destruct (tag_of _); [done|].
    destruct Hwf as (Hs & Hb & Hp).
    assert (wrap64 (current_pos_ d + 1) = current_pos_ d + 1) as Hw
      by (apply wrap64_small; lia).
    destruct (Z.to_nat (file_size_ d - current_pos_ d)) as [|n] eqn:Hn; [lia|].
    rewrite Hw.
    assert (wf (set_pos d (current_pos_ d + 1))) as Hwf'
      by (apply wf_set_pos; [done | lia]).
    rewrite IH by (done || simpl; lia).
    f_equal. simpl. lia.
Qed.

(** Unknown tag: one byte is skipped and decoding starts over there. *)
Lemma next_unknown_tag clock d ticks :
  wf d → has_next d = true →
  tag_of (byte_at (mapped_data_ d) (current_pos_ d)) = None →
  next clock d ticks = next clock (set_pos d (current_pos_ d + 1)) (S ticks).
Proof.
  intros Hwf Hn Htag. unfold has_next in Hn. apply Z.ltb_lt in Hn.
  pose proof Hwf as (Hs & Hb & Hp).
  unfold next at 1. rewrite next_fuel_unfold. unfold has_next.
  destruct (Z.ltb_spec (current_pos_ d) (file_size_ d)); [|lia]. simpl.
  destruct (Z.geb_spec (current_pos_ d) (file_size_ d)); [lia|].
  rewrite Htag, wrap64_small by lia.
  destruct (Z.to_nat (file_size_ d - current_pos_ d)) as [|n] eqn:Hfuel; [lia|].
  apply next_fuel_enough; [apply wf_set_pos; [done | lia] | simpl; lia].
Qed.

(** A known tag whose record [read_message] turns down: [Invalid], and the
    decoder is left where it was. *)
Lemma next_read_fails clock d ticks T :
  has_next d = true →
  tag_of (byte_at (mapped_data_ d) (current_pos_ d)) = Some T →
  read_message T d = None →
  next clock d ticks = (Event_default, d, S ticks).
Proof.
  intros Hn Htag Hread. unfold next. rewrite next_fuel_unfold, Hn. simpl.
  unfold has_next in Hn. apply Z.ltb_lt in Hn.
  destruct (Z.geb_spec (current_pos_ d) (file_size_ d)); [lia|].
  by rewrite Htag, Hread.
Qed.

Lemma read_message_truncated d T :
  wf d → current_pos_ d + sizeof T > file_size_ d → read_message T d = None.
Proof.
  intros (Hs & Hb & Hp) Hlen. unfold read_message.
  pose proof (sizeof_range T). rewrite wrap64_small by lia.
  destruct (Z.gtb_spec (current_pos_ d + sizeof T) (file_size_ d)); [done|lia].
Qed.

Lemma validate_fails T bs : fails_validation T bs → validate T bs = None.
Proof.
  destruct T; simpl.
  - intros [[HB HS]|Hq].
    + destruct (Byte.eqb _ "B") eqn:E1; [by apply byte_dec_bl in E1|].
      destruct (Byte.eqb _ "S") eqn:E2; [by apply byte_dec_bl in E2|]. done.
    + rewrite Hq. simpl. by destruct (negb _ && negb _).
  - by intros ->.
  - by intros ->.
  - done.
Qed.

Lemma read_message_invalid d T :
  fails_validation T (bytes_at (mapped_data_ d) (current_pos_ d) (sizeof T)) →
  read_message T d = None.
Proof.
  intros Hv. unfold read_message. rewrite (validate_fails _ _ Hv).
  by destruct (_ >? _).
Qed.

(** C6: with the cursor on a byte that is none of 'A', 'U', 'E', 'D', [next]
    moves the cursor on by exactly one byte and returns what decoding from
    there returns; with the cursor on a known tag [t] and fewer than [L(t)]
    bytes left, [next] returns an [Invalid] event and the cursor stays. *)
Theorem next_resync_and_truncation (clock : nat → Z) (d : Decoder) (ticks : nat) :
  wf d → has_next d = true →
  (tag_of (byte_at (mapped_data_ d) (current_pos_ d)) = None →
   position (set_pos d (current_pos_ d + 1)) = position d + 1 ∧
   next clock d ticks = next clock (set_pos d (current_pos_ d + 1)) (S ticks)) ∧
  (∀ T, tag_of (byte_at (mapped_data_ d) (current_pos_ d)) = Some T →
        current_pos_ d + sizeof T > file_size_ d →
        ∃ e d', next clock d ticks = (e, d', S ticks) ∧
                type e = INVALID ∧ d' = d ∧ position d' = position d).
Proof.
  intros Hwf Hn. split.
  - intros Htag. split; [done|]. by apply next_unknown_tag.
  - intros T Htag Hlen. exists Event_default, d.
    split; [|done]. apply (next_read_fails _ _ _ T); try done.
    by apply read_message_truncated.
Qed.

Lemma next_resync_and_truncation_witness :
  let d := mkDecoder noisy_feed 18 0 in
  let short := mkDecoder (take 10 delete_record) 10 0 in
  wf d ∧ has_next d = true ∧
  next sample_clock d 0 = next sample_clock (set_pos d 1) 1 ∧
  next sample_clock d 0
  = (mkEvent DELETE_ORDER (payload_delete_order (DeleteOrderMsg.mk "D" 3 1)) 1001,
     set_pos d 18, 2%nat) ∧
  ∃ e d', next sample_clock short 0 = (e, d', 1%nat) ∧
          type e = INVALID ∧ d' = short ∧ position d' = position short.
Proof.
  assert (wf (mkDecoder noisy_feed 18 0)) as Hwf
    by (unfold wf; simpl; lia).
  assert (wf (mkDecoder (take 10 delete_record) 10 0)) as Hwf'
    by (unfold wf; simpl; lia).
  split; [exact Hwf|]. split; [reflexivity|].
  split.
  - exact (proj2 (proj1 (next_resync_and_truncation sample_clock
                           (mkDecoder noisy_feed 18 0) 0 Hwf eq_refl) eq_refl)).
  - split; [reflexivity|].
    apply (proj2 (next_resync_and_truncation sample_clock
                    (mkDecoder (take 10 delete_record) 10 0) 0 Hwf' eq_refl)
             KDelete eq_refl).
    reflexivity.
Defined.

(** ** Records that fail validation *)

Lemma next_n_stuck clock d T :
  has_next d = true →
  tag_of (byte_at (mapped_data_ d) (current_pos_ d)) = Some T →
  read_message T d = None →
  ∀ n ticks,
    next_n n clock d ticks = (replicate n Event_default, d, (ticks + n)%nat).
Proof.
  intros Hn Htag Hread. induction n as [|n IH]; intros ticks; simpl.
  - by rewrite Nat.add_0_r.
  - rewrite (next_read_fails clock d ticks T Hn Htag Hread), IH.
    f_equal. lia.
Qed.

(** C10: with the cursor on a known tag whose whole record lies inside the
    mapping but fails the per-type validation, [next] returns an [Invalid]
    event and leaves the cursor where it is; so does every later call, and
    [has_next] stays true: the decoder never gets past the record. *)
Theorem next_stuck_on_invalid_record (clock : nat → Z) (d : Decoder) (ticks : nat)
    (T : MsgKind) :
  has_next d = true →
  tag_of (byte_at (mapped_data_ d) (current_pos_ d)) = Some T →
  current_pos_ d + sizeof T ≤ file_size_ d →
  fails_validation T (bytes_at (mapped_data_ d) (current_pos_ d) (sizeof T)) →
  (∃ e d', next clock d ticks = (e, d', S ticks) ∧
           type e = INVALID ∧ position d' = position d ∧ d' = d) ∧
  (∀ n, ∃ es d',
     next_n n clock d ticks = (es, d', (ticks + n)%nat) ∧
     length es = n ∧ (∀ e, e ∈ es → type e = INVALID) ∧
     position d' = position d ∧ has_next d' = true).
Proof.
  intros Hn Htag Hfit Hbad.
  pose proof (read_message_invalid d T Hbad) as Hread. split.
  - exists Event_default, d. split; [|done]. by apply (next_read_fails _ _ _ T).
  - intros n. exists (replicate n Event_default), d.
    split; [by apply (next_n_stuck clock d T)|].
    split; [apply length_replicate|]. split; [|done].
    by intros e [-> _]%elem_of_replicate.
Qed.

Lemma next_stuck_on_invalid_record_witness :
  let d := mkDecoder (delete_record ++ bad_side_add_record ++ delete_record) 70 17 in
  has_next d = true ∧
  tag_of (byte_at (mapped_data_ d) (current_pos_ d)) = Some KAdd ∧
  current_pos_ d + sizeof KAdd ≤ file_size_ d ∧
  ∃ es d', next_n 3 sample_clock d 0 = (es, d', 3%nat) ∧
           length es = 3%nat ∧ (∀ e, e ∈ es → type e = INVALID) ∧
           position d' = position d ∧ has_next d' = true.
Proof.
  assert (17 + sizeof KAdd ≤ 70) as Hfit by (cbv; congruence).
  assert (fails_validation KAdd
            (bytes_at (delete_record ++ bad_side_add_record ++ delete_record)
               17 (sizeof KAdd))) as Hbad
    by (left; split; discriminate).
  split; [reflexivity|]. split; [reflexivity|]. split; [exact Hfit|].
  exact (proj2 (next_stuck_on_invalid_record sample_clock
                  (mkDecoder (delete_record ++ bad_side_add_record ++ delete_record)
                     70 17) 0 KAdd eq_refl eq_refl Hfit Hbad) 3%nat).
Defined.

(** ** Replaying after [reset] *)

(** [next] only ever changes the cursor. *)
Lemma next_fuel_frame clock fuel : ∀ d ticks,
  mapped_data_ (next_fuel fuel clock d ticks).1.2 = mapped_data_ d ∧
  file_size_ (next_fuel fuel clock d ticks).1.2 = file_size_ d.
Proof.
  induction fuel as [|fuel IH]; intros d ticks; rewrite next_fuel_unfold;
    destruct (negb (has_next d)); try done;
    destruct (current_pos_ d >=? file_size_ d); try done;
    (destruct (tag_of _) as [T|];
     [unfold read_message; destruct (_ >? _); [done|];
      by destruct (validate _ _)|]).
  - done.
  - destruct (IH (set_pos d (wrap64 (current_pos_ d + 1))) (S ticks)) as [-> ->].
    done.
Qed.

Lemma next_n_frame clock n : ∀ d ticks,
  mapped_data_ (next_n n clock d ticks).1.2 = mapped_data_ d ∧
  file_size_ (next_n n clock d ticks).1.2 = file_size_ d.
Proof.
  induction n as [|n IH]; intros d ticks; simpl; [done|].
  destruct (next clock d ticks) as [[e d1] t1] eqn:Hnext.
  destruct (next_n n clock d1 t1) as [[es d2] t2] eqn:Hrest. simpl.
  pose proof (IH d1 t1) as HI. rewrite Hrest in HI. simpl in HI.
  pose proof (next_fuel_frame clock (Z.to_nat (file_size_ d - current_pos_ d))
                d ticks) as HF.
  unfold next in Hnext. rewrite Hnext in HF. simpl in HF.
  destruct HI as [-> ->]. done.
Qed.

(** What [next] decodes and where it leaves the cursor depend neither on the
    clock nor on how often it was read. *)
Lemma next_fuel_untimed clock clock' fuel : ∀ d ticks ticks',
  untimed (next_fuel fuel clock d ticks).1.1
  = untimed (next_fuel fuel clock' d ticks').1.1 ∧
  (next_fuel fuel clock d ticks).1.2 = (next_fuel fuel clock' d ticks').1.2.
Proof.
  induction fuel as [|fuel IH]; intros d ticks ticks';
    rewrite !(next_fuel_unfold _ _ d);
    destruct (negb (has_next d)); try done;
    destruct (current_pos_ d >=? file_size_ d); try done;
    (destruct (tag_of _) as [T|]; [by destruct (read_message T d) as [[p d']|]|]).
  - done.
  - apply IH.
Qed.

Lemma next_n_untimed clock clock' n : ∀ d ticks ticks',
  untimed <$> (next_n n clock d ticks).1.1
  = untimed <$> (next_n n clock' d ticks').1.1 ∧
  (next_n n clock d ticks).1.2 = (next_n n clock' d ticks').1.2.
Proof.
  induction n as [|n IH]; intros d ticks ticks'; simpl; [done|].
  pose proof (next_fuel_untimed clock clock'
                (Z.to_nat (file_size_ d - current_pos_ d)) d ticks ticks') as HN.
  fold (next clock d ticks) in HN. fold (next clock' d ticks') in HN.
  destruct (next clock d ticks) as [[e d1] t1].
  destruct (next clock' d ticks') as [[e' d1'] t1']. simpl in HN.
  destruct HN as [He <-].
  pose proof (IH d1 t1 t1') as HI.
  destruct (next_n n clock d1 t1) as [[es d2] t2].
  destruct (next_n n clock' d1 t1') as [[es' d2'] t2']. simpl in *.
  destruct HI as [HI ->]. split; [|done]. f_equal; [exact He | exact HI].
Qed.

Lemma next_n_length clock n : ∀ d ticks,
  length (next_n n clock d ticks).1.1 = n.
Proof.
  induction n as [|n IH]; intros d ticks; simpl; [done|].
  destruct (next clock d ticks) as [[e d1] t1].
  pose proof (IH d1 t1) as HI.
  destruct (next_n n clock d1 t1) as [[es d2] t2]. simpl in *. by rewrite HI.
Qed.

(** C7, as amended: after any number of [next] calls, [reset] followed by
    [k] calls of [next] yields [k] events that agree, one by one and in order,
    with the [k] events decoded from initial construction in kind and in
    payload, and the cursor ends at the same place. The events' decode
    timestamps are whatever the clock read at each decode and are not part of
    the agreement. *)
Theorem reset_replays_untimed (contents : list byte) (clock : nat → Z)
    (d0 : Decoder) (m k : nat) :
  Decoder_open contents = Some d0 →
  let '(_, d1, t1) := next_n m clock d0 0 in
  let '(first, end0, _) := next_n k clock d0 0 in
  let '(again, end1, _) := next_n k clock (reset d1) t1 in
  length again = length first ∧
  untimed <$> again = untimed <$> first ∧
  position end1 = position end0.
Proof.
  intros Hopen.
  pose proof (next_n_frame clock m d0 0%nat) as HF.
  destruct (next_n m clock d0 0) as [[es d1] t1]. simpl in HF.
  assert (reset d1 = d0) as ->.
  { unfold Decoder_open in Hopen. destruct (_ =? 0); [done|].
    injection Hopen as <-. unfold reset, set_pos. destruct HF as [-> ->]. done. }
  pose proof (next_n_untimed clock clock k d0 t1 0%nat) as HU.
  pose proof (next_n_length clock k d0 t1) as HL1.
  pose proof (next_n_length clock k d0 0%nat) as HL0.
  destruct (next_n k clock d0 0) as [[first end0] t0].
  destruct (next_n k clock d0 t1) as [[again end1] t2]. simpl in *.
  destruct HU as [-> ->]. split; [congruence|done].
Qed.

Lemma reset_replays_untimed_witness :
  Decoder_open noisy_feed = Some (mkDecoder noisy_feed 18 0) ∧
  let '(_, d1, t1) := next_n 1 sample_clock (mkDecoder noisy_feed 18 0) 0 in
  let '(first, end0, _) := next_n 2 sample_clock (mkDecoder noisy_feed 18 0) 0 in
  let '(again, end1, _) := next_n 2 sample_clock (reset d1) t1 in
  length again = length first ∧
  untimed <$> again = untimed <$> first ∧
  position end1 = position end0.
Proof.
  split; [reflexivity|].
  exact (reset_replays_untimed noisy_feed sample_clock
           (mkDecoder noisy_feed 18 0) 1 2 eq_refl).
Defined.

(** C7, as stated, fails: the replayed event carries the clock reading of
    its own decode. On a feed of one Delete record, the event decoded after
    construction is stamped 1000 and the one decoded after [reset] 1001. *)
Lemma reset_replay_not_identical :
  Decoder_open delete_record = Some (mkDecoder delete_record 17 0) ∧
  next_n 1 sample_clock (mkDecoder delete_record 17 0) 0
  = ([mkEvent DELETE_ORDER (payload_delete_order (DeleteOrderMsg.mk "D" 3 1)) 1000],
     mkDecoder delete_record 17 17, 1%nat) ∧
  next_n 1 sample_clock (reset (mkDecoder delete_record 17 17)) 1
  = ([mkEvent DELETE_ORDER (payload_delete_order (DeleteOrderMsg.mk "D" 3 1)) 1001],
     mkDecoder delete_record 17 17, 2%nat) ∧
  (next_n 1 sample_clock (reset (mkDecoder delete_record 17 17)) 1).1.1
  ≠ (next_n 1 sample_clock (mkDecoder delete_record 17 0) 0).1.1.
Proof.
  split; [reflexivity|]. split; [reflexivity|]. split; [reflexivity|].
  discriminate.
Qed.

(** ** Decoding the records of the tests *)

Example test_add_order_message :
  let d := mkDecoder test_add_record 36 0 in
  Decoder_open test_add_record = Some d ∧
  next sample_clock d 0
  = (mkEvent ADD_ORDER
       (payload_add
          (AddOrderMsg.mk "A" 1234567890 12345 (list_byte_of_string "AAPL  ") "B"
             150000000000 100)) 1000,
     set_pos d 36, 1%nat) ∧
  has_next (set_pos d 36) = false.
Proof. by vm_compute. Qed.

Example test_multiple_messages :
  let contents := test_add_record ++ test_modify_record ++ delete_record in
  let d := mkDecoder contents 82 0 in
  Decoder_open contents = Some d ∧
  next_n 4 sample_clock d 0
  = ([mkEvent ADD_ORDER
        (payload_add
           (AddOrderMsg.mk "A" 1234567890 12345 (list_byte_of_string "AAPL  ") "B"
              150000000000 100)) 1000;
      mkEvent MODIFY_ORDER
        (payload_modify (ModifyOrderMsg.mk "U" 1234567891 12345 (-151000000000) 150))
        1001;
      mkEvent DELETE_ORDER (payload_delete_order (DeleteOrderMsg.mk "D" 3 1)) 1002;
      Event_default],
     set_pos d 82, 3%nat).
Proof. by vm_compute. Qed.

Example test_incomplete_message :
  let d := mkDecoder ["A"%byte] 1 0 in
  next sample_clock d 0 = (Event_default, d, 1%nat) ∧ has_next d = true.
Proof. by vm_compute. Qed.

Example test_invalid_message_type :
  let d := mkDecoder ("X"%byte :: replicate 9 "000"%byte) 10 0 in
  next sample_clock d 0 = (Event_default, set_pos d 10, 10%nat).
Proof. by vm_compute. Qed.

End FeedFacts.

(** * Facts about [Symbol] *)

Module SymbolFacts.
Import Feed.

Lemma strlen_no_nul (s : list byte) :
  Forall (λ b, b ≠ "000"%byte) s → strlen s = length s.
Proof.
  induction 1 as [|b s Hb _ IH]; simpl; [done|].
  destruct (Byte.eqb b "000") eqn:E; [by apply byte_dec_bl in E|]. by rewrite IH.
Qed.

(** The constructor keeps at most the first five bytes. *)
Lemma Symbol_of_data (s : list byte) :
  Forall (λ b, b ≠ "000"%byte) s →
  data (Symbol_of s)
  = take 5 s ++ replicate (6 - length (take 5 s)) " "%byte.
Proof.
  intros Hs. unfold Symbol_of. rewrite (strlen_no_nul s Hs). simpl.
  rewrite length_take.
  destruct (Z.gtb_spec (Z.of_nat (length s)) 5) as [Hgt|Hle].
  - change (Z.to_nat 5) with 5%nat.
    replace (5 `min` length s)%nat with 5%nat by lia. done.
  - rewrite Nat2Z.id. rewrite (take_ge s 5) by lia.
    rewrite (take_ge s (length s)) by lia.
    replace (5 `min` length s)%nat with (length s) by lia.
    f_equal. change [" "; " "; " "; " "; " "; " "]%byte with (replicate 6 " "%byte).
    by rewrite drop_replicate.
Qed.

Lemma Symbol_of_length (s : list byte) :
  Forall (λ b, b ≠ "000"%byte) s → length (data (Symbol_of s)) = 6%nat.
Proof.
  intros Hs. rewrite (Symbol_of_data s Hs), length_app, length_replicate.
  rewrite length_take. lia.
Qed.

Lemma last_not_of_rev_spaces n rs :
  last_not_of_rev (replicate n " "%byte ++ rs) " " = last_not_of_rev rs " ".
Proof. induction n as [|n IH]; simpl; done. Qed.

Lemma find_last_not_of_padded (s : list byte) n :
  last s ≠ Some " "%byte →
  find_last_not_of (s ++ replicate n " "%byte) " "
  = if decide (s = []) then npos else Z.of_nat (length s) - 1.
Proof.
  intros Hlast. unfold find_last_not_of.
  rewrite reverse_app, reverse_replicate, last_not_of_rev_spaces.
  destruct s as [|b s _] using rev_ind; [done|].
  rewrite reverse_snoc. simpl. rewrite last_snoc in Hlast.
  destruct (Byte.eqb b " ") eqn:E; [apply byte_dec_bl in E; congruence|].
  rewrite length_reverse, length_app. simpl.
  destruct (decide (s ++ [b] = [])) as [Heq|_]; [by destruct s|]. lia.
Qed.

Lemma byte_to_N_inj (x y : byte) : Byte.to_N x = Byte.to_N y → x = y.
Proof.
  intros H. pose proof (Byte.of_to_N x) as Hx. rewrite H, Byte.of_to_N in Hx.
  congruence.
Qed.

Lemma memcmp_zero_iff n : ∀ a b : list byte,
  length a = n → length b = n → memcmp a b n = 0 ↔ a = b.
Proof.
  induction n as [|n IH]; intros [|x a] [|y b] Ha Hb; simpl in *; try done.
  destruct (Byte.eqb x y) eqn:E.
  - apply byte_dec_bl in E as ->. rewrite IH by lia. split; congruence.
  - apply Byte.eqb_false in E. split.
    + intros H0. destruct E. apply byte_to_N_inj. lia.
    + congruence.
Qed.

(** C8, as amended: for a string [s] of at most 5 bytes with no trailing
    space, [Symbol(s)] stores [s] padded with spaces to 6 bytes and
    [to_string()] gives [s] back; whatever its length, the constructor keeps
    only the first 5 bytes of [s]; and two symbols compare equal iff their 6
    stored bytes are equal. *)
Theorem symbol_round_trip (s : list byte) :
  Forall (λ b, b ≠ "000"%byte) s →
  (length s ≤ 5)%nat →
  last s ≠ Some " "%byte →
  data (Symbol_of s) = s ++ replicate (6 - length s) " "%byte ∧
  length (data (Symbol_of s)) = 6%nat ∧
  to_string (Symbol_of s) = s ∧
  (∀ long : list byte,
     Forall (λ b, b ≠ "000"%byte) long →
     data (Symbol_of long)
     = take 5 long ++ replicate (6 - length (take 5 long)) " "%byte) ∧
  (∀ a b : Symbol,
     length (data a) = 6%nat → length (data b) = 6%nat →
     (Symbol_eq a b = true ↔ data a = data b)).
Proof.
  intros Hs Hlen Hlast.
  assert (data (Symbol_of s) = s ++ replicate (6 - length s) " "%byte) as Hdata.
  { rewrite (Symbol_of_data s Hs), take_ge by lia. done. }
  split; [done|]. split; [by apply Symbol_of_length|].
  split; [|split; [apply Symbol_of_data|]].
  - unfold to_string. rewrite Hdata.
    rewrite (take_ge (s ++ _) 6) by (rewrite length_app, length_replicate; lia).
    rewrite find_last_not_of_padded by done.
    destruct (decide (s = [])) as [->|Hne].
    + done.
    + rewrite wrap64_small.
      * replace (Z.to_nat (Z.of_nat (length s) - 1 + 1)) with (length s) by lia.
        by rewrite take_app_length.
      * assert (2 ^ 64 = 18446744073709551616) as -> by reflexivity. lia.
  - intros a b Ha Hb. unfold Symbol_eq. rewrite Z.eqb_eq.
    by apply memcmp_zero_iff.
Qed.

Lemma symbol_round_trip_witness :
  let s := list_byte_of_string "GOOGL" in
  Forall (λ b, b ≠ "000"%byte) s ∧ (length s ≤ 5)%nat ∧ last s ≠ Some " "%byte ∧
  data (Symbol_of s) = list_byte_of_string "GOOGL " ∧
  to_string (Symbol_of s) = s.
Proof.
  assert (Forall (λ b, b ≠ "000"%byte) (list_byte_of_string "GOOGL")) as Hs
    by (repeat constructor; discriminate).
  assert (length (list_byte_of_string "GOOGL") ≤ 5)%nat as Hlen by (simpl; lia).
  assert (last (list_byte_of_string "GOOGL") ≠ Some " "%byte) as Hlast
    by discriminate.
  pose proof (symbol_round_trip (list_byte_of_string "GOOGL") Hs Hlen Hlast)
    as (Hdata & _ & Hstr & _).
  split; [exact Hs|]. split; [exact Hlen|]. split; [exact Hlast|].
  split; [exact Hdata | exact Hstr].
Defined.

(** C8, as stated, fails at length 6: "GOOGLE" has six characters, none of
    them a space, yet the constructor stores "GOOGL " and [to_string] returns
    "GOOGL". *)
Lemma symbol_six_chars_truncated :
  let s := list_byte_of_string "GOOGLE" in
  Forall (λ b, b ≠ "000"%byte) s ∧ (length s ≤ 6)%nat ∧ last s ≠ Some " "%byte ∧
  data (Symbol_of s) = list_byte_of_string "GOOGL " ∧
  data (Symbol_of s) ≠ s ++ replicate (6 - length s) " "%byte ∧
  to_string (Symbol_of s) = list_byte_of_string "GOOGL" ∧
  to_string (Symbol_of s) ≠ s.
Proof.
  cbn zeta. split; [repeat constructor; discriminate|].
  split; [simpl; lia|]. split; [discriminate|].
  split; [reflexivity|]. split; [discriminate|].
  split; [reflexivity|discriminate].
Qed.

(** The cases of [test_messages.cpp], [SymbolConstruction]. *)
Example test_symbol_construction :
  to_string (Symbol_of (list_byte_of_string "AAPL")) = list_byte_of_string "AAPL" ∧
  to_string (Symbol_of (list_byte_of_string "A")) = list_byte_of_string "A" ∧
  to_string (Symbol_of (list_byte_of_string "TOOLONG")) = list_byte_of_string "TOOLO".
Proof. repeat split. Qed.

End SymbolFacts.


(** * Facts about the publisher *)

Module PublishFacts.
Import Publish.

(** ** Rounding to nearest *)

Lemma rne_spec n d : 0 < d → 2 * Z.abs (rne n d * d - n) ≤ d.
Proof.
  intros Hd. unfold rne.
  pose proof (Z.div_mod n d ltac:(lia)) as Hdm.
  pose proof (Z.mod_pos_bound n d Hd) as Hr.
  destruct (Z.compare_spec (2 * (n mod d)) d) as [He|Hl|Hg]; [|nia|nia].
  destruct (Z.even (n / d)); nia.
Qed.

Lemma rne_unique n d k : 0 < d → 2 * Z.abs (k * d - n) < d → rne n d = k.
Proof.
  intros Hd Hk. unfold rne.
  pose proof (Z.div_mod n d ltac:(lia)) as Hdm.
  pose proof (Z.mod_pos_bound n d Hd) as Hr.
  assert (k = n / d ∨ k = n / d + 1) as Hcases by nia.
  destruct (Z.compare_spec (2 * (n mod d)) d) as [He|Hl|Hg];
    destruct Hcases as [->| ->]; try done; try nia.
  all: destruct (Z.even (n / d)); nia.
Qed.

Lemma rne_divmod n d Q R :
  n = d * Q + R → 0 ≤ R < d →
  rne n d = match 2 * R ?= d with
            | Lt => Q
            | Eq => if Z.even Q then Q else Q + 1
            | Gt => Q + 1
            end.
Proof.
  intros Hn HR. unfold rne.
  rewrite <- (Z.div_unique_pos n d Q R HR Hn), <- (Z.mod_unique_pos n d Q R HR Hn).
  done.
Qed.

Lemma shr_1_nonneg m r s :
  0 ≤ m → shr_1 (Build_shr_record m r s) = Build_shr_record (m / 2) (Z.odd m) (r || s).
Proof.
  intros Hm. destruct m as [|[p|p|]|]; try lia; simpl shr_1; f_equal.
  - rewrite Pos2Z.inj_xI. apply (Z.div_unique_pos _ 2 _ 1); lia.
  - rewrite Pos2Z.inj_xO. apply (Z.div_unique_pos _ 2 _ 0); lia.
Qed.

Lemma round_new_location q d r :
  0 < d → 0 ≤ r < d →
  round_nearest_even q (new_location d r)
  = match 2 * r ?= d with
    | Lt => q
    | Eq => if Z.even q then q else q + 1
    | Gt => q + 1
    end.
Proof.
  intros Hd Hr. unfold new_location, new_location_even, new_location_odd.
  assert ((2 * 0 ?= d) = Lt) as H0 by (apply Z.compare_lt_iff; lia).
  destruct (Z.even d) eqn:Hev.
  - destruct (Z.eqb_spec r 0) as [->|Hnz]; cbn [round_nearest_even].
    + by rewrite H0.
    + by destruct (Z.compare_spec (2 * r) d).
  - assert (Z.odd d = true) as Hodd by (rewrite <- Z.negb_even, Hev; done).
    apply Z.odd_spec in Hodd as [k Hk].
    destruct (Z.eqb_spec r 0) as [->|Hnz]; cbn [round_nearest_even].
    + by rewrite H0.
    + destruct (Z.compare_spec (2 * r + 1) d);
        destruct (Z.compare_spec (2 * r) d); cbn [round_nearest_even];
        try lia; done.
Qed.

(** ** The library's conversion and division in closed form *)

Lemma digits2_pos_size p : digits2_pos p = Pos.size p.
Proof. induction p; simpl; congruence. Qed.

Lemma Zdigits2_log2 z : 0 < z → Zdigits2 z = Z.log2 z + 1.
Proof.
  destruct z as [|p|p]; try lia. intros _. simpl. rewrite digits2_pos_size.
  destruct p; simpl; lia.
Qed.

Lemma Zdigits2_53 z : 2 ^ 52 ≤ z < 2 ^ 53 → Zdigits2 z = 53.
Proof.
  intros H. rewrite Zdigits2_log2 by lia. rewrite (Z.log2_unique z 52); lia.
Qed.

Lemma fexp_normal e : -1074 ≤ e - 53 → fexp 53 1024 e = e - 53.
Proof. intros H. unfold fexp, emin. lia. Qed.

Lemma binary_round_aux_exact sx m e :
  2 ^ 52 ≤ Z.pos m < 2 ^ 53 → -1074 ≤ e ≤ 971 →
  binary_round_aux 53 1024 sx (Z.pos m) e loc_Exact = S754_finite sx m e.
Proof.
  intros Hm He. unfold binary_round_aux, shr_fexp.
  rewrite (Zdigits2_53 (Z.pos m)) by done.
  rewrite fexp_normal by lia.
  replace (53 + e - 53 - e) with 0 by lia.
  cbn [shr shr_record_of_loc shr_m loc_of_shr_record round_nearest_even].
  unfold shr_fexp.
  rewrite (Zdigits2_53 (Z.pos m)) by done.
  rewrite fexp_normal by lia.
  replace (53 + e - 53 - e) with 0 by lia.
  cbn [shr shr_record_of_loc shr_m].
  destruct (Z.leb_spec e (1024 - 53)); [done|lia].
Qed.

Lemma pos_iter_xO m d : Z.pos (Pos.iter xO m d) = Z.pos m * 2 ^ Z.pos d.
Proof.
  induction d using Pos.peano_ind.
  - simpl. lia.
  - rewrite Pos.iter_succ. rewrite Pos2Z.inj_xO, IHd, Pos2Z.inj_succ, Z.pow_succ_r by lia. lia.
Qed.

Lemma binary_normalize_exact z :
  z ≠ 0 → Z.abs z < 2 ^ 53 →
  binary_normalize 53 1024 z 0 false
  = S754_finite (z <? 0) (Z.to_pos (Z.abs z * 2 ^ (52 - Z.log2 (Z.abs z))))
      (Z.log2 (Z.abs z) - 52).
Proof.
  intros Hz Hlt.
  assert (forall (sx : bool) (p : positive), Z.pos p < 2 ^ 53 ->
            binary_round 53 1024 sx p 0
            = S754_finite sx (Z.to_pos (Z.pos p * 2 ^ (52 - Z.log2 (Z.pos p))))
                (Z.log2 (Z.pos p) - 52)) as Hround.
  { intros sx p Hp. unfold binary_round.
    pose proof (Z.log2_nonneg (Z.pos p)) as HL0.
    assert (Z.log2 (Z.pos p) < 53) as HL by (apply Z.log2_lt_pow2; lia).
    pose proof (Z.log2_spec (Z.pos p) ltac:(lia)) as [Hlo Hhi].
    fold (Zdigits2 (Z.pos p)). rewrite Zdigits2_log2 by lia.
    rewrite fexp_normal by lia.
    set (L := Z.log2 (Z.pos p)) in *.
    assert (2 ^ 52 = 2 ^ L * 2 ^ (52 - L)) as H52
      by (rewrite <- Z.pow_add_r by lia; f_equal; lia).
    assert (2 ^ 53 = 2 ^ Z.succ L * 2 ^ (52 - L)) as H53
      by (rewrite <- Z.pow_add_r by lia; f_equal; lia).
    assert (0 < 2 ^ (52 - L)) by (apply Z.pow_pos_nonneg; lia).
    unfold shl_align. replace (L + 1 + 0 - 53 - 0) with (L - 52) by lia.
    destruct (L - 52) as [|d|d] eqn:Hd; try lia.
    - replace (52 - L) with 0 by lia. rewrite Z.mul_1_r. simpl Z.to_pos.
      rewrite binary_round_aux_exact; [f_equal; lia | | lia].
      replace L with 52 in * by lia. lia.
    - replace (52 - L) with (Z.pos d) by lia.
      rewrite <- pos_iter_xO. simpl Z.to_pos.
      rewrite binary_round_aux_exact; [f_equal; lia | | lia].
      rewrite pos_iter_xO. replace (Z.pos d) with (52 - L) by lia. nia. }
  destruct z as [|p|p]; [done| |]; simpl binary_normalize.
  - apply Hround. lia.
  - change (Z.abs (Z.neg p)) with (Z.pos p). apply Hround. lia.
Qed.

Lemma floor_log2_mantissas n d :
  2 ^ 52 ≤ n < 2 ^ 53 → 2 ^ 52 ≤ d < 2 ^ 53 →
  floor_log2 n d = if d <=? n then 0 else -1.
Proof.
  intros Hn Hd. unfold floor_log2.
  rewrite (Z.log2_unique n 52), (Z.log2_unique d 52) by lia.
  change (52 - 52) with 0. change (0 <=? 0) with true. cbv iota.
  change (2 ^ 0) with 1. rewrite Z.mul_1_r. by destruct (d <=? n).
Qed.


Lemma shr_record_of_loc_m m l : shr_m (shr_record_of_loc m l) = m.
Proof. by destruct l as [|[]]. Qed.

Lemma loc_of_shr_record_of_loc m l : loc_of_shr_record (shr_record_of_loc m l) = l.
Proof. by destruct l as [|[]]. Qed.

Lemma new_location_exact d r :
  (new_location d r = loc_Exact) ↔ r = 0.
Proof.
  unfold new_location, new_location_even, new_location_odd.
  destruct (Z.even d); destruct (Z.eqb_spec r 0); split; try done.
Qed.

(** After the first rounding the significand has 53 bits, or is [2^53]. *)
Lemma second_stage s m e :
  2 ^ 52 ≤ m ≤ 2 ^ 53 → -1074 ≤ e ≤ 970 →
  (let '(mrs, e') := shr_fexp 53 1024 m e loc_Exact in
   match shr_m mrs with
   | Z0 => S754_zero s
   | Zpos p => if e' <=? 1024 - 53 then S754_finite s p e' else S754_infinity s
   | Zneg _ => S754_nan
   end)
  = if m =? 2 ^ 53 then S754_finite s (Z.to_pos (2 ^ 52)) (e + 1)
    else S754_finite s (Z.to_pos m) e.
Proof.
  intros Hm He. unfold shr_fexp.
  destruct (Z.eqb_spec m (2 ^ 53)) as [->|Hne].
  - change (Zdigits2 (2 ^ 53)) with 54. rewrite fexp_normal by lia.
    replace (54 + e - 53 - e) with 1 by lia.
    cbn [shr shr_record_of_loc SpecFloat.iter_pos].
    change (shr_1 {| shr_m := 2 ^ 53; shr_r := false; shr_s := false |})
      with {| shr_m := 2 ^ 52; shr_r := false; shr_s := false |}.
    cbn [shr_m]. change (2 ^ 52) with (Z.pos (Z.to_pos (2 ^ 52))) at 1.
    cbv iota. destruct (Z.leb_spec (e + 1) (1024 - 53)); [done|lia].
  - rewrite (Zdigits2_53 m) by lia. rewrite fexp_normal by lia.
    replace (53 + e - 53 - e) with 0 by lia.
    cbn [shr shr_record_of_loc shr_m].
    destruct m as [|p|p]; try lia.
    destruct (Z.leb_spec e (1024 - 53)); [done|lia].
Qed.

Lemma round_nearest_even_range q l :
  q ≤ round_nearest_even q l ≤ q + 1.
Proof. destruct l as [|[]]; simpl; try lia. destruct (Z.even q); lia. Qed.

Lemma binary_round_aux_53 s q e l :
  2 ^ 52 ≤ q < 2 ^ 53 → -1074 ≤ e ≤ 970 →
  binary_round_aux 53 1024 s q e l
  = if round_nearest_even q l =? 2 ^ 53
    then S754_finite s (Z.to_pos (2 ^ 52)) (e + 1)
    else S754_finite s (Z.to_pos (round_nearest_even q l)) e.
Proof.
  intros Hq He. unfold binary_round_aux.
  unfold shr_fexp at 1. rewrite (Zdigits2_53 q) by lia.
  rewrite fexp_normal by lia. replace (53 + e - 53 - e) with 0 by lia.
  cbn [shr]. rewrite shr_record_of_loc_m, loc_of_shr_record_of_loc.
  apply second_stage; [|lia].
  pose proof (round_nearest_even_range q l). lia.
Qed.

Lemma binary_round_aux_54 s q e l :
  2 ^ 53 ≤ q < 2 ^ 54 → -1074 ≤ e ≤ 969 →
  binary_round_aux 53 1024 s q e l
  = let m := round_nearest_even (q / 2)
               (loc_of_shr_record (shr_1 (shr_record_of_loc q l))) in
    if m =? 2 ^ 53
    then S754_finite s (Z.to_pos (2 ^ 52)) (e + 1 + 1)
    else S754_finite s (Z.to_pos m) (e + 1).
Proof.
  intros Hq He. unfold binary_round_aux.
  unfold shr_fexp at 1.
  assert (Zdigits2 q = 54) as ->.
  { rewrite Zdigits2_log2 by lia. rewrite (Z.log2_unique q 53); lia. }
  rewrite fexp_normal by lia. replace (54 + e - 53 - e) with 1 by lia.
  cbn [shr SpecFloat.iter_pos].
  assert (shr_m (shr_1 (shr_record_of_loc q l)) = q / 2) as ->.
  { destruct l as [|[]]; cbn [shr_record_of_loc]; by rewrite shr_1_nonneg by lia. }
  cbv zeta. apply second_stage; [|lia].
  pose proof (round_nearest_even_range (q / 2)
                (loc_of_shr_record (shr_1 (shr_record_of_loc q l)))) as Hr.
  assert (2 ^ 52 <= q / 2 < 2 ^ 53); [|lia].
  change (2 ^ 53) with (2 * 2 ^ 52) in Hq. change (2 ^ 54) with (2 * 2 ^ 53) in Hq.
  split; [apply Z.div_le_lower_bound | apply Z.div_lt_upper_bound]; lia.
Qed.

Lemma round_shifted q d r n :
  0 < d → 0 ≤ r < d → 0 ≤ q →
  2 * n = d * q + r →
  round_nearest_even (q / 2)
    (loc_of_shr_record (shr_1 (shr_record_of_loc q (new_location d r))))
  = rne n d.
Proof.
  intros Hd Hr Hq Hn.
  pose proof (Z.div_mod q 2 ltac:(lia)) as Hq2.
  pose proof (Z.mod_pos_bound q 2 ltac:(lia)) as Hb.
  set (Q := q / 2) in *.
  assert (Z.odd q = (q mod 2 =? 1)) as Hodd.
  { rewrite Zmod_odd. by destruct (Z.odd q). }
  rewrite (rne_divmod n d Q (n - d * Q)) by nia.
  pose proof (new_location_exact d r) as Hex.
  destruct (new_location d r) as [|c] eqn:Hloc; cbn [shr_record_of_loc].
  - assert (r = 0) as -> by (by apply Hex).
    rewrite shr_1_nonneg by lia. rewrite Hodd. cbn [orb].
    destruct (Z.eqb_spec (q mod 2) 1) as [H1|H1]; cbn [loc_of_shr_record round_nearest_even].
    + destruct (Z.compare_spec (2 * (n - d * Q)) d); try done; nia.
    + destruct (Z.compare_spec (2 * (n - d * Q)) d); try done; nia.
  - assert (r <> 0) as Hnz by (intros ->; by destruct Hex as [_ Hex]; specialize (Hex eq_refl)).
    assert (forall rb sb, rb || sb = true ->
              shr_1 (Build_shr_record q rb sb)
              = Build_shr_record Q (q mod 2 =? 1) true) as Hshr.
    { intros rb sb Hor. rewrite shr_1_nonneg by lia. by rewrite Hodd, Hor. }
    assert (shr_1 (match c with
                   | Eq => Build_shr_record q true false
                   | Lt => Build_shr_record q false true
                   | Gt => Build_shr_record q true true
                   end) = Build_shr_record Q (q mod 2 =? 1) true) as ->
      by (destruct c; by apply Hshr).
    destruct (Z.eqb_spec (q mod 2) 1) as [H1|H1]; cbn [loc_of_shr_record round_nearest_even].
    + destruct (Z.compare_spec (2 * (n - d * Q)) d); try done; nia.
    + destruct (Z.compare_spec (2 * (n - d * Q)) d); try done; nia.
Qed.

(** Division of two normal numbers: the Standard Library's [SFdiv] is
    [round_binary64]. *)
Lemma SFdiv_round_binary64 sx sy n d e1 e2 :
  2 ^ 52 ≤ Z.pos n < 2 ^ 53 → 2 ^ 52 ≤ Z.pos d < 2 ^ 53 →
  -1021 ≤ e1 - e2 ≤ 1021 →
  SFdiv 53 1024 (S754_finite sx n e1) (S754_finite sy d e2)
  = round_binary64 (xorb sx sy) (Z.pos n) (Z.pos d) (e1 - e2).
Proof.
  intros Hn Hd He. unfold SFdiv, SFdiv_core_binary.
  rewrite !Zdigits2_53 by done. rewrite fexp_normal by lia.
  rewrite Z.min_l by lia.
  replace (e1 - e2 - (53 + e1 - (53 + e2) - 53)) with 53 by lia.
  cbv iota. rewrite Z.shiftl_mul_pow2 by lia.
  pose proof (Z_div_mod (Z.pos n * 2 ^ 53) (Z.pos d) ltac:(lia)) as Hdm.
  destruct (Z.div_eucl (Z.pos n * 2 ^ 53) (Z.pos d)) as [q r].
  destruct Hdm as [Hdm Hr].
  unfold round_binary64. rewrite floor_log2_mantissas by done.
  change (2 ^ 53) with 9007199254740992 in *.
  change (2 ^ 52) with 4503599627370496 in *.
  destruct (Z.leb_spec (Z.pos d) (Z.pos n)) as [Hge|Hlt].
  - assert (9007199254740992 <= q < 2 ^ 54) as Hq
      by (change (2 ^ 54) with 18014398509481984; nia).
    change 9007199254740992 with (2 ^ 53) in Hq at 1.
    rewrite binary_round_aux_54 by (done || lia). cbv zeta.
    rewrite (round_shifted q (Z.pos d) r (Z.pos n * 2 ^ 52))
      by (try lia; change (2 ^ 52) with 4503599627370496; lia).
    unfold rne_scaled. change (0 <=? 52 - 0) with true. cbv iota.
    change (52 - 0) with 52. change (2 ^ 53) with 9007199254740992.
    change (2 ^ 52) with 4503599627370496.
    replace (53 + e1 - (53 + e2) - 53 + 1) with (0 - 52 + (e1 - e2)) by lia.
    done.
  - assert (4503599627370496 <= q < 9007199254740992) as Hq by nia.
    rewrite binary_round_aux_53 by (done || lia).
    rewrite round_new_location by lia.
    rewrite <- (rne_divmod (Z.pos n * 9007199254740992) (Z.pos d) q r) by done.
    unfold rne_scaled. change (0 <=? 52 - -1) with true. cbv iota.
    change (52 - -1) with 53. change (2 ^ 53) with 9007199254740992.
    change (2 ^ 52) with 4503599627370496.
    replace (53 + e1 - (53 + e2) - 53) with (-1 - 52 + (e1 - e2)) by lia.
    done.
Qed.

(** ** Division by [1e9] and printing *)

Lemma scaled_range a :
  0 < a →
  2 ^ 52 ≤ a * 2 ^ (52 - Z.log2 a) < 2 ^ 53 ∨ 52 < Z.log2 a.
Proof.
  intros Ha. destruct (Z.le_gt_cases (Z.log2 a) 52) as [Hle|Hgt]; [left|by right].
  pose proof (Z.log2_spec a Ha) as [Hlo Hhi].
  pose proof (Z.log2_nonneg a) as Hnn.
  assert (2 ^ 52 = 2 ^ Z.log2 a * 2 ^ (52 - Z.log2 a)) as H52
    by (rewrite <- Z.pow_add_r by lia; f_equal; lia).
  assert (2 ^ 53 = 2 ^ Z.succ (Z.log2 a) * 2 ^ (52 - Z.log2 a)) as H53
    by (rewrite <- Z.pow_add_r by lia; f_equal; lia).
  assert (0 < 2 ^ (52 - Z.log2 a)) by (apply Z.pow_pos_nonneg; lia).
  rewrite H52, H53. nia.
Qed.

(** With at least 30 fractional bits kept by the quotient, rounding it back
    to nine decimals recovers the integer it came from. *)
Lemma billionths_recovered a m s1 sh :
  0 < a → 0 ≤ s1 → 0 ≤ sh → 30 ≤ sh + s1 - 23 →
  m = rne (a * 2 ^ s1 * 2 ^ sh) 8388608000000000 →
  0 < m ∧
  rne (m * 10 ^ 9) (2 ^ (sh + s1 - 23)) = a ∧
  (m = 2 ^ 53 → rne (2 ^ 52 * 10 ^ 9) (2 ^ (sh + s1 - 23 - 1)) = a).
Proof.
  intros Ha Hs1 Hsh Ht ->.
  assert (2 ^ s1 * 2 ^ sh = 2 ^ (sh + s1 - 23 - 1) * 16777216) as Hpow.
  { change 16777216 with (2 ^ 24). rewrite <- !Z.pow_add_r by lia. f_equal. lia. }
  assert (2 ^ (sh + s1 - 23) = 2 ^ (sh + s1 - 23 - 1) * 2) as Hdbl.
  { change 2 with (2 ^ 1) at 3. rewrite <- Z.pow_add_r by lia. f_equal. lia. }
  assert (2 ^ 29 ≤ 2 ^ (sh + s1 - 23 - 1)) as Hbig
    by (apply Z.pow_le_mono_r; lia).
  rewrite Hdbl. set (X := 2 ^ (sh + s1 - 23 - 1)) in *.
  pose proof (rne_spec (a * 2 ^ s1 * 2 ^ sh) 8388608000000000 ltac:(lia)) as Hr.
  set (m := rne (a * 2 ^ s1 * 2 ^ sh) 8388608000000000) in *.
  replace (a * 2 ^ s1 * 2 ^ sh) with (a * X * 16777216) in Hr
    by (rewrite <- (Z.mul_assoc a (2 ^ s1) (2 ^ sh)), Hpow; lia).
  assert (2 ^ 29 = 536870912) as E29 by reflexivity.
  assert (10 ^ 9 = 1000000000) as E9 by reflexivity.
  assert (2 ^ 52 = 4503599627370496) as E52 by reflexivity.
  assert (2 ^ 53 = 9007199254740992) as E53 by reflexivity.
  rewrite E29 in Hbig. rewrite E9, E52, E53.
  assert (0 < a * X) as HaX by nia.
  split; [lia|]. split.
  - apply rne_unique; lia.
  - intros Hm. apply rne_unique; lia.
Qed.

Lemma quotient_fixed9 (s : bool) (a : Z) :
  0 < a < 8388608000000000 →
  fixed9 (double_div
            (S754_finite s (Z.to_pos (a * 2 ^ (52 - Z.log2 a))) (Z.log2 a - 52))
            double_1e9)
  = fixed9_digits s a.
Proof.
  intros [Ha HT].
  assert (Z.log2 a < 53) as HL by (apply Z.log2_lt_pow2; lia).
  pose proof (Z.log2_nonneg a) as HL0.
  destruct (scaled_range a Ha) as [Hn|]; [|lia].
  unfold double_div, double_1e9, prec, emax.
  rewrite SFdiv_round_binary64 by (rewrite ?Z2Pos.id by lia; lia).
  rewrite xorb_false_r, Z2Pos.id by lia.
  unfold round_binary64.
  rewrite (floor_log2_mantissas _ 8388608000000000 Hn) by lia.
  set (s1 := 52 - Z.log2 a) in *. set (n := a * 2 ^ s1) in *.
  assert (∃ sh, (if 8388608000000000 <=? n then 0 else -1) = 52 - sh ∧
                0 ≤ sh ∧ 30 ≤ sh + s1 - 23) as (sh & -> & Hsh & Ht).
  { destruct (Z.leb_spec 8388608000000000 n) as [Hge|Hlt].
    - exists 52. split; [done|]. split; [lia|].
      destruct (Z.eq_dec s1 0) as [E0|]; [|lia].
      exfalso. subst n. rewrite E0 in Hge. change (2 ^ 0) with 1 in Hge. lia.
    - exists 53. split; [done|]. lia. }
  replace (52 - (52 - sh)) with sh by lia.
  assert (rne_scaled n 8388608000000000 sh = rne (n * 2 ^ sh) 8388608000000000)
    as -> by (unfold rne_scaled; destruct (Z.leb_spec 0 sh); [done|lia]).
  destruct (billionths_recovered a (rne (n * 2 ^ sh) 8388608000000000) s1 sh)
    as (Hpos & Hround & Hcarry); try done; try lia.
  set (m := rne (n * 2 ^ sh) 8388608000000000) in *.
  destruct (Z.eqb_spec m (2 ^ 53)) as [Hm|Hm]; unfold fixed9; f_equal.
  - rewrite Z2Pos.id by lia. unfold rne_scaled.
    destruct (Z.leb_spec 0 (52 - sh - 52 + (Z.log2 a - 52 - -23) + 1)); [lia|].
    rewrite Z.mul_1_l.
    replace (- (52 - sh - 52 + (Z.log2 a - 52 - -23) + 1)) with (sh + s1 - 23 - 1)
      by lia.
    by apply Hcarry.
  - rewrite Z2Pos.id by done. unfold rne_scaled.
    destruct (Z.leb_spec 0 (52 - sh - 52 + (Z.log2 a - 52 - -23))); [lia|].
    rewrite Z.mul_1_l.
    replace (- (52 - sh - 52 + (Z.log2 a - 52 - -23))) with (sh + s1 - 23) by lia.
    done.
Qed.

(** C9, as amended: for every price of magnitude at most
    8 388 608 000 000 000 nano-units (8 388 608 currency units), the string
    [format_price] emits is the exact decimal expansion of [price / 10^9]
    with nine fractional digits. *)
Theorem format_price_exact_in_range (price_nano : Z) :
  - 8388608000000000 ≤ price_nano ≤ 8388608000000000 →
  format_price price_nano = exact_decimal9 price_nano.
Proof.
  intros Hrange.
  destruct (Z.eq_dec price_nano 0) as [->|Hnz]; [by vm_compute|].
  destruct (Z.eq_dec price_nano 8388608000000000) as [->|Hhi]; [by vm_compute|].
  destruct (Z.eq_dec price_nano (- 8388608000000000)) as [->|Hlo]; [by vm_compute|].
  unfold format_price, exact_decimal9, double_of_int64, prec, emax.
  rewrite binary_normalize_exact by (done || lia).
  apply quotient_fixed9. lia.
Qed.

Lemma format_price_exact_in_range_witness :
  - 8388608000000000 ≤ 150000000000 ≤ 8388608000000000 ∧
  format_price 150000000000 = exact_decimal9 150000000000 ∧
  format_price 150000000000 = "150.000000000".
Proof.
  assert (- 8388608000000000 ≤ 150000000000 ≤ 8388608000000000) as Hr by lia.
  split; [exact Hr|]. split; [|vm_compute; reflexivity].
  exact (format_price_exact_in_range 150000000000 Hr).
Defined.

(** C9, as stated, fails: a [double] has a 53-bit significand. The largest
    [int64_t] is printed with its last six digits changed, and the first
    price past the range above with its last digit changed. *)
Lemma format_price_inexact_beyond_range :
  format_price 9223372036854775807 = "9223372036.854776382" ∧
  exact_decimal9 9223372036854775807 = "9223372036.854775807" ∧
  format_price 9223372036854775807 ≠ exact_decimal9 9223372036854775807 ∧
  format_price 8388608000000001 = "8388608.000000002" ∧
  exact_decimal9 8388608000000001 = "8388608.000000001".
Proof.
  split; [vm_compute; reflexivity|]. split; [vm_compute; reflexivity|].
  split; [vm_compute; discriminate|]. split; vm_compute; reflexivity.
Qed.

End PublishFacts.

(** * More facts about the order book *)

Module BookLaws.
Import Book BookFacts.

(** A rejected call returns the book it was given. *)
Lemma apply_op_rejected b op : (apply_op b op).1 = false → (apply_op b op).2 = b.
Proof.
  destruct op as [i s p q|i p q|i q|i]; simpl.
  - unfold on_add. destruct (orders_ b !! i); [done|].
    by destruct (has_crossing b s p).
  - unfold on_modify. destruct (orders_ b !! i) as [o|]; [|done].
    destruct (q =? 0); [done|]. by destruct (has_crossing b (side o) p).
  - unfold on_execute. destruct (orders_ b !! i) as [o|]; [|done].
    destruct (q >? quantity o); [done|].
    by destruct (wrap32 (quantity o - q) =? 0).
  - unfold on_delete. by destruct (orders_ b !! i).
Qed.

(** X1: along any run of [on_add], [on_modify], [on_execute] and [on_delete]
    calls, accepted or rejected, every book on the way satisfies I1-I5, as long
    as the run starts from a book that does, every added quantity is positive
    and no level sum outgrows the [uint32_t] level counter. *)
Theorem run_keeps_invariants (ops : list Op) : ∀ b : OrderBook,
  invariants b → levels_fit b →
  Forall quantities_ok ops →
  Forall levels_fit (states b ops) →
  Forall invariants (states b ops).
Proof.
  induction ops as [|op ops IH]; intros b Hinv Hfit Hq Hfits; simpl in *.
  - constructor.
  - apply Forall_cons in Hq as [Hq1 Hq]. apply Forall_cons in Hfits as [Hfit1 Hfits].
    assert (invariants (apply_op b op).2) as Hinv1.
    { destruct (apply_op b op).1 eqn:Hok.
      - by apply accepted_op_keeps_invariants.
      - by rewrite apply_op_rejected. }
    constructor; [done|]. by apply IH.
Qed.

(** X2: [has_crossing] looks at the best opposite level only, yet it answers
    for the whole ladder: a buy price crosses iff some ask level lies at or below
    it, a sell price crosses iff some bid level lies at or above it. *)
Theorem has_crossing_any_level b s p :
  has_crossing b s p = true ↔
  match s with
  | BUY => ∃ ap, is_Some (asks_ b !! ap) ∧ ap ≤ p
  | SELL => ∃ bp, is_Some (bids_ b !! bp) ∧ p ≤ bp
  end.
Proof.
  destruct s.
  - rewrite has_crossing_buy. split.
    + intros (best & Hv & _ & Hle). eauto.
    + intros (ap & Hap & Hle).
      destruct (asks_begin b) as [[k v]|] eqn:Hb.
      * apply asks_begin_spec in Hb as [Hk Hmin]. exists k.
        split; [eauto|]. split; [done|]. specialize (Hmin ap Hap). lia.
      * apply asks_begin_None in Hb. rewrite Hb in Hap.
        rewrite lookup_empty in Hap. by destruct Hap.
  - rewrite has_crossing_sell. split.
    + intros (best & Hv & _ & Hle). eauto.
    + intros (bp & Hbp & Hle).
      destruct (bids_begin b) as [[k v]|] eqn:Hb.
      * apply bids_begin_spec in Hb as [Hk Hmin]. exists k.
        split; [eauto|]. split; [done|]. specialize (Hmin bp Hbp). lia.
      * apply bids_begin_None in Hb. rewrite Hb in Hbp.
        rewrite lookup_empty in Hbp. by destruct Hbp.
Qed.

(** X3: [top_of_book] reports, for each side, the greatest bid price resp.
    the least ask price together with the quantity stored at that level, and
    zero price and size for a side that has no level. *)
Theorem top_of_book_best_levels (b : OrderBook) :
  let t := top_of_book b in
  (bids_ b = ∅ → best_bid_px t = 0 ∧ bid_sz t = 0) ∧
  (bids_ b ≠ ∅ →
     bids_ b !! best_bid_px t = Some (bid_sz t) ∧
     ∀ k, is_Some (bids_ b !! k) → k ≤ best_bid_px t) ∧
  (asks_ b = ∅ → best_ask_px t = 0 ∧ ask_sz t = 0) ∧
  (asks_ b ≠ ∅ →
     asks_ b !! best_ask_px t = Some (ask_sz t) ∧
     ∀ k, is_Some (asks_ b !! k) → best_ask_px t ≤ k).
Proof.
  cbn zeta. unfold top_of_book.
  destruct (bids_begin b) as [[bp bq]|] eqn:Hb;
    destruct (asks_begin b) as [[ap aq]|] eqn:Ha; simpl;
    try apply bids_begin_spec in Hb; try apply asks_begin_spec in Ha;
    try apply bids_begin_None in Hb; try apply asks_begin_None in Ha;
    split_and!; try done; intros Hne;
    try (rewrite Hne in Hb; destruct Hb as [Hb _]; by rewrite lookup_empty in Hb);
    try (rewrite Hne in Ha; destruct Ha as [Ha _]; by rewrite lookup_empty in Ha).
Qed.

(** ** Add, execute and delete against one another *)

Lemma wrap32_add_sub v q : wrap32 (wrap32 (v + q) - q) = wrap32 v.
Proof.
  unfold wrap32. rewrite Zminus_mod_idemp_l. f_equal. lia.
Qed.

Lemma level_remove_add (m : gmap Z Z) p q :
  (∀ v, m !! p = Some v → 0 < v < 2 ^ 32) →
  level_remove (level_add m p q) p q = m.
Proof.
  intros Hv. unfold level_remove, level_add. rewrite lookup_insert_eq.
  rewrite wrap32_add_sub. destruct (m !! p) as [v|] eqn:Hp; simpl.
  - specialize (Hv v eq_refl). rewrite wrap32_small by lia.
    destruct (Z.eqb_spec v 0); [lia|].
    rewrite insert_insert_eq. by apply insert_id.
  - change (wrap32 0 =? 0) with true. cbv iota.
    rewrite delete_insert_eq. by apply delete_id.
Qed.

(** X5: deleting an order right after its accepted [on_add] gives back the
    book as it was before the add (ladders and order map), when the level it
    joined was absent or held a quantity within [uint32_t]. *)
Theorem add_then_delete_restores (b : OrderBook) (i : Z) (s : Side) (p q : Z) :
  (on_add b i s p q).1 = true →
  (∀ v, ladder b s !! p = Some v → 0 < v < 2 ^ 32) →
  on_delete (on_add b i s p q).2 i = (true, b).
Proof.
  unfold on_add. destruct (orders_ b !! i) eqn:Hi; [done|].
  destruct (has_crossing b s p); [done|]. simpl. intros _ Hv.
  unfold on_delete. rewrite orders_add_to_level. simpl.
  rewrite lookup_insert_eq. simpl. f_equal.
  destruct b as [bids asks orders]; destruct s; simpl in *;
    unfold set_orders, remove_from_level, add_to_level; simpl;
    rewrite level_remove_add by done; rewrite delete_insert_eq;
    by rewrite delete_id.
Qed.

(** X7: executing the whole remaining quantity of a live order is the same
    call as deleting it: same flag, same book. *)
Theorem full_execute_is_delete (b : OrderBook) (i : Z) (o : OrderInfo) :
  orders_ b !! i = Some o →
  on_execute b i (quantity o) = on_delete b i.
Proof.
  intros Hi. unfold on_execute, on_delete. rewrite Hi.
  destruct (Z.gtb_spec (quantity o) (quantity o)); [lia|].
  by rewrite Z.sub_diag.
Qed.

(** On a book that satisfies the invariants and whose level sums fit, the
    level of a live order exists and holds at least the order's quantity. *)
Lemma live_order_level b i o :
  invariants b → levels_fit b → orders_ b !! i = Some o →
  ∃ v, ladder b (side o) !! price o = Some v ∧ quantity o ≤ v < 2 ^ 32.
Proof.
  intros Hinv Hfit Hi. apply invariants_iff in Hinv as (Hlev & _ & H5).
  pose proof (level_sum_order b i o H5 Hi) as Hsum.
  pose proof (H5 i o Hi) as Hpos.
  specialize (Hlev (side o) (price o)). specialize (Hfit (side o) (price o)).
  unfold level_ok, level_ok_at in Hlev.
  destruct (ladder b (side o) !! price o) as [v|]; [|lia].
  exists v. split; [done|]. lia.
Qed.

(** X6: two executions of one order, the first a partial one, are accepted
    and leave the book that a single execution of the summed quantity leaves,
    when the order's level exists and holds a quantity [v] with
    [quantity o <= v < 2^32]. By [live_order_level] that is so on every book
    that satisfies I1-I5 and whose level sums fit; on a level that has wrapped
    the two can differ ([executes_on_wrapped_level_differ]). *)
Theorem executes_compose (b : OrderBook) (i : Z) (o : OrderInfo) (v e1 e2 : Z) :
  orders_ b !! i = Some o →
  ladder b (side o) !! price o = Some v →
  quantity o ≤ v < 2 ^ 32 →
  0 ≤ e1 < quantity o → 0 ≤ e2 → e1 + e2 ≤ quantity o →
  (on_execute b i e1).1 = true ∧
  on_execute (on_execute b i e1).2 i e2 = on_execute b i (e1 + e2).
Proof.
  intros Hi Hv Hrange He1 He2 Hsum.
  destruct o as [s p q]. simpl in *.
  unfold on_execute at 1 3. rewrite Hi. simpl.
  destruct (Z.gtb_spec e1 q); [lia|].
  rewrite (wrap32_small (q - e1)) by lia.
  destruct (Z.eqb_spec (q - e1) 0); [lia|]. split; [done|]. simpl.
  unfold on_execute. rewrite orders_remove_from_level, Hi. simpl.
  rewrite lookup_insert_eq. simpl.
  destruct (Z.gtb_spec e2 (q - e1)); [lia|].
  destruct (Z.gtb_spec (e1 + e2) q); [lia|].
  replace (q - e1 - e2) with (q - (e1 + e2)) by lia.
  assert (∀ m : gmap Z Z, m !! p = Some v →
            level_remove (level_remove m p e1) p e2 = level_remove m p (e1 + e2))
    as Hlevel.
  { intros m Hm. unfold level_remove. rewrite Hm.
    rewrite (wrap32_small (v - e1)) by lia.
    destruct (Z.eqb_spec (v - e1) 0); [lia|].
    rewrite lookup_insert_eq.
    replace (v - e1 - e2) with (v - (e1 + e2)) by lia.
    destruct (wrap32 (v - (e1 + e2)) =? 0).
    - by rewrite delete_insert_eq.
    - by rewrite insert_insert_eq. }
  destruct b as [bids asks orders]; destruct s; simpl in *;
    unfold set_orders, remove_from_level; simpl;
    rewrite Hlevel by done;
    (destruct (wrap32 (q - (e1 + e2)) =? 0);
     [by rewrite delete_insert_eq | by rewrite insert_insert_eq]).
Qed.

(** Why the level has to hold the order's quantity: two adds of 10 and of
    [2^32 - 5] at one price wrap the level to 5. Executing 5 twice from the
    first order empties the level at the first call and drops it, while
    executing 10 at once wraps it back to [2^32 - 5] and keeps it. *)
Example executes_on_wrapped_level_differ :
  let b := (run empty_book [Add 1 BUY 100 10; Add 2 BUY 100 4294967291]).2 in
  bids_ b !! 100 = Some 5 ∧
  (on_execute b 1 5).1 = true ∧
  bids_ (on_execute (on_execute b 1 5).2 1 5).2 = ∅ ∧
  bids_ (on_execute b 1 10).2 = {[ 100 := 4294967291 ]} ∧
  on_execute (on_execute b 1 5).2 1 5 ≠ on_execute b 1 10.
Proof.
  cbn zeta. split; [by vm_compute|]. split; [by vm_compute|].
  split; [by vm_compute|]. split; [by vm_compute|].
  intros H. apply (f_equal (λ r, bids_ r.2 !! 100)) in H. by vm_compute in H.
Qed.

(** X8: what an accepted call does to [order_count()]: an add raises it by
    one, a delete lowers it by one, a modify keeps it, and an execute lowers it
    by one exactly when it takes the whole remaining quantity. *)
Theorem order_count_effect (b : OrderBook) (op : Op) :
  (apply_op b op).1 = true →
  (∀ i o, orders_ b !! i = Some o → 0 ≤ quantity o < 2 ^ 32) →
  quantities_ok op →
  Z.of_nat (order_count (apply_op b op).2) =
  match op with
  | Add _ _ _ _ => Z.of_nat (order_count b) + 1
  | Modify _ _ _ => Z.of_nat (order_count b)
  | Execute i e =>
      match orders_ b !! i with
      | Some o => if e =? quantity o then Z.of_nat (order_count b) - 1
                  else Z.of_nat (order_count b)
      | None => Z.of_nat (order_count b)
      end
  | Delete _ => Z.of_nat (order_count b) - 1
  end.
Proof.
  intros Hok Hq Hop. unfold order_count.
  destruct op as [i s p q|i p q|i e|i]; simpl in *.
  - unfold on_add in *. destruct (orders_ b !! i) eqn:Hi; [done|].
    destruct (has_crossing b s p); [done|]. simpl.
    rewrite orders_add_to_level. simpl.
    rewrite map_size_insert_None by done. lia.
  - unfold on_modify in *. destruct (orders_ b !! i) as [o|] eqn:Hi; [|done].
    destruct (q =? 0); [done|].
    destruct (has_crossing b (side o) p); [done|]. simpl.
    rewrite orders_add_to_level. simpl. rewrite orders_remove_from_level.
    by rewrite map_size_insert_Some.
  - unfold on_execute in *. destruct (orders_ b !! i) as [o|] eqn:Hi; [|done].
    destruct (Z.gtb_spec e (quantity o)); [done|].
    specialize (Hq i o Hi).
    rewrite (wrap32_small (quantity o - e)) by lia.
    destruct (Z.eqb_spec (quantity o - e) 0), (Z.eqb_spec e (quantity o));
      try lia; simpl; rewrite orders_remove_from_level.
    + rewrite map_size_delete_Some by done.
      assert (size (orders_ b) ≠ 0%nat); [|lia].
      intros Hz%map_size_empty_inv. rewrite Hz in Hi. by rewrite lookup_empty in Hi.
    + by rewrite map_size_insert_Some.
  - unfold on_delete in *. destruct (orders_ b !! i) as [o|] eqn:Hi; [|done].
    simpl. rewrite orders_remove_from_level.
    rewrite map_size_delete_Some by done.
    assert (size (orders_ b) ≠ 0%nat); [|lia].
    intros Hz%map_size_empty_inv. rewrite Hz in Hi. by rewrite lookup_empty in Hi.
Qed.

(** X4: on a book that satisfies I1-I5, [has_bid] and [has_ask] of the top of
    book tell exactly whether the side has a level, and when both have one the
    best bid is below the best ask. *)
Theorem top_of_book_consistent (b : OrderBook) :
  invariants b →
  let t := top_of_book b in
  (has_bid t = true ↔ bids_ b ≠ ∅) ∧
  (has_ask t = true ↔ asks_ b ≠ ∅) ∧
  (has_bid t = true → has_ask t = true → best_bid_px t < best_ask_px t).
Proof.
  intros Hinv. pose proof Hinv as (_ & _ & _ & H4 & _).
  apply invariants_iff in Hinv as (Hlev & _ & _). cbn zeta.
  unfold top_of_book, has_bid, has_ask.
  destruct (bids_begin b) as [[bp bq]|] eqn:Hb;
    destruct (asks_begin b) as [[ap aq]|] eqn:Ha; simpl.
  all: try (apply bids_begin_spec in Hb as Hb'; destruct Hb' as [Hbk _];
            pose proof (Hlev BUY bp) as Hlb; unfold level_ok in Hlb; simpl in Hlb;
            rewrite Hbk in Hlb; simpl in Hlb; destruct Hlb as [_ Hbpos]).
  all: try (apply asks_begin_spec in Ha as Ha'; destruct Ha' as [Hak _];
            pose proof (Hlev SELL ap) as Hla; unfold level_ok in Hla; simpl in Hla;
            rewrite Hak in Hla; simpl in Hla; destruct Hla as [_ Hapos]).
  all: try apply bids_begin_None in Hb; try apply asks_begin_None in Ha.
  all: split_and!; try (intros; lia).
  all: try (split; [intros _ Hne | intros _; lia]).
  all: try (rewrite Hne in Hbk; by rewrite lookup_empty in Hbk).
  all: try (rewrite Hne in Hak; by rewrite lookup_empty in Hak).
  all: try (split; [intros ?; lia | done]).
  intros _ _. by eapply H4.
Qed.

(** ** Level sums that fit *)

(** No level can hold more than the whole book does. *)
Lemma total_quantity_insert_fresh (o : gmap Z OrderInfo) i oi :
  o !! i = None → total_quantity (<[i := oi]> o) = quantity oi + total_quantity o.
Proof.
  intros Hi. unfold total_quantity.
  apply (map_fold_insert_L (λ _ oi acc, quantity oi + acc)); [intros; lia | done].
Qed.

Lemma level_sum_le_total (o : gmap Z OrderInfo) s p :
  map_Forall (λ _ oi, 0 ≤ quantity oi) o →
  level_sum o s p ≤ total_quantity o.
Proof.
  induction o as [|i oi o Hi IH] using map_ind; intros Hall.
  - rewrite level_sum_empty. unfold total_quantity. by rewrite map_fold_empty.
  - rewrite level_sum_insert_fresh, total_quantity_insert_fresh by done.
    apply map_Forall_insert in Hall as [Hq Hall]; [|done].
    specialize (IH Hall). rewrite contribution_at. case_decide; lia.
Qed.

Lemma levels_fit_total b :
  map_Forall (λ _ oi, 0 ≤ quantity oi) (orders_ b) →
  total_quantity (orders_ b) < 2 ^ 32 → levels_fit b.
Proof.
  intros Hall Htot s p. pose proof (level_sum_le_total (orders_ b) s p Hall). lia.
Qed.

(** [levels_fit] of a book that is given in full. *)
Ltac fits := apply levels_fit_total;
  [apply (bool_decide_unpack _); by vm_compute | by vm_compute].

(** ** The laws on a sample book *)

Lemma two_sided_book_invariants :
  invariants two_sided_book ∧ levels_fit two_sided_book.
Proof.
  assert (levels_fit (on_add empty_book 1 BUY 100 10).2) as Hfit1 by fits.
  assert (levels_fit two_sided_book) as Hfit2 by fits.
  split; [|done].
  destruct empty_book_invariants as [H0 F0].
  pose proof (accepted_op_keeps_invariants empty_book (Add 1 BUY 100 10) H0 F0
                ltac:(simpl; lia) eq_refl Hfit1) as H1.
  apply (accepted_op_keeps_invariants _ (Add 2 SELL 105 20) H1 Hfit1
           ltac:(simpl; lia) eq_refl Hfit2).
Qed.

Lemma run_keeps_invariants_witness :
  Forall invariants
    (states two_sided_book [Add 3 BUY 101 5; Add 3 SELL 104 1; Execute 1 4; Delete 2]).
Proof.
  destruct two_sided_book_invariants as [Hinv Hfit].
  assert (Forall quantities_ok [Add 3 BUY 101 5; Add 3 SELL 104 1; Execute 1 4; Delete 2])
    as Hq by (repeat constructor; simpl; lia).
  assert (Forall levels_fit
            (states two_sided_book
               [Add 3 BUY 101 5; Add 3 SELL 104 1; Execute 1 4; Delete 2])) as Hfits
    by (repeat constructor; fits).
  exact (run_keeps_invariants _ two_sided_book Hinv Hfit Hq Hfits).
Defined.

Lemma add_then_delete_restores_witness :
  on_delete (on_add two_sided_book 3 BUY 100 5).2 3 = (true, two_sided_book).
Proof.
  assert ((on_add two_sided_book 3 BUY 100 5).1 = true) as Hok by reflexivity.
  assert (∀ v, ladder two_sided_book BUY !! 100 = Some v → 0 < v < 2 ^ 32) as Hv.
  { intros v Hv. vm_compute in Hv. injection Hv as <-. lia. }
  exact (add_then_delete_restores two_sided_book 3 BUY 100 5 Hok Hv).
Defined.

Lemma full_execute_is_delete_witness :
  on_execute two_sided_book 2 20 = on_delete two_sided_book 2.
Proof.
  assert (orders_ two_sided_book !! 2 = Some (mkOrderInfo SELL 105 20)) as Hi
    by reflexivity.
  exact (full_execute_is_delete two_sided_book 2 (mkOrderInfo SELL 105 20) Hi).
Defined.

Lemma executes_compose_witness :
  (on_execute two_sided_book 1 3).1 = true ∧
  on_execute (on_execute two_sided_book 1 3).2 1 4 = on_execute two_sided_book 1 7.
Proof.
  assert (orders_ two_sided_book !! 1 = Some (mkOrderInfo BUY 100 10)) as Hi
    by reflexivity.
  assert (ladder two_sided_book BUY !! 100 = Some 10) as Hv by reflexivity.
  assert (10 ≤ 10 < 2 ^ 32) as Hr by lia.
  assert (0 ≤ 3 < 10) as H1 by lia.
  assert (0 ≤ 4) as H2 by lia.
  assert (3 + 4 ≤ 10) as H3 by lia.
  exact (executes_compose two_sided_book 1 (mkOrderInfo BUY 100 10) 10 3 4
           Hi Hv Hr H1 H2 H3).
Defined.

Lemma order_count_effect_witness :
  Z.of_nat (order_count (apply_op two_sided_book (Execute 2 20)).2)
  = Z.of_nat (order_count two_sided_book) - 1.
Proof.
  assert ((apply_op two_sided_book (Execute 2 20)).1 = true) as Hok by reflexivity.
  assert (∀ i o, orders_ two_sided_book !! i = Some o → 0 ≤ quantity o < 2 ^ 32) as Hq.
  { apply (bool_decide_unpack (map_Forall (λ _ o, 0 ≤ quantity o < 2 ^ 32)
                                 (orders_ two_sided_book))). by vm_compute. }
  assert (quantities_ok (Execute 2 20)) as Hop by (simpl; lia).
  exact (order_count_effect two_sided_book (Execute 2 20) Hok Hq Hop).
Defined.

Lemma top_of_book_consistent_witness :
  (has_bid (top_of_book two_sided_book) = true ↔ bids_ two_sided_book ≠ ∅) ∧
  (has_ask (top_of_book two_sided_book) = true ↔ asks_ two_sided_book ≠ ∅) ∧
  (has_bid (top_of_book two_sided_book) = true →
   has_ask (top_of_book two_sided_book) = true →
   best_bid_px (top_of_book two_sided_book) < best_ask_px (top_of_book two_sided_book)).
Proof.
  exact (top_of_book_consistent two_sided_book (proj1 two_sided_book_invariants)).
Defined.
End BookLaws.

(** * More facts about the ring buffer *)

Module RingLaws.
Import Ring RingFacts.

(** X9: the two asserts of the [RingBuffer] constructor hold for a [size_t]
    capacity exactly when it is a power of two. *)
Theorem capacity_assert_iff_pow2 (c : Z) :
  0 ≤ c < 2 ^ 64 →
  capacity_assert c = true ↔ ∃ k, 0 ≤ k < 64 ∧ c = 2 ^ k.
Proof.
  intros Hc. split.
  - unfold capacity_assert. intros [Hland Hpos]%andb_true_iff.
    apply Z.eqb_eq in Hland. apply Z.ltb_lt in Hpos.
    rewrite wrap64_small in Hland by lia.
    pose proof (Z.log2_spec c Hpos) as Hlog.
    pose proof (Z.log2_nonneg c) as Hk.
    exists (Z.log2 c). split.
    + split; [done|]. apply Z.log2_lt_pow2; lia.
    + destruct (Z.eq_dec c (2 ^ Z.log2 c)) as [|Hne]; [done|]. exfalso.
      assert (Z.log2 (c - 1) = Z.log2 c) as Hsame.
      { apply Z.log2_unique; [done|].
        replace (Z.succ (Z.log2 c)) with (Z.log2 c + 1) by lia.
        rewrite Z.pow_add_r by lia. rewrite Z.pow_succ_r in Hlog by done. lia. }
      assert (Z.testbit (Z.land c (c - 1)) (Z.log2 c) = true) as Hbit.
      { rewrite Z.land_spec, Z.bit_log2 by lia.
        rewrite <- Hsame. rewrite Z.bit_log2; [done|].
        assert (0 < 2 ^ Z.log2 c) by (apply Z.pow_pos_nonneg; lia). lia. }
      rewrite Hland, Z.bits_0 in Hbit. done.
  - intros (k & Hk & ->). by apply capacity_assert_pow2.
Qed.

Section Laws.
Context {T : Type} (T_init : T).

Lemma length_slots_from (buf : list T) mask n : ∀ h,
  length (slots_from T_init buf mask h n) = n.
Proof. induction n as [|n IH]; intros h; simpl; [done|]. by rewrite IH. Qed.

Lemma length_contents k (r : RingBuffer T) :
  wf k r → Z.of_nat (length (contents T_init r)) = size r.
Proof.
  intros Hwf. unfold contents. rewrite length_slots_from.
  pose proof (size_range k r Hwf). lia.
Qed.

(** X10: after any sequential run of [try_push] and [try_pop] on a ring of
    capacity [2^k], [size()] is the size before, plus the successful pushes,
    minus the successful pops; it stays within [0, 2^k - 1], and the ring stays
    well formed with its capacity unchanged. *)
Theorem run_size_accounting (k : Z) (r : RingBuffer T) (ops : list (Op T)) :
  wf k r →
  ∃ pushed popped r',
    run T_init r ops = (pushed, popped, r') ∧ wf k r' ∧
    size r' = size r + Z.of_nat (length pushed) - Z.of_nat (length popped) ∧
    0 ≤ size r' ≤ 2 ^ k - 1 ∧
    Z.of_nat (length popped) ≤ size r + Z.of_nat (length pushed) ∧
    capacity r' = capacity r.
Proof.
  intros Hwf. destruct (run_fifo T_init k ops r Hwf) as (pushed & popped & r' & Hrun & Hwf' & Heq).
  exists pushed, popped, r'. split; [done|]. split; [done|].
  apply (f_equal length) in Heq. rewrite !length_app in Heq.
  pose proof (length_contents k r Hwf) as H1.
  pose proof (length_contents k r' Hwf') as H2.
  pose proof (size_range k r' Hwf') as H3.
  split_and!; try lia.
  unfold capacity. destruct Hwf as (_ & -> & _), Hwf' as (_ & -> & _). done.
Qed.
End Laws.

Lemma capacity_assert_iff_pow2_witness :
  capacity_assert 1048576 = true ↔ ∃ k, 0 ≤ k < 64 ∧ 1048576 = 2 ^ k.
Proof.
  assert (0 ≤ 1048576 < 2 ^ 64) as Hc by lia.
  exact (capacity_assert_iff_pow2 1048576 Hc).
Defined.

Lemma run_size_accounting_witness :
  ∃ pushed popped r',
    run 0 (make 0 (2 ^ 2)) [Push 1; Push 2; Pop; Push 3; Push 4; Push 5; Pop]
    = (pushed, popped, r') ∧ wf 2 r' ∧
    size r' = size (make 0 (2 ^ 2)) + Z.of_nat (length pushed) - Z.of_nat (length popped) ∧
    0 ≤ size r' ≤ 2 ^ 2 - 1 ∧
    Z.of_nat (length popped) ≤ size (make 0 (2 ^ 2)) + Z.of_nat (length pushed) ∧
    capacity r' = capacity (make 0 (2 ^ 2)).
Proof.
  assert (0 ≤ 2 < 64) as Hk by lia.
  exact (run_size_accounting 0 2 (make 0 (2 ^ 2))
           [Push 1; Push 2; Pop; Push 3; Push 4; Push 5; Pop] (make_wf 0 2 Hk)).
Defined.
End RingLaws.

(** * Facts about the interleavings of producer and consumer *)

Module SpscFacts.
Import Ring RingFacts Spsc.

(** The four parts of the invariant, the ones at hand closed. *)
Ltac four_parts := split; [try done | split; [try done | split; try done]].

Section Facts.
Context {T : Type} (T_init : T).

Local Abbreviation state := (State T).

(** The write of [try_push] lands outside the queued items. *)
Lemma write_keeps_contents k (r : RingBuffer T) x :
  wf k r →
  let r' := mkRing (capacity_ r) (mask_ r)
              (<[Z.to_nat (tail_ r) := x]> (buffer_ r)) (head_ r) (tail_ r) in
  wf k r' ∧ contents T_init r' = contents T_init r ∧
  slot T_init (buffer_ r') (tail_ r) = x ∧
  (head_ r ≠ tail_ r →
   slot T_init (buffer_ r') (head_ r) = slot T_init (buffer_ r) (head_ r)).
Proof.
  intros Hwf. cbn zeta.
  pose proof (size_cases k r Hwf) as Hsz.
  pose proof (size_range k r Hwf) as Hrange.
  pose proof (wf_slot_in_range k r Hwf) as [_ Htl].
  pose proof Hwf as (Hk & Hc & Hm & Hl & Hh & Ht).
  split_and!.
  - unfold wf; simpl. by rewrite length_insert.
  - unfold contents, size. simpl. fold (size r). rewrite Hm.
    apply (slots_from_insert_ahead T_init k); try done.
    rewrite Z2Nat.id by lia. rewrite Hsz. case_cmp.
  - simpl. by apply slot_insert_eq.
  - intros Hne. simpl. apply slot_insert_ne; lia.
Qed.

(** The store to [tail_] publishes the item written before it. *)
Lemma store_tail_pushes k (r : RingBuffer T) x :
  wf k r → advance (mask_ r) (tail_ r) ≠ head_ r →
  slot T_init (buffer_ r) (tail_ r) = x →
  let r' := mkRing (capacity_ r) (mask_ r) (buffer_ r) (head_ r)
              (advance (mask_ r) (tail_ r)) in
  wf k r' ∧ contents T_init r' = contents T_init r ++ [x] ∧
  size r' = size r + 1 ∧ head_ r' ≠ tail_ r'.
Proof.
  intros Hwf Hroom Hslot. cbn zeta.
  assert (full r = false) as Hfull by (unfold full; by apply Z.eqb_neq).
  destruct (try_push_room T_init k r x Hwf Hfull) as (r' & Hpush & Hwf' & Hsz & Hc & Hh).
  unfold try_push in Hpush. unfold full in Hfull. rewrite Hfull in Hpush.
  injection Hpush as <-.
  pose proof (wf_slot_in_range k r Hwf) as [_ Htl].
  assert (<[Z.to_nat (tail_ r) := x]> (buffer_ r) = buffer_ r) as Hid.
  { apply list_insert_id. unfold slot in Hslot.
    destruct (lookup_lt_is_Some_2 (buffer_ r) (Z.to_nat (tail_ r)) Htl) as [y Hy].
    rewrite Hy in Hslot |- *. simpl in Hslot. by subst. }
  rewrite Hid in *. by split_and!.
Qed.

(** The store to [head_] releases the slot read before it. *)
Lemma store_head_pops k (r : RingBuffer T) :
  wf k r → head_ r ≠ tail_ r →
  let r' := mkRing (capacity_ r) (mask_ r) (buffer_ r)
              (advance (mask_ r) (head_ r)) (tail_ r) in
  wf k r' ∧
  contents T_init r = slot T_init (buffer_ r) (head_ r) :: contents T_init r' ∧
  size r' = size r - 1 ∧ advance (mask_ r') (tail_ r') ≠ head_ r'.
Proof.
  intros Hwf Hne. cbn zeta.
  assert (empty r = false) as Hempty by (unfold empty; by apply Z.eqb_neq).
  destruct (try_pop_item T_init k r Hwf Hempty)
    as (v & r' & Hpop & Hwf' & Hsz & Hc & Ht & Hb).
  unfold try_pop in Hpop. unfold empty in Hempty. rewrite Hempty in Hpop.
  injection Hpop as <- <-. split_and!; try done.
  pose proof (size_range k r Hwf).
  intros Heq. apply (proj1 (full_iff_size k _ Hwf')) in Heq. lia.
Qed.

Lemma step_keeps_invariant k (s : state) (m : Move T) :
  invariant T_init k s → invariant T_init k (step T_init s m).
Proof.
  intros (Hwf & Hlog & Hp & Hc).
  destruct s as [r p c pu po]. unfold invariant, producer_ok, consumer_ok in *.
  simpl in *.
  destruct m as [x| | |]; simpl.
  - (* the producer enters try_push *)
    destruct p; simpl; four_parts.
  - (* the producer's next access *)
    unfold producer_step.
    destruct p as [|x ct|x ct nt|x ct nt]; simpl.
    + four_parts.
    + subst ct. destruct (Z.eqb_spec (advance (mask_ r) (tail_ r)) (head_ r));
        simpl; four_parts.
    + destruct Hp as (-> & -> & Hroom).
      destruct (write_keeps_contents k r x Hwf) as (Hwf' & Hcont & Hslot & Hhead).
      four_parts.
      * by rewrite Hcont.
      * destruct c as [|ch|ch|ch v]; simpl in *; try done.
        destruct Hc as (-> & Hne & ->). split; [done|]. split; [done|].
        symmetry. by apply Hhead.
    + destruct Hp as (-> & -> & Hroom & Hslot).
      destruct (store_tail_pushes k r x Hwf Hroom Hslot) as (Hwf' & Hcont & _ & Hne').
      simpl in Hne'. four_parts.
      * rewrite Hcont, Hlog. by rewrite app_assoc.
      * destruct c as [|ch|ch|ch v]; simpl in *; try done.
        -- by destruct Hc as (-> & _).
        -- by destruct Hc as (-> & _ & ->).
  - (* the consumer enters try_pop *)
    destruct c; simpl; four_parts.
  - (* the consumer's next access *)
    unfold consumer_step.
    destruct c as [|ch|ch|ch v]; simpl.
    + four_parts.
    + subst ch. destruct (Z.eqb_spec (head_ r) (tail_ r)); simpl; four_parts.
    + destruct Hc as (-> & Hne). four_parts.
    + destruct Hc as (-> & Hne & ->).
      destruct (store_head_pops k r Hwf Hne) as (Hwf' & Hcont & _ & Hroom').
      simpl in Hroom'. four_parts.
      * rewrite Hlog, Hcont. by rewrite <- app_assoc.
      * destruct p as [|x ct|x ct nt|x ct nt]; simpl in *; try done.
        -- by destruct Hp as (-> & -> & _).
        -- by destruct Hp as (-> & -> & _ & <-).
Qed.

Lemma init_invariant k : 0 ≤ k < 64 → invariant T_init k (init T_init (2 ^ k)).
Proof.
  intros Hk. pose proof (make_wf T_init k Hk) as Hwf.
  unfold invariant, init, producer_ok, consumer_ok; simpl.
  four_parts.
Qed.

Lemma execute_keeps_invariant k schedule : ∀ s : state,
  invariant T_init k s → invariant T_init k (execute T_init s schedule).
Proof.
  induction schedule as [|m schedule IH]; intros s Hinv; [done|].
  apply IH. by apply step_keeps_invariant.
Qed.

(** X28: in every interleaving of the memory accesses of one producer and
    one consumer on a ring of capacity [2^k], the items of the [try_push] calls
    that returned true are the items of the [try_pop] calls that returned true,
    in order, followed by the items still queued; the producer writes the slot at
    [tail_] only, while the ring is not full, and never the slot the consumer
    is about to read. *)
Theorem spsc_interleavings_fifo (k : Z) (schedule : list (Move T)) :
  0 ≤ k < 64 →
  let s := execute T_init (init T_init (2 ^ k)) schedule in
  pushed s = popped s ++ contents T_init (ring s) ∧
  (empty (ring s) = true → popped s = pushed s) ∧
  0 ≤ size (ring s) ≤ 2 ^ k - 1 ∧
  (∀ w rd, writing s = Some w → reading s = Some rd → w ≠ rd) ∧
  (∀ w, writing s = Some w → w = tail_ (ring s) ∧ size (ring s) < 2 ^ k - 1).
Proof.
  intros Hk. cbn zeta.
  destruct (execute_keeps_invariant k schedule _ (init_invariant k Hk))
    as (Hwf & Hlog & Hp & Hc).
  set (s := execute T_init (init T_init (2 ^ k)) schedule) in *.
  pose proof (size_range k _ Hwf) as Hrange.
  split_and!; try done; try lia.
  - intros He. destruct (empty_contents T_init k _ Hwf He) as [_ Hnil].
    rewrite Hlog, Hnil. by rewrite app_nil_r.
  - unfold writing, reading, producer_ok, consumer_ok in *.
    destruct (producer s) as [|x ct|x ct nt|x ct nt]; try done.
    destruct (consumer s) as [|ch|ch|ch v]; try done.
    intros w rd [= <-] [= <-]. destruct Hp as (-> & _), Hc as (-> & Hne). done.
  - unfold writing, producer_ok in *.
    destruct (producer s) as [|x ct|x ct nt|x ct nt]; try done.
    intros w [= <-]. destruct Hp as (-> & -> & Hroom). split; [done|].
    destruct (Z.eq_dec (size (ring s)) (2 ^ k - 1)) as [Hfull|]; [|lia].
    apply (proj1 (full_iff_size k _ Hwf)) in Hfull. done.
Qed.
End Facts.

Lemma spsc_interleavings_fifo_witness :
  let s := execute 0 (init 0 (2 ^ 2))
             [ProducerCall 7; ConsumerCall; ProducerStep; ConsumerStep; ProducerStep;
              ConsumerCall; ProducerStep; ProducerCall 8; ConsumerStep; ProducerStep;
              ConsumerStep; ProducerStep; ConsumerStep] in
  pushed s = popped s ++ contents 0 (ring s) ∧
  (empty (ring s) = true → popped s = pushed s) ∧
  0 ≤ size (ring s) ≤ 2 ^ 2 - 1 ∧
  (∀ w rd, writing s = Some w → reading s = Some rd → w ≠ rd) ∧
  (∀ w, writing s = Some w → w = tail_ (ring s) ∧ size (ring s) < 2 ^ 2 - 1).
Proof.
  assert (0 ≤ 2 < 64) as Hk by lia.
  exact (spsc_interleavings_fifo 0 2
           [ProducerCall 7; ConsumerCall; ProducerStep; ConsumerStep; ProducerStep;
            ConsumerCall; ProducerStep; ProducerCall 8; ConsumerStep; ProducerStep;
            ConsumerStep; ProducerStep; ConsumerStep] Hk).
Defined.
End SpscFacts.

(** * Facts about written records and the decoder *)

Module WireFacts.
Import Feed Wire FeedFacts.

(** ** Fields written and read back *)

Lemma byte_of_value z : Z.of_N (Byte.to_N (byte_of z)) = z mod 256.
Proof.
  unfold byte_of. pose proof (Z.mod_pos_bound z 256 ltac:(lia)) as Hz.
  destruct (Byte.of_N (Z.to_N (z mod 256))) as [b|] eqn:Hb; simpl.
  - apply Byte.to_of_N in Hb. rewrite Hb. lia.
  - apply Byte.of_N_None_iff in Hb. lia.
Qed.

Lemma length_le_bytes n : ∀ z, length (le_bytes n z) = n.
Proof. induction n as [|n IH]; intros z; simpl; [done|]. by rewrite IH. Qed.

Lemma le_unsigned_le_bytes n : ∀ z,
  le_unsigned (le_bytes n z) = z mod 256 ^ Z.of_nat n.
Proof.
  induction n as [|n IH]; intros z.
  - simpl. by rewrite Z.mod_1_r.
  - cbn [le_bytes le_unsigned foldr]. fold (le_unsigned (le_bytes n (z / 256))).
    rewrite IH, byte_of_value.
    rewrite Nat2Z.inj_succ, Z.pow_succ_r by lia.
    rewrite Z.rem_mul_r; [done | lia |]. apply Z.pow_pos_nonneg; lia.
Qed.

Lemma le_unsigned_uint64 z : uint64_t z → le_unsigned (le_bytes 8 z) = z.
Proof.
  intros Hz. rewrite le_unsigned_le_bytes. apply Z.mod_small.
  unfold uint64_t in Hz. change (256 ^ Z.of_nat 8) with (2 ^ 64). lia.
Qed.

Lemma le_unsigned_uint32 z : uint32_t z → le_unsigned (le_bytes 4 z) = z.
Proof.
  intros Hz. rewrite le_unsigned_le_bytes. apply Z.mod_small.
  unfold uint32_t in Hz. change (256 ^ Z.of_nat 4) with (2 ^ 32). lia.
Qed.

Lemma le_int64_int64 z : int64_t z → le_int64 (le_bytes 8 z) = z.
Proof.
  intros Hz. unfold le_int64. rewrite le_unsigned_le_bytes.
  unfold int64_t in Hz. change (256 ^ Z.of_nat 8) with (2 ^ 64).
  destruct (Z.ltb_spec z 0).
  - replace (z mod 2 ^ 64) with (z + 2 ^ 64)
      by (apply (Z.mod_unique_pos _ _ (-1)); lia).
    destruct (Z.ltb_spec (z + 2 ^ 64) (2 ^ 63)); lia.
  - rewrite Z.mod_small by lia. destruct (Z.ltb_spec z (2 ^ 63)); lia.
Qed.

(** ** Fields inside a record *)

Lemma bytes_at_skip (a b : list byte) off len :
  Z.of_nat (length a) ≤ off →
  bytes_at (a ++ b) off len = bytes_at b (off - Z.of_nat (length a)) len.
Proof.
  intros Hoff. unfold bytes_at. f_equal.
  rewrite drop_app. rewrite drop_ge by lia. simpl. f_equal. lia.
Qed.

Lemma bytes_at_head (a b : list byte) off len :
  off = 0 → len = Z.of_nat (length a) → bytes_at (a ++ b) off len = a.
Proof.
  intros -> ->. unfold bytes_at. rewrite Nat2Z.id.
  change (Z.to_nat 0) with 0%nat. rewrite drop_0. apply take_app_length.
Qed.

Lemma bytes_at_cons x (b : list byte) off len :
  1 ≤ off → bytes_at (x :: b) off len = bytes_at b (off - 1) len.
Proof. intros Hoff. apply (bytes_at_skip [x] b); simpl; lia. Qed.

Lemma byte_at_cons x (b : list byte) off :
  1 ≤ off → byte_at (x :: b) off = byte_at b (off - 1).
Proof.
  intros Hoff. unfold byte_at.
  replace (Z.to_nat off) with (S (Z.to_nat (off - 1))) by lia. done.
Qed.

Lemma byte_at_skip (a b : list byte) off :
  Z.of_nat (length a) ≤ off →
  byte_at (a ++ b) off = byte_at b (off - Z.of_nat (length a)).
Proof.
  intros Hoff. unfold byte_at. rewrite app_nth2 by lia. f_equal. lia.
Qed.

(** Walks to the field at a given offset of a written record. *)
Ltac skip_fields :=
  repeat first
    [ rewrite bytes_at_cons by lia
    | rewrite byte_at_cons by lia
    | rewrite bytes_at_skip by (rewrite ?length_le_bytes; lia)
    | rewrite byte_at_skip by (rewrite ?length_le_bytes; lia) ];
  rewrite ?length_le_bytes.

Lemma length_object_bytes p T :
  representable p → kind_of p = Some T →
  Z.of_nat (length (object_bytes p)) = sizeof T.
Proof.
  destruct p as [m|m|m|m|]; simpl; try done; intros Hr [= <-]; destruct m;
    simpl in Hr; unfold object_bytes, add_bytes, modify_bytes, execute_bytes, delete_bytes;
    cbn [length]; rewrite ?length_app; cbn [length]; rewrite ?length_app, ?length_le_bytes.
  all: cbn [AddOrderMsg.symbol];
    try (destruct Hr as (_ & _ & Hs & _); rewrite Hs); reflexivity.
Qed.

Ltac at_head := rewrite bytes_at_head by (rewrite ?length_le_bytes; lia).

Lemma view_written (p : EventPayload) (T : MsgKind) :
  representable p → kind_of p = Some T → view T (object_bytes p) = p.
Proof.
  intros Hr HT.
  destruct p as [m|m|m|m|]; simpl in *; try done; injection HT as <-;
    destruct m; simpl in *.
  - destruct Hr as (Hts & Hid & Hsym & Hpx & Hq).
    unfold view, AddOrderMsg.view, add_bytes.
    cbn [AddOrderMsg.ts_us AddOrderMsg.order_id AddOrderMsg.symbol AddOrderMsg.side
         AddOrderMsg.px_nano AddOrderMsg.qty AddOrderMsg.type].
    f_equal. f_equal.
    + skip_fields. at_head. by apply le_unsigned_uint64.
    + skip_fields. at_head. by apply le_unsigned_uint64.
    + skip_fields. at_head. done.
    + skip_fields. rewrite Hsym. done.
    + skip_fields. rewrite Hsym. rewrite bytes_at_cons by lia. at_head.
      by apply le_int64_int64.
    + skip_fields. rewrite Hsym. rewrite bytes_at_cons by lia. skip_fields.
      unfold bytes_at. simpl Z.to_nat. rewrite drop_0.
      rewrite take_ge by (rewrite length_le_bytes; lia).
      by apply le_unsigned_uint32.
  - destruct Hr as (Hts & Hid & Hpx & Hq).
    unfold view, ModifyOrderMsg.view, modify_bytes.
    cbn [ModifyOrderMsg.ts_us ModifyOrderMsg.order_id ModifyOrderMsg.new_px_nano
         ModifyOrderMsg.new_qty ModifyOrderMsg.type].
    f_equal. f_equal.
    + skip_fields. at_head. by apply le_unsigned_uint64.
    + skip_fields. at_head. by apply le_unsigned_uint64.
    + skip_fields. at_head. by apply le_int64_int64.
    + skip_fields. unfold bytes_at. simpl Z.to_nat. rewrite drop_0.
      rewrite take_ge by (rewrite length_le_bytes; lia).
      by apply le_unsigned_uint32.
  - destruct Hr as (Hts & Hid & Hq).
    unfold view, ExecuteOrderMsg.view, execute_bytes.
    cbn [ExecuteOrderMsg.ts_us ExecuteOrderMsg.order_id ExecuteOrderMsg.exec_qty
         ExecuteOrderMsg.type].
    f_equal. f_equal.
    + skip_fields. at_head. by apply le_unsigned_uint64.
    + skip_fields. at_head. by apply le_unsigned_uint64.
    + skip_fields. unfold bytes_at. simpl Z.to_nat. rewrite drop_0.
      rewrite take_ge by (rewrite length_le_bytes; lia).
      by apply le_unsigned_uint32.
  - destruct Hr as (Hts & Hid).
    unfold view, DeleteOrderMsg.view, delete_bytes.
    cbn [DeleteOrderMsg.ts_us DeleteOrderMsg.order_id DeleteOrderMsg.type].
    f_equal. f_equal.
    + skip_fields. at_head. by apply le_unsigned_uint64.
    + skip_fields. unfold bytes_at. simpl Z.to_nat. rewrite drop_0.
      rewrite take_ge by (rewrite length_le_bytes; lia).
      by apply le_unsigned_uint64.
Qed.

(** X11: a packed record written byte for byte, as [simgen] and the tests
    write it, has the size of its type and reads back field by field through
    the decoder's [reinterpret_cast], little-endian and two's complement
    included, whenever every field holds a value of its C++ type. *)
Theorem view_object_bytes (p : EventPayload) (T : MsgKind) :
  representable p → kind_of p = Some T →
  Z.of_nat (length (object_bytes p)) = sizeof T ∧
  view T (object_bytes p) = p.
Proof.
  intros Hr HT. split.
  - by apply length_object_bytes.
  - by apply view_written.
Qed.


(** ** What one call of [next] does *)

Lemma set_pos_same d : set_pos d (current_pos_ d) = d.
Proof. by destruct d. Qed.

Lemma next_at_end clock d ticks :
  has_next d = false → next clock d ticks = (Event_default, d, ticks).
Proof. intros Hn. unfold next. rewrite next_fuel_unfold. by rewrite Hn. Qed.

Lemma next_known_tag clock d ticks T :
  has_next d = true →
  tag_of (byte_at (mapped_data_ d) (current_pos_ d)) = Some T →
  next clock d ticks =
  match read_message T d with
  | Some (p, d') => (mkEvent (event_type_of T) p (clock ticks), d', S ticks)
  | None => (Event_default, d, S ticks)
  end.
Proof.
  intros Hn Htag. unfold next. rewrite next_fuel_unfold, Hn. simpl.
  unfold has_next in Hn. apply Z.ltb_lt in Hn.
  destruct (Z.geb_spec (current_pos_ d) (file_size_ d)); [lia|].
  by rewrite Htag.
Qed.

Lemma next_cases clock n : ∀ d ticks,
  wf d → Z.to_nat (file_size_ d - current_pos_ d) = n → has_next d = true →
  ∃ k : nat,
    current_pos_ d + Z.of_nat k ≤ file_size_ d ∧
    (∀ j : nat, (j < k)%nat →
       tag_of (byte_at (mapped_data_ d) (current_pos_ d + Z.of_nat j)) = None) ∧
    ((current_pos_ d + Z.of_nat k = file_size_ d ∧
      next clock d ticks = (Event_default, set_pos d (file_size_ d), (ticks + k)%nat)) ∨
     (current_pos_ d + Z.of_nat k < file_size_ d ∧
      ∃ T, tag_of (byte_at (mapped_data_ d) (current_pos_ d + Z.of_nat k)) = Some T ∧
           next clock d ticks =
           match read_message T (set_pos d (current_pos_ d + Z.of_nat k)) with
           | Some (p, d') =>
               (mkEvent (event_type_of T) p (clock (ticks + k)%nat), d', S (ticks + k))
           | None =>
               (Event_default, set_pos d (current_pos_ d + Z.of_nat k), S (ticks + k))
           end)).
Proof.
  induction n as [|n IH]; intros d ticks Hwf Hn Hnext.
  { unfold has_next in Hnext. apply Z.ltb_lt in Hnext. lia. }
  pose proof Hnext as Hlt. unfold has_next in Hlt. apply Z.ltb_lt in Hlt.
  pose proof Hwf as (Hs & Hb & Hp).
  destruct (tag_of (byte_at (mapped_data_ d) (current_pos_ d))) as [T|] eqn:Htag.
  - exists 0%nat. rewrite Z.add_0_r, Nat.add_0_r, set_pos_same.
    split; [lia|]. split; [intros j Hj; lia|]. right. split; [done|].
    exists T. split; [done|]. by apply next_known_tag.
  - rewrite next_unknown_tag by done.
    set (d1 := set_pos d (current_pos_ d + 1)).
    assert (wf d1) as Hwf1 by (apply wf_set_pos; [done | lia]).
    destruct (has_next d1) eqn:Hn1.
    + destruct (IH d1 (S ticks) Hwf1) as (k & Hk & Hskip & Hres); [simpl; lia | done |].
      simpl in Hk, Hskip, Hres. exists (S k).
      replace (current_pos_ d + Z.of_nat (S k)) with (current_pos_ d + 1 + Z.of_nat k) by lia.
      replace (ticks + S k)%nat with (S ticks + k)%nat by lia.
      split; [lia|]. split; [|done].
      intros [|j] Hj; [by rewrite Z.add_0_r|].
      replace (current_pos_ d + Z.of_nat (S j)) with (current_pos_ d + 1 + Z.of_nat j) by lia.
      apply Hskip. lia.
    + rewrite next_at_end by done. exists 1%nat.
      unfold has_next in Hn1. simpl in Hn1. apply Z.ltb_ge in Hn1.
      split; [lia|]. split.
      * intros j Hj. replace j with 0%nat by lia. by rewrite Z.add_0_r.
      * left. split; [lia|]. unfold d1. do 2 f_equal; [f_equal|]; lia.
Qed.

Lemma byte_eqb_reflect (x y : byte) : reflect (x = y) (Byte.eqb x y).
Proof.
  destruct (Byte.eqb x y) eqn:E; constructor.
  - by apply byte_dec_bl.
  - by apply Byte.eqb_false.
Qed.

Lemma validate_cases T bs :
  (validate T bs = None ∧ fails_validation T bs) ∨
  (validate T bs = Some (view T bs) ∧ ¬ fails_validation T bs).
Proof.
  destruct T; unfold validate, fails_validation, view.
  - destruct (byte_eqb_reflect (AddOrderMsg.side (AddOrderMsg.view bs)) "B") as [HB|HB];
      destruct (byte_eqb_reflect (AddOrderMsg.side (AddOrderMsg.view bs)) "S") as [HS|HS];
      destruct (Z.eqb_spec (AddOrderMsg.qty (AddOrderMsg.view bs)) 0) as [Hq|Hq];
      simpl; try (left; split; [done|]; by (left + right)); right; split; try done;
      intros [[? ?]|?]; done.
  - destruct (Z.eqb_spec (ModifyOrderMsg.new_qty (ModifyOrderMsg.view bs)) 0);
      [left | right]; done.
  - destruct (Z.eqb_spec (ExecuteOrderMsg.exec_qty (ExecuteOrderMsg.view bs)) 0);
      [left | right]; done.
  - right. split; [done | tauto].
Qed.

Lemma read_message_cases T d :
  wf d →
  (read_message T d = None ∧
   (current_pos_ d + sizeof T > file_size_ d ∨
    fails_validation T (bytes_at (mapped_data_ d) (current_pos_ d) (sizeof T)))) ∨
  (read_message T d
   = Some (view T (bytes_at (mapped_data_ d) (current_pos_ d) (sizeof T)),
           set_pos d (current_pos_ d + sizeof T)) ∧
   current_pos_ d + sizeof T ≤ file_size_ d ∧
   ¬ fails_validation T (bytes_at (mapped_data_ d) (current_pos_ d) (sizeof T))).
Proof.
  intros (Hs & Hb & Hp). pose proof (sizeof_range T) as HT.
  unfold read_message. rewrite wrap64_small by lia.
  destruct (Z.gtb_spec (current_pos_ d + sizeof T) (file_size_ d)).
  - left. split; [done|]. left. lia.
  - destruct (validate_cases T (bytes_at (mapped_data_ d) (current_pos_ d) (sizeof T)))
      as [[-> Hf]|[-> Hf]].
    + left. split; [done|]. by right.
    + right. split; [done|]. split; [lia | done].
Qed.

Lemma next_valid_event (clock : nat → Z) (d : Decoder) (ticks : nat)
    (e : Event) (d' : Decoder) (t' : nat) :
  wf d → next clock d ticks = (e, d', t') → type e ≠ INVALID →
  ∃ (k : nat) (T : MsgKind),
    let pos := current_pos_ d + Z.of_nat k in
    (∀ j : nat, (j < k)%nat →
       tag_of (byte_at (mapped_data_ d) (current_pos_ d + Z.of_nat j)) = None) ∧
    tag_of (byte_at (mapped_data_ d) pos) = Some T ∧
    pos + sizeof T ≤ file_size_ d ∧
    ¬ fails_validation T (bytes_at (mapped_data_ d) pos (sizeof T)) ∧
    e = mkEvent (event_type_of T)
          (view T (bytes_at (mapped_data_ d) pos (sizeof T))) (clock (ticks + k)%nat) ∧
    d' = set_pos d (pos + sizeof T) ∧ t' = S (ticks + k).
Proof.
  intros Hwf Hnext Hvalid.
  destruct (has_next d) eqn:Hn.
  2: { rewrite next_at_end in Hnext by done. injection Hnext as <- <- <-. done. }
  destruct (next_cases clock _ d ticks Hwf eq_refl Hn) as (k & Hk & Hskip & Hres).
  destruct Hres as [[_ Hres]|(Hlt & T & Htag & Hres)].
  { rewrite Hres in Hnext. injection Hnext as <- <- <-. done. }
  pose proof Hwf as (Hs & Hb & Hp).
  assert (wf (set_pos d (current_pos_ d + Z.of_nat k))) as Hwf'
    by (apply wf_set_pos; [done | lia]).
  destruct (read_message_cases T _ Hwf') as [[Hr _]|(Hr & Hfit & Hok)];
    rewrite Hr in Hres; rewrite Hres in Hnext; injection Hnext as <- <- <-; [done|].
  simpl in *. exists k, T. done.
Qed.

(** X15: when [next] returns [Invalid] on a decoder that has bytes left, it
    has skipped [k] bytes that are no tag and then either reached the end of the
    file, or stopped at a tag whose record is cut short or fails its checks. *)
Theorem next_invalid_cases (clock : nat → Z) (d : Decoder) (ticks : nat)
    (e : Event) (d' : Decoder) (t' : nat) :
  wf d → has_next d = true →
  next clock d ticks = (e, d', t') → type e = INVALID →
  ∃ k : nat,
    let pos := current_pos_ d + Z.of_nat k in
    (∀ j : nat, (j < k)%nat →
       tag_of (byte_at (mapped_data_ d) (current_pos_ d + Z.of_nat j)) = None) ∧
    e = Event_default ∧ d' = set_pos d pos ∧
    ((pos = file_size_ d ∧ t' = (ticks + k)%nat) ∨
     (pos < file_size_ d ∧ t' = S (ticks + k) ∧
      ∃ T, tag_of (byte_at (mapped_data_ d) pos) = Some T ∧
           (pos + sizeof T > file_size_ d ∨
            fails_validation T (bytes_at (mapped_data_ d) pos (sizeof T))))).
Proof.
  intros Hwf Hn Hnext Hinv.
  destruct (next_cases clock _ d ticks Hwf eq_refl Hn) as (k & Hk & Hskip & Hres).
  exists k. cbn zeta. split; [done|].
  destruct Hres as [[Heq Hres]|(Hlt & T & Htag & Hres)].
  { rewrite Hres in Hnext. injection Hnext as <- <- <-.
    split; [done|]. split; [by rewrite Heq|]. by left. }
  pose proof Hwf as (Hs & Hb & Hp).
  assert (wf (set_pos d (current_pos_ d + Z.of_nat k))) as Hwf'
    by (apply wf_set_pos; [done | lia]).
  destruct (read_message_cases T _ Hwf') as [[Hr Hwhy]|(Hr & Hfit & Hok)];
    rewrite Hr in Hres; rewrite Hres in Hnext; injection Hnext as <- <- <-.
  - split; [done|]. split; [done|]. right. split; [done|]. split; [done|].
    exists T. done.
  - by destruct T.
Qed.

(** X16: [next] never moves the cursor backwards nor past the end of the
    mapping, leaves the mapping and its size alone, and moves the cursor by at
    least 17 bytes (the smallest record) whenever it returns a valid event. *)
Theorem next_keeps_cursor_in_file (clock : nat → Z) (d : Decoder) (ticks : nat) :
  wf d →
  let r := next clock d ticks in
  wf r.1.2 ∧
  mapped_data_ r.1.2 = mapped_data_ d ∧ file_size_ r.1.2 = file_size_ d ∧
  position d ≤ position r.1.2 ≤ size d ∧
  (type r.1.1 ≠ INVALID → position d + 17 ≤ position r.1.2) ∧
  (ticks ≤ r.2)%nat.
Proof.
  intros Hwf. cbn zeta. pose proof Hwf as (Hs & Hb & Hp).
  unfold position, size.
  destruct (has_next d) eqn:Hn.
  2: { rewrite next_at_end by done. simpl. split_and!; try done; lia. }
  destruct (next_cases clock _ d ticks Hwf eq_refl Hn) as (k & Hk & Hskip & Hres).
  destruct Hres as [[Heq ->]|(Hlt & T & Htag & ->)].
  { simpl. split_and!; try done; try lia. apply wf_set_pos; [done | lia]. }
  assert (wf (set_pos d (current_pos_ d + Z.of_nat k))) as Hwf'
    by (apply wf_set_pos; [done | lia]).
  pose proof (sizeof_range T) as HT.
  destruct (read_message_cases T _ Hwf') as [[-> _]|(-> & Hfit & _)];
    cbn [fst snd current_pos_ set_pos mapped_data_ file_size_ type] in *.
  - split_and!; try done; lia.
  - split_and!; try done; try lia.
    apply wf_set_pos; [done | cbn [file_size_ set_pos]; lia].
Qed.

(** ** Well-formed records under the cursor *)

Lemma bytes_at_length (data : list byte) pos len :
  0 ≤ pos → 0 < len →
  Z.of_nat (length (bytes_at data pos len)) = len →
  pos + len ≤ Z.of_nat (length data).
Proof.
  intros Hpos Hlen. unfold bytes_at. rewrite length_take, length_drop. lia.
Qed.

Lemma bytes_at_first (data : list byte) pos len x rest :
  0 ≤ pos → bytes_at data pos len = x :: rest → byte_at data pos = x.
Proof.
  intros Hpos Heq. unfold byte_at, bytes_at in *.
  assert (take (Z.to_nat len) (drop (Z.to_nat pos) data) !! 0%nat = Some x) as H0
    by (by rewrite Heq).
  apply lookup_take_Some in H0 as [H0 _]. rewrite lookup_drop, Nat.add_0_r in H0.
  by rewrite (nth_lookup_Some _ _ _ _ H0).
Qed.

Lemma well_formed_kind p : well_formed p → ∃ T, kind_of p = Some T.
Proof. destruct p; simpl; intros [Hr ?]; by eauto. Qed.

Lemma well_formed_tag p T :
  well_formed p → kind_of p = Some T →
  ∃ rest, object_bytes p = match T with
                           | KAdd => "A" | KModify => "U"
                           | KExecute => "E" | KDelete => "D"
                           end%byte :: rest.
Proof.
  destruct p as [m|m|m|m|]; simpl; intros [Hr Hw] [= <-]; destruct m; simpl in *.
  - destruct Hw as (-> & _). by eexists.
  - destruct Hw as (-> & _). by eexists.
  - destruct Hw as (-> & _). by eexists.
  - subst. by eexists.
Qed.

Lemma well_formed_passes p T :
  well_formed p → kind_of p = Some T → ¬ fails_validation T (object_bytes p).
Proof.
  intros Hw HT. pose proof Hw as [Hr Hv].
  pose proof (view_written p T Hr HT) as Hview.
  destruct p as [m|m|m|m|]; simpl in HT; try done; injection HT as <-;
    unfold fails_validation; unfold view in Hview; cbn [object_bytes] in *;
    injection Hview as Hview; rewrite ?Hview.
  - destruct Hv as (_ & Hside & Hq). intros [[? ?]|?]; [by destruct Hside | done].
  - by destruct Hv.
  - by destruct Hv.
  - tauto.
Qed.

Lemma next_written_record (clock : nat → Z) (d : Decoder) (ticks : nat)
    (p : EventPayload) :
  wf d → well_formed p →
  bytes_at (mapped_data_ d) (current_pos_ d) (Z.of_nat (length (object_bytes p)))
  = object_bytes p →
  current_pos_ d + Z.of_nat (length (object_bytes p)) ≤ file_size_ d ∧
  next clock d ticks
  = (event_of p (clock ticks),
     set_pos d (current_pos_ d + Z.of_nat (length (object_bytes p))), S ticks).
Proof.
  intros Hwf Hw Hat. pose proof Hwf as (Hs & Hb & Hp).
  destruct (well_formed_kind p Hw) as [T HT]. pose proof Hw as [Hr _].
  pose proof (length_object_bytes p T Hr HT) as Hlen.
  pose proof (view_written p T Hr HT) as Hview.
  pose proof (sizeof_range T) as Hsz.
  rewrite Hlen in *.
  assert (current_pos_ d + sizeof T ≤ file_size_ d) as Hfit.
  { rewrite Hs. apply bytes_at_length; [lia | lia |]. by rewrite Hat. }
  assert (has_next d = true) as Hn by (apply Z.ltb_lt; lia).
  destruct (well_formed_tag p T Hw HT) as [rest Hrest].
  assert (tag_of (byte_at (mapped_data_ d) (current_pos_ d)) = Some T) as Htag.
  { rewrite Hrest in Hat. rewrite (bytes_at_first _ _ _ _ _ (proj1 Hp) Hat).
    by destruct T. }
  split; [done|].
  rewrite (next_known_tag clock d ticks T Hn Htag).
  destruct (read_message_cases T d Hwf) as [[_ [Hbad|Hbad]]|(-> & _ & _)].
  - lia.
  - rewrite Hat in Hbad. by apply well_formed_passes in Hbad.
  - rewrite Hat, Hview. unfold event_of. by rewrite HT.
Qed.

Lemma event_of_valid p now : well_formed p → type (event_of p now) ≠ INVALID.
Proof.
  intros [T HT]%well_formed_kind. unfold event_of. rewrite HT. by destruct T.
Qed.

(** X12: when a well-formed record lies under the cursor, [next] returns it
    as a valid event carrying the clock value just read, and moves the cursor by
    exactly the size of the record, never past the end of the file. *)
Theorem next_decodes_written_record (clock : nat → Z) (d : Decoder) (ticks : nat)
    (p : EventPayload) :
  wf d → well_formed p →
  bytes_at (mapped_data_ d) (current_pos_ d) (Z.of_nat (length (object_bytes p)))
  = object_bytes p →
  let r := next clock d ticks in
  r = (event_of p (clock ticks),
       set_pos d (current_pos_ d + Z.of_nat (length (object_bytes p))), S ticks) ∧
  type r.1.1 ≠ INVALID ∧ payload r.1.1 = p ∧
  decode_timestamp_us r.1.1 = clock ticks ∧
  position r.1.2 ≤ size d.
Proof.
  intros Hwf Hp Hat. cbn zeta.
  destruct (next_written_record clock d ticks p Hwf Hp Hat) as [Hfit ->].
  cbn [fst snd]. split; [done|]. split; [by apply event_of_valid|].
  destruct (well_formed_kind p Hp) as [T HT]. unfold event_of. rewrite HT.
  by split_and!.
Qed.

Lemma decode_all_records clock ps : ∀ fuel pre ticks data,
  Forall well_formed ps →
  data = pre ++ concat (object_bytes <$> ps) →
  Z.of_nat (length data) < 2 ^ 63 →
  (length ps ≤ fuel)%nat →
  decode_all fuel clock
    (mkDecoder data (Z.of_nat (length data)) (Z.of_nat (length pre))) ticks
  = (imap (λ i p, event_of p (clock (ticks + i)%nat)) ps,
     mkDecoder data (Z.of_nat (length data)) (Z.of_nat (length data)),
     (ticks + length ps)%nat, true).
Proof.
  induction ps as [|p ps IH]; intros fuel pre ticks data Hall Hdata Hsmall Hfuel.
  - simpl in Hdata. rewrite app_nil_r in Hdata. subst data.
    assert (has_next (mkDecoder pre (Z.of_nat (length pre)) (Z.of_nat (length pre)))
            = false) as Hn by (apply Z.ltb_ge; simpl; lia).
    destruct fuel; simpl; unfold has_next; simpl; rewrite Z.ltb_irrefl; simpl;
      by rewrite Nat.add_0_r.
  - apply Forall_cons in Hall as [Hp Hall].
    destruct fuel as [|fuel]; [simpl in Hfuel; lia|].
    set (d := mkDecoder data (Z.of_nat (length data)) (Z.of_nat (length pre))).
    destruct (well_formed_kind p Hp) as [T HT]. pose proof Hp as [Hr _].
    pose proof (length_object_bytes p T Hr HT) as Hlen.
    pose proof (sizeof_range T) as Hsz.
    assert (wf d) as Hwf.
    { unfold wf, d; simpl. split_and!; try done; try lia.
      rewrite Hdata, length_app. lia. }
    assert (bytes_at (mapped_data_ d) (current_pos_ d)
              (Z.of_nat (length (object_bytes p))) = object_bytes p) as Hat.
    { unfold d; simpl. rewrite Hdata. simpl.
      rewrite bytes_at_skip by lia. by rewrite bytes_at_head by lia. }
    assert (has_next d = true) as Hn.
    { apply Z.ltb_lt. unfold d; simpl. rewrite Hdata. simpl.
      rewrite !length_app. lia. }
    cbn [decode_all]. fold d. rewrite Hn. cbn [negb].
    rewrite (proj2 (next_written_record clock d ticks p Hwf Hp Hat)).
    unfold set_pos, d. cbn [mapped_data_ file_size_ current_pos_].
    replace (Z.of_nat (length pre) + Z.of_nat (length (object_bytes p)))
      with (Z.of_nat (length (pre ++ object_bytes p)))
      by (rewrite length_app; lia).
    rewrite (IH fuel (pre ++ object_bytes p) (S ticks) data); try done.
    + pose proof (event_of_valid p (clock ticks) Hp) as Hv.
      replace (ticks + length (p :: ps))%nat with (S ticks + length ps)%nat
        by (simpl; lia).
      f_equal. f_equal. f_equal.
      destruct (type (event_of p (clock ticks))) eqn:Hty; try done;
        cbn [imap]; rewrite Nat.add_0_r; f_equal;
        apply imap_ext; intros i x _; simpl; do 2 f_equal; lia.
    + rewrite Hdata. simpl. by rewrite <- app_assoc.
    + simpl in Hfuel. lia.
Qed.

Lemma written_feed_nonempty (ps : list EventPayload) :
  Forall well_formed ps → ps ≠ [] →
  0 < Z.of_nat (length (concat (object_bytes <$> ps))).
Proof.
  intros Hall Hne. destruct ps as [|p ps]; [done|].
  apply Forall_cons in Hall as [Hp _].
  destruct (well_formed_kind p Hp) as [T HT]. pose proof Hp as [Hr _].
  pose proof (length_object_bytes p T Hr HT) as Hlen.
  pose proof (sizeof_range T). simpl. rewrite length_app. lia.
Qed.

(** X13: a file made of well-formed records written one after the other is
    decoded completely by the loop [while (has_next()) next()]: it yields one
    event per record, in order, each with its payload and the clock value of its
    call, and ends with [has_next()] false. *)
Theorem decode_all_written_stream (clock : nat → Z) (ps : list EventPayload)
    (fuel : nat) :
  Forall well_formed ps → ps ≠ [] →
  Z.of_nat (length (concat (object_bytes <$> ps))) < 2 ^ 63 →
  (length ps ≤ fuel)%nat →
  ∃ d,
    Decoder_open (concat (object_bytes <$> ps)) = Some d ∧
    decode_all fuel clock d 0
    = (imap (λ i p, event_of p (clock i)) ps, set_pos d (size d), length ps, true) ∧
    has_next (set_pos d (size d)) = false.
Proof.
  intros Hall Hne Hsmall Hfuel.
  pose proof (written_feed_nonempty ps Hall Hne) as Hpos.
  set (data := concat (object_bytes <$> ps)) in *.
  exists (mkDecoder data (Z.of_nat (length data)) 0).
  split; [|split].
  - unfold Decoder_open. fold data.
    destruct (Z.eqb_spec (Z.of_nat (length data)) 0); [lia | done].
  - apply (decode_all_records clock ps fuel [] 0%nat data); done.
  - apply Z.ltb_irrefl.
Qed.

(** ** The decoding loop on any file *)

Lemma decode_all_stuck clock d :
  stuck d →
  ∀ fuel ticks, decode_all fuel clock d ticks = ([], d, (ticks + fuel)%nat, false).
Proof.
  intros (Hn & T & Htag & Hread). induction fuel as [|fuel IH]; intros ticks.
  - simpl. rewrite Hn. simpl. by rewrite Nat.add_0_r.
  - cbn [decode_all]. rewrite Hn. cbn [negb].
    rewrite (next_read_fails clock d ticks T Hn Htag Hread), IH. simpl.
    do 2 f_equal. lia.
Qed.

Lemma decode_all_outcome clock N : ∀ d ticks,
  wf d → (Z.to_nat (file_size_ d - current_pos_ d) ≤ N)%nat →
  ∃ es d',
    mapped_data_ d' = mapped_data_ d ∧ file_size_ d' = file_size_ d ∧
    ((position d' = size d ∧
      ∀ fuel, (Z.to_nat (file_size_ d - current_pos_ d) ≤ fuel)%nat →
              ∃ t', decode_all fuel clock d ticks = (es, d', t', true)) ∨
     (stuck d' ∧
      ∀ fuel, (Z.to_nat (file_size_ d - current_pos_ d) ≤ fuel)%nat →
              ∃ t', decode_all fuel clock d ticks = (es, d', t', false))).
Proof.
  induction N as [|N IH]; intros d ticks Hwf HN; pose proof Hwf as (Hs & Hb & Hp).
  { exists [], d. split; [done|]. split; [done|]. left.
    unfold position, size. split; [lia|]. intros fuel _. exists ticks.
    assert (has_next d = false) as Hn by (apply Z.ltb_ge; lia).
    destruct fuel; simpl; by rewrite Hn. }
  destruct (has_next d) eqn:Hn.
  2: { exists [], d. split; [done|]. split; [done|]. left.
       unfold position, size. apply Z.ltb_ge in Hn as Hge. split; [lia|].
       intros fuel _. exists ticks. destruct fuel; simpl; by rewrite Hn. }
  apply Z.ltb_lt in Hn as Hlt.
  destruct (next_cases clock _ d ticks Hwf eq_refl Hn) as (k & Hk & Hskip & Hres).
  destruct Hres as [[Heq Hres]|(Hlt' & T & Htag & Hres)].
  - exists [], (set_pos d (file_size_ d)). split; [done|]. split; [done|]. left.
    split; [done|]. intros [|fuel] Hfuel; [lia|].
    cbn [decode_all]. rewrite Hn, Hres. cbn [negb].
    assert (has_next (set_pos d (file_size_ d)) = false) as Hn'
      by (apply Z.ltb_irrefl).
    exists (ticks + k)%nat. destruct fuel; simpl; by rewrite Hn'.
  - set (d0 := set_pos d (current_pos_ d + Z.of_nat k)) in *.
    assert (wf d0) as Hwf0 by (apply wf_set_pos; [done | lia]).
    pose proof (sizeof_range T) as HT.
    destruct (read_message_cases T d0 Hwf0) as [[Hr _]|(Hr & Hfit & _)];
      rewrite Hr in Hres.
    + exists [], d0.
      split; [done|]. split; [done|]. right.
      assert (stuck d0) as Hstuck.
      { split; [by apply Z.ltb_lt|]. exists T. done. }
      split; [done|]. intros [|fuel] Hfuel; [lia|].
      cbn [decode_all]. rewrite Hn, Hres. cbn [negb].
      rewrite (decode_all_stuck clock _ Hstuck). by eexists.
    + set (d1 := set_pos d0 (current_pos_ d0 + sizeof T)) in *.
      assert (file_size_ d1 = file_size_ d) as Hsz1 by done.
      assert (current_pos_ d1 = current_pos_ d + Z.of_nat k + sizeof T) as Hpos1 by done.
      assert (file_size_ d0 = file_size_ d) as Hsz0 by done.
      assert (current_pos_ d0 = current_pos_ d + Z.of_nat k) as Hpos0 by done.
      assert (wf d1) as Hwf1 by (apply wf_set_pos; [done | lia]).
      destruct (IH d1 (S (ticks + k)) Hwf1) as (es & d' & Hdata & Hsize & Hout);
        [lia|].
      exists (mkEvent (event_type_of T)
                (view T (bytes_at (mapped_data_ d0) (current_pos_ d0) (sizeof T)))
                (clock (ticks + k)%nat) :: es), d'.
      split; [done|]. split; [done|].
      assert (∀ fin,
        (∀ fuel, (Z.to_nat (file_size_ d1 - current_pos_ d1) ≤ fuel)%nat →
                 ∃ t', decode_all fuel clock d1 (S (ticks + k)) = (es, d', t', fin)) →
        ∀ fuel, (Z.to_nat (file_size_ d - current_pos_ d) ≤ fuel)%nat →
                ∃ t', decode_all fuel clock d ticks
                      = (mkEvent (event_type_of T)
                           (view T (bytes_at (mapped_data_ d0) (current_pos_ d0)
                                      (sizeof T)))
                           (clock (ticks + k)%nat) :: es, d', t', fin)) as Hstep.
      { intros fin Hall [|fuel] Hfuel; [lia|].
        cbn [decode_all]. rewrite Hn, Hres. cbn [negb].
        destruct (Hall fuel) as [t' ->]; [lia|].
        exists t'. by destruct T. }
      destruct Hout as [[Hend Hall]|[Hstuck Hall]]; [left | right].
      * split; [done | by apply Hstep].
      * split; [done | by apply Hstep].
Qed.

(** X17: the loop [while (has_next()) next()] has two outcomes only: it
    reaches the end of the file, or it arrives at a record [next] cannot get
    past and then never ends, however long it runs; the events gathered do not
    depend on how long it runs. *)
Theorem decode_all_ends_or_sticks (clock : nat → Z) (d : Decoder) (ticks : nat) :
  wf d →
  ∃ es d',
    (position d' = size d ∧
     ∀ fuel, (Z.to_nat (file_size_ d - current_pos_ d) ≤ fuel)%nat →
             ∃ t', decode_all fuel clock d ticks = (es, d', t', true)) ∨
    (stuck d' ∧
     ∀ fuel, (Z.to_nat (file_size_ d - current_pos_ d) ≤ fuel)%nat →
             ∃ t', decode_all fuel clock d ticks = (es, d', t', false)).
Proof.
  intros Hwf.
  destruct (decode_all_outcome clock _ d ticks Hwf (le_n _))
    as (es & d' & _ & _ & Hout).
  by exists es, d'.
Qed.

(** ** What a valid event carries *)

Lemma le_unsigned_range (bs : list byte) :
  0 ≤ le_unsigned bs < 256 ^ Z.of_nat (length bs).
Proof.
  induction bs as [|b bs IH]; [simpl; lia|].
  cbn [le_unsigned foldr length]. fold (le_unsigned bs).
  rewrite Nat2Z.inj_succ, Z.pow_succ_r by lia.
  pose proof (Byte.to_N_bounded b) as Hb. lia.
Qed.

Lemma le_unsigned_fits (bs : list byte) off len :
  0 ≤ len → 0 ≤ le_unsigned (bytes_at bs off len) < 256 ^ len.
Proof.
  intros Hlen. pose proof (le_unsigned_range (bytes_at bs off len)) as Hr.
  assert (Z.of_nat (length (bytes_at bs off len)) ≤ len) as Hle
    by (unfold bytes_at; rewrite length_take; lia).
  split; [lia|]. eapply Z.lt_le_trans; [apply Hr|].
  apply Z.pow_le_mono_r; lia.
Qed.

Lemma le_int64_fits (bs : list byte) off :
  int64_t (le_int64 (bytes_at bs off 8)).
Proof.
  unfold int64_t, le_int64. pose proof (le_unsigned_fits bs off 8 ltac:(lia)) as Hr.
  change (256 ^ 8) with (2 ^ 64) in Hr.
  destruct (Z.ltb_spec (le_unsigned (bytes_at bs off 8)) (2 ^ 63)); lia.
Qed.

Lemma tag_of_Some c T :
  tag_of c = Some T →
  c = match T with
      | KAdd => "A" | KModify => "U" | KExecute => "E" | KDelete => "D"
      end%byte.
Proof. destruct c; simpl; intros [= <-]; done. Qed.

Lemma byte_at_record (data : list byte) pos len :
  0 ≤ pos → 0 < len → byte_at (bytes_at data pos len) 0 = byte_at data pos.
Proof.
  intros Hpos Hlen. unfold byte_at, bytes_at. change (Z.to_nat 0) with 0%nat.
  destruct (Z.to_nat len) as [|n] eqn:Hn; [lia|].
  destruct (drop (Z.to_nat pos) data) as [|x rest] eqn:Hd.
  - simpl. rewrite nth_overflow; [done|].
    apply (f_equal length) in Hd. rewrite length_drop in Hd. simpl in Hd. lia.
  - simpl. assert (drop (Z.to_nat pos) data !! 0%nat = Some x) as H0 by (by rewrite Hd).
    rewrite lookup_drop, Nat.add_0_r in H0. by rewrite (nth_lookup_Some _ _ _ _ H0).
Qed.

Lemma view_well_formed (data : list byte) pos T :
  0 ≤ pos → pos + sizeof T ≤ Z.of_nat (length data) →
  tag_of (byte_at data pos) = Some T →
  ¬ fails_validation T (bytes_at data pos (sizeof T)) →
  well_formed (view T (bytes_at data pos (sizeof T))) ∧
  kind_of (view T (bytes_at data pos (sizeof T))) = Some T.
Proof.
  intros Hpos Hfit Htag Hok. pose proof (sizeof_range T) as HT.
  apply tag_of_Some in Htag.
  pose proof (byte_at_record data pos (sizeof T) Hpos ltac:(lia)) as Hfirst.
  rewrite Htag in Hfirst. set (bs := bytes_at data pos (sizeof T)) in *.
  assert (length bs = Z.to_nat (sizeof T)) as Hlen.
  { unfold bs, bytes_at. rewrite length_take, length_drop. lia. }
  split; [|by destruct T].
  unfold uint64_t, uint32_t.
  destruct T; unfold well_formed, representable, view, fails_validation in *;
    cbn [AddOrderMsg.view AddOrderMsg.ts_us AddOrderMsg.order_id AddOrderMsg.symbol
         AddOrderMsg.side AddOrderMsg.px_nano AddOrderMsg.qty AddOrderMsg.type
         ModifyOrderMsg.view ModifyOrderMsg.ts_us ModifyOrderMsg.order_id
         ModifyOrderMsg.new_px_nano ModifyOrderMsg.new_qty ModifyOrderMsg.type
         ExecuteOrderMsg.view ExecuteOrderMsg.ts_us ExecuteOrderMsg.order_id
         ExecuteOrderMsg.exec_qty ExecuteOrderMsg.type
         DeleteOrderMsg.view DeleteOrderMsg.ts_us DeleteOrderMsg.order_id
         DeleteOrderMsg.type] in *.
  - pose proof (le_unsigned_fits bs 1 8 ltac:(lia)).
    pose proof (le_unsigned_fits bs 9 8 ltac:(lia)).
    pose proof (le_unsigned_fits bs 32 4 ltac:(lia)).
    pose proof (le_int64_fits bs 24).
    split_and!; try done; try lia.
    + unfold bytes_at. rewrite length_take, length_drop, Hlen.
      change (sizeof KAdd) with 36. lia.
    + destruct (byte_eqb_reflect (byte_at bs 23) "B"); [by left|].
      destruct (byte_eqb_reflect (byte_at bs 23) "S"); [by right|].
      destruct Hok. by left.
  - pose proof (le_unsigned_fits bs 1 8 ltac:(lia)).
    pose proof (le_unsigned_fits bs 9 8 ltac:(lia)).
    pose proof (le_unsigned_fits bs 25 4 ltac:(lia)).
    pose proof (le_int64_fits bs 17).
    split_and!; try done; lia.
  - pose proof (le_unsigned_fits bs 1 8 ltac:(lia)).
    pose proof (le_unsigned_fits bs 9 8 ltac:(lia)).
    pose proof (le_unsigned_fits bs 17 4 ltac:(lia)).
    split_and!; try done; lia.
  - pose proof (le_unsigned_fits bs 1 8 ltac:(lia)).
    pose proof (le_unsigned_fits bs 9 8 ltac:(lia)).
    split_and!; try done; lia.
Qed.

Lemma next_valid_event_well_formed (clock : nat → Z) (d : Decoder) (ticks : nat)
    (e : Event) (d' : Decoder) (t' : nat) :
  wf d → next clock d ticks = (e, d', t') → type e ≠ INVALID →
  well_formed (payload e) ∧ e = event_of (payload e) (decode_timestamp_us e).
Proof.
  intros Hwf Hnext Hvalid. pose proof Hwf as (Hs & Hb & Hp).
  destruct (next_valid_event clock d ticks e d' t' Hwf Hnext Hvalid)
    as (k & T & _ & Htag & Hfit & Hok & -> & _).
  cbn [payload decode_timestamp_us].
  destruct (view_well_formed (mapped_data_ d) (current_pos_ d + Z.of_nat k) T)
    as [Hw Hk]; try done; try lia.
  split; [done|]. unfold event_of. by rewrite Hk.
Qed.

(** X14: every valid event [next] returns is a record of the file: after
    skipping [k] bytes that are no tag, the tag under the cursor names its type,
    the record fits in the file and is handed out field by field; the cursor
    then stands right behind it, the clock has been read [k + 1] times, and the
    payload passes every check (side 'B' or 'S', non-zero quantities). *)
Theorem next_event_sound (clock : nat → Z) (d : Decoder) (ticks : nat)
    (e : Event) (d' : Decoder) (t' : nat) :
  wf d → next clock d ticks = (e, d', t') → type e ≠ INVALID →
  ∃ (k : nat) (T : MsgKind),
    let pos := current_pos_ d + Z.of_nat k in
    (∀ j : nat, (j < k)%nat →
       tag_of (byte_at (mapped_data_ d) (current_pos_ d + Z.of_nat j)) = None) ∧
    tag_of (byte_at (mapped_data_ d) pos) = Some T ∧
    pos + sizeof T ≤ file_size_ d ∧
    e = mkEvent (event_type_of T)
          (view T (bytes_at (mapped_data_ d) pos (sizeof T))) (clock (ticks + k)%nat) ∧
    d' = set_pos d (pos + sizeof T) ∧ t' = S (ticks + k) ∧
    well_formed (payload e) ∧ kind_of (payload e) = Some T.
Proof.
  intros Hwf Hnext Hvalid. pose proof Hwf as (Hs & Hb & Hp).
  destruct (next_valid_event clock d ticks e d' t' Hwf Hnext Hvalid)
    as (k & T & Hskip & Htag & Hfit & Hok & He & Hd & Ht).
  cbn zeta in *. exists k, T.
  destruct (view_well_formed (mapped_data_ d) (current_pos_ d + Z.of_nat k) T)
    as [Hw Hk]; try done; try lia.
  rewrite He. cbn [payload]. by split_and!.
Qed.

(** ** The facts on sample feeds *)

Lemma sample_add_well_formed : well_formed sample_add.
Proof.
  unfold well_formed, representable, sample_add, uint64_t, int64_t, uint32_t; simpl.
  split_and!; try done; try lia. by left.
Qed.

Lemma sample_delete_well_formed : well_formed sample_delete.
Proof.
  unfold well_formed, representable, sample_delete, uint64_t; simpl.
  split_and!; try done; lia.
Qed.

Lemma view_object_bytes_witness :
  object_bytes sample_add = test_add_record ∧
  Z.of_nat (length (object_bytes sample_add)) = sizeof KAdd ∧
  view KAdd (object_bytes sample_add) = sample_add.
Proof.
  split; [by vm_compute|].
  exact (view_object_bytes sample_add KAdd (proj1 sample_add_well_formed) eq_refl).
Defined.

Lemma sample_feed_wf : wf (mkDecoder (test_add_record ++ delete_record) 53 0).
Proof. unfold wf; simpl. split_and!; try done; lia. Qed.

Lemma noisy_feed_wf : wf (mkDecoder noisy_feed 18 0).
Proof. unfold wf; simpl. split_and!; try done; lia. Qed.

Lemma next_decodes_written_record_witness :
  let d := mkDecoder (test_add_record ++ delete_record) 53 0 in
  let r := next sample_clock d 0 in
  r = (event_of sample_add (sample_clock 0),
       set_pos d (0 + Z.of_nat (length (object_bytes sample_add))), 1%nat) ∧
  type r.1.1 ≠ INVALID ∧ payload r.1.1 = sample_add ∧
  decode_timestamp_us r.1.1 = sample_clock 0 ∧
  position r.1.2 ≤ size d.
Proof.
  assert (bytes_at (test_add_record ++ delete_record) 0
            (Z.of_nat (length (object_bytes sample_add)))
          = object_bytes sample_add) as Hat by (by vm_compute).
  exact (next_decodes_written_record sample_clock
           (mkDecoder (test_add_record ++ delete_record) 53 0) 0 sample_add
           sample_feed_wf sample_add_well_formed Hat).
Defined.

Lemma decode_all_written_stream_witness :
  ∃ d,
    Decoder_open (concat (object_bytes <$> [sample_add; sample_delete])) = Some d ∧
    decode_all 5 sample_clock d 0
    = (imap (λ i p, event_of p (sample_clock i)) [sample_add; sample_delete],
       set_pos d (size d), 2%nat, true) ∧
    has_next (set_pos d (size d)) = false.
Proof.
  assert (Forall well_formed [sample_add; sample_delete]) as Hall
    by (apply Forall_cons; split; [apply sample_add_well_formed|];
        apply Forall_cons; split; [apply sample_delete_well_formed | constructor]).
  assert ([sample_add; sample_delete] ≠ []) as Hne by done.
  assert (Z.of_nat (length (concat (object_bytes <$> [sample_add; sample_delete])))
          < 2 ^ 63) as Hsmall by (by vm_compute).
  assert (length [sample_add; sample_delete] ≤ 5)%nat as Hfuel by (simpl; lia).
  exact (decode_all_written_stream sample_clock [sample_add; sample_delete] 5
           Hall Hne Hsmall Hfuel).
Defined.

Lemma next_event_sound_witness :
  ∃ (k : nat) (T : MsgKind),
    (∀ j : nat, (j < k)%nat → tag_of (byte_at noisy_feed (0 + Z.of_nat j)) = None) ∧
    tag_of (byte_at noisy_feed (0 + Z.of_nat k)) = Some T ∧
    0 + Z.of_nat k + sizeof T ≤ 18 ∧
    mkEvent DELETE_ORDER sample_delete 1001
    = mkEvent (event_type_of T)
        (view T (bytes_at noisy_feed (0 + Z.of_nat k) (sizeof T)))
        (sample_clock (0 + k)%nat) ∧
    set_pos (mkDecoder noisy_feed 18 0) 18
    = set_pos (mkDecoder noisy_feed 18 0) (0 + Z.of_nat k + sizeof T) ∧
    2%nat = S (0 + k) ∧
    well_formed sample_delete ∧ kind_of sample_delete = Some T.
Proof.
  assert (next sample_clock (mkDecoder noisy_feed 18 0) 0
          = (mkEvent DELETE_ORDER sample_delete 1001,
             set_pos (mkDecoder noisy_feed 18 0) 18, 2%nat)) as Hnext
    by (by vm_compute).
  assert (type (mkEvent DELETE_ORDER sample_delete 1001) ≠ INVALID) as Hty by done.
  exact (next_event_sound sample_clock (mkDecoder noisy_feed 18 0) 0 _ _ _
           noisy_feed_wf Hnext Hty).
Defined.

Lemma truncated_feed_wf : wf (mkDecoder ("X"%byte :: take 10 delete_record) 11 0).
Proof. unfold wf; simpl. split_and!; try done; lia. Qed.

Lemma next_invalid_cases_witness :
  let d := mkDecoder ("X"%byte :: take 10 delete_record) 11 0 in
  ∃ k : nat,
    let pos := current_pos_ d + Z.of_nat k in
    (∀ j : nat, (j < k)%nat →
       tag_of (byte_at (mapped_data_ d) (current_pos_ d + Z.of_nat j)) = None) ∧
    Event_default = Event_default ∧ set_pos d 1 = set_pos d pos ∧
    ((pos = file_size_ d ∧ 2%nat = (0 + k)%nat) ∨
     (pos < file_size_ d ∧ 2%nat = S (0 + k) ∧
      ∃ T, tag_of (byte_at (mapped_data_ d) pos) = Some T ∧
           (pos + sizeof T > file_size_ d ∨
            fails_validation T (bytes_at (mapped_data_ d) pos (sizeof T))))).
Proof.
  assert (has_next (mkDecoder ("X"%byte :: take 10 delete_record) 11 0) = true)
    as Hn by reflexivity.
  assert (next sample_clock (mkDecoder ("X"%byte :: take 10 delete_record) 11 0) 0
          = (Event_default,
             set_pos (mkDecoder ("X"%byte :: take 10 delete_record) 11 0) 1, 2%nat))
    as Hnext by (by vm_compute).
  assert (type Event_default = INVALID) as Hty by reflexivity.
  exact (next_invalid_cases sample_clock _ 0 _ _ _ truncated_feed_wf Hn Hnext Hty).
Defined.

Lemma next_keeps_cursor_in_file_witness :
  let r := next sample_clock (mkDecoder noisy_feed 18 0) 0 in
  wf r.1.2 ∧
  mapped_data_ r.1.2 = noisy_feed ∧ file_size_ r.1.2 = 18 ∧
  0 ≤ position r.1.2 ≤ 18 ∧
  (type r.1.1 ≠ INVALID → 0 + 17 ≤ position r.1.2) ∧
  (0 ≤ r.2)%nat.
Proof.
  exact (next_keeps_cursor_in_file sample_clock (mkDecoder noisy_feed 18 0) 0
           noisy_feed_wf).
Defined.

Lemma stuck_feed_wf :
  wf (mkDecoder (delete_record ++ bad_side_add_record ++ delete_record) 70 0).
Proof. unfold wf; simpl. split_and!; try done; lia. Qed.

Lemma decode_all_ends_or_sticks_witness :
  let d := mkDecoder (delete_record ++ bad_side_add_record ++ delete_record) 70 0 in
  ∃ es d',
    (position d' = size d ∧
     ∀ fuel, (Z.to_nat (file_size_ d - current_pos_ d) ≤ fuel)%nat →
             ∃ t', decode_all fuel sample_clock d 0 = (es, d', t', true)) ∨
    (stuck d' ∧
     ∀ fuel, (Z.to_nat (file_size_ d - current_pos_ d) ≤ fuel)%nat →
             ∃ t', decode_all fuel sample_clock d 0 = (es, d', t', false)).
Proof.
  exact (decode_all_ends_or_sticks sample_clock
           (mkDecoder (delete_record ++ bad_side_add_record ++ delete_record) 70 0) 0
           stuck_feed_wf).
Defined.
End WireFacts.

(** * More facts about symbols *)

Module SymbolLaws.
Import Feed SymbolHash SymbolFacts.
Import WireFacts (byte_eqb_reflect).

(** ** Comparison *)

Lemma byte_eqb_sym (x y : byte) : Byte.eqb x y = Byte.eqb y x.
Proof.
  destruct (Byte.eqb x y) eqn:E1, (Byte.eqb y x) eqn:E2; try done.
  - apply byte_dec_bl in E1 as ->. apply Byte.eqb_false in E2. done.
  - apply byte_dec_bl in E2 as ->. apply Byte.eqb_false in E1. done.
Qed.

Lemma memcmp_swap n : ∀ a b : list byte, memcmp a b n = - memcmp b a n.
Proof.
  induction n as [|n IH]; intros [|x a] [|y b]; simpl; try done.
  rewrite (byte_eqb_sym y x). destruct (Byte.eqb x y); [apply IH | lia].
Qed.

Lemma memcmp_lt_trans n : ∀ a b c : list byte,
  length a = n → length b = n → length c = n →
  memcmp a b n < 0 → memcmp b c n < 0 → memcmp a c n < 0.
Proof.
  induction n as [|n IH]; intros [|x a] [|y b] [|z c] Ha Hb Hc; simpl in *; try lia.
  destruct (Byte.eqb x y) eqn:Exy; destruct (Byte.eqb y z) eqn:Eyz.
  - apply byte_dec_bl in Exy as ->. rewrite Eyz. apply IH; lia.
  - apply byte_dec_bl in Exy as ->. rewrite Eyz. done.
  - apply byte_dec_bl in Eyz as ->. rewrite Exy. done.
  - intros Hxy Hyz. destruct (Byte.eqb x z) eqn:Exz.
    + apply byte_dec_bl in Exz as ->. lia.
    + lia.
Qed.

(** X18: on symbols [operator<] is a strict order, exactly one of [a < b],
    [a == b], [b < a] holds, and symbols that are [==] are the same six bytes
    and have the same [std::hash]. *)
Theorem symbol_order_laws (a b c : Symbol) (char_is_signed : bool) :
  length (data a) = 6%nat → length (data b) = 6%nat → length (data c) = 6%nat →
  Symbol_lt a a = false ∧
  (Symbol_lt a b = true → Symbol_lt b c = true → Symbol_lt a c = true) ∧
  (Symbol_lt a b = true ∧ Symbol_eq a b = false ∧ Symbol_lt b a = false ∨
   Symbol_lt a b = false ∧ Symbol_eq a b = true ∧ Symbol_lt b a = false ∨
   Symbol_lt a b = false ∧ Symbol_eq a b = false ∧ Symbol_lt b a = true) ∧
  (Symbol_eq a b = true → a = b ∧ hash char_is_signed a = hash char_is_signed b).
Proof.
  intros Ha Hb Hc. unfold Symbol_lt, Symbol_eq. split_and!.
  - pose proof (memcmp_swap 6 (data a) (data a)). apply Z.ltb_ge. lia.
  - rewrite !Z.ltb_lt. by apply memcmp_lt_trans.
  - pose proof (memcmp_swap 6 (data a) (data b)) as Hs.
    destruct (Z.ltb_spec (memcmp (data a) (data b) 6) 0);
      destruct (Z.eqb_spec (memcmp (data a) (data b) 6) 0);
      destruct (Z.ltb_spec (memcmp (data b) (data a) 6) 0); try lia; tauto.
  - intros H0%Z.eqb_eq. apply memcmp_zero_iff in H0; [|done..].
    destruct a, b; simpl in *; by subst.
Qed.

(** ** [to_string] *)

Lemma strip_trailing (c : byte) (l : list byte) :
  ∃ s k, l = s ++ replicate k c ∧ last s ≠ Some c.
Proof.
  induction l as [|b l IH] using rev_ind.
  - by exists [], 0%nat.
  - destruct (byte_eqb_reflect b c) as [->|Hne].
    + destruct IH as (s & k & -> & Hlast). exists s, (S k). split; [|done].
      rewrite <- app_assoc. f_equal.
      change [c] with (replicate 1 c). rewrite <- replicate_add.
      f_equal. lia.
    + exists (l ++ [b]), 0%nat. rewrite app_nil_r. split; [done|].
      rewrite last_snoc. congruence.
Qed.

(** X19: [to_string] strips the trailing spaces and nothing else: the six
    bytes of a symbol are its string followed by spaces only, and the string
    does not end in a space (it is empty for an all-space symbol). *)
Theorem to_string_trims (s : Symbol) :
  length (data s) = 6%nat →
  last (to_string s) ≠ Some " "%byte ∧
  ∃ k, data s = to_string s ++ replicate k " "%byte.
Proof.
  intros Hlen. unfold to_string. rewrite (take_ge (data s) 6) by lia.
  destruct (strip_trailing " " (data s)) as (t & k & Heq & Hlast).
  rewrite Heq, (find_last_not_of_padded t k Hlast).
  assert (length t ≤ 6)%nat as Ht.
  { rewrite Heq, length_app in Hlen. lia. }
  assert (take (Z.to_nat (wrap64 ((if decide (t = []) then npos
                                   else Z.of_nat (length t) - 1) + 1)))
               (t ++ replicate k " "%byte) = t) as ->.
  { destruct (decide (t = [])) as [->|Hne].
    - done.
    - assert (length t ≠ 0%nat) by (by destruct t).
      rewrite wrap64_small by lia.
      replace (Z.to_nat (Z.of_nat (length t) - 1 + 1)) with (length t) by lia.
      by rewrite take_app_length. }
  split; [done|]. by exists k.
Qed.

(** ** The constructor on any C string *)

Lemma strlen_le (s : list byte) : (strlen s ≤ length s)%nat.
Proof.
  induction s as [|b s IH]; simpl; [done|]. destruct (Byte.eqb b "000"); lia.
Qed.

Lemma strlen_prefix (s : list byte) k :
  (k ≤ strlen s)%nat → Forall (λ b, b ≠ "000"%byte) (take k s).
Proof.
  revert k. induction s as [|b s IH]; intros k Hk; simpl in *.
  - rewrite take_nil. constructor.
  - destruct k as [|k]; [constructor|]. simpl.
    destruct (byte_eqb_reflect b "000"); [lia|].
    constructor; [done|]. apply IH. lia.
Qed.

Lemma strlen_take (s : list byte) k : strlen (take k s) = (strlen s `min` k)%nat.
Proof.
  revert k. induction s as [|b s IH]; intros k; simpl.
  - by rewrite take_nil.
  - destruct k as [|k]; simpl; [by destruct (Byte.eqb b "000"); lia|].
    destruct (Byte.eqb b "000"); [done|]. by rewrite IH.
Qed.

Lemma Symbol_of_clamped (s : list byte) :
  data (Symbol_of s)
  = take (strlen s `min` 5) s ++ replicate (6 - strlen s `min` 5) " "%byte.
Proof.
  unfold Symbol_of. cbn [data].
  assert (Z.to_nat (if Z.of_nat (strlen s) >? 5 then 5 else Z.of_nat (strlen s))
          = (strlen s `min` 5)%nat) as ->.
  { destruct (Z.gtb_spec (Z.of_nat (strlen s)) 5); lia. }
  by rewrite drop_replicate.
Qed.

(** X20: whatever C string it is given, [Symbol(str)] stores six bytes, the
    sixth a space, none a NUL, and depends on the first five bytes of [str]
    only. *)
Theorem Symbol_of_shape (s : list byte) :
  length (data (Symbol_of s)) = 6%nat ∧
  data (Symbol_of s) !! 5%nat = Some " "%byte ∧
  Forall (λ b, b ≠ "000"%byte) (data (Symbol_of s)) ∧
  Symbol_of (take 5 s) = Symbol_of s.
Proof.
  pose proof (strlen_le s) as Hle.
  assert (length (take (strlen s `min` 5) s) = (strlen s `min` 5)%nat) as Hlen
    by (rewrite length_take; lia).
  split_and!.
  - rewrite Symbol_of_clamped, length_app, length_replicate, Hlen. lia.
  - rewrite Symbol_of_clamped, lookup_app_r by lia.
    apply lookup_replicate. split; [done|]. lia.
  - rewrite Symbol_of_clamped. apply Forall_app. split.
    + apply strlen_prefix. lia.
    + apply Forall_forall. intros b Hb%elem_of_replicate. by destruct Hb as [-> _].
  - assert (data (Symbol_of (take 5 s)) = data (Symbol_of s)) as Hd.
    { rewrite !Symbol_of_clamped, strlen_take, take_take.
      f_equal; f_equal; lia. }
    destruct (Symbol_of (take 5 s)), (Symbol_of s); simpl in *; by subst.
Qed.

Lemma symbol_order_laws_witness :
  let a := Symbol_of (list_byte_of_string "AAPL") in
  let b := Symbol_of (list_byte_of_string "MSFT") in
  let c := Symbol_of (list_byte_of_string "TSLA") in
  Symbol_lt a a = false ∧
  (Symbol_lt a b = true → Symbol_lt b c = true → Symbol_lt a c = true) ∧
  (Symbol_lt a b = true ∧ Symbol_eq a b = false ∧ Symbol_lt b a = false ∨
   Symbol_lt a b = false ∧ Symbol_eq a b = true ∧ Symbol_lt b a = false ∨
   Symbol_lt a b = false ∧ Symbol_eq a b = false ∧ Symbol_lt b a = true) ∧
  (Symbol_eq a b = true → a = b ∧ hash true a = hash true b).
Proof.
  exact (symbol_order_laws (Symbol_of (list_byte_of_string "AAPL"))
           (Symbol_of (list_byte_of_string "MSFT"))
           (Symbol_of (list_byte_of_string "TSLA")) true eq_refl eq_refl eq_refl).
Defined.

Lemma to_string_trims_witness :
  last (to_string (Symbol_of (list_byte_of_string "AAPL"))) ≠ Some " "%byte ∧
  ∃ k, data (Symbol_of (list_byte_of_string "AAPL"))
       = to_string (Symbol_of (list_byte_of_string "AAPL")) ++ replicate k " "%byte.
Proof.
  exact (to_string_trims (Symbol_of (list_byte_of_string "AAPL")) eq_refl).
Defined.
End SymbolLaws.

(** * Facts about publisher sessions *)

Module SessionFacts.
Import Publish Session.

Lemma append_assoc (a b c : string) : (a +:+ b) +:+ c = a +:+ (b +:+ c).
Proof.
  induction a as [|x a IH]; [done|].
  change (String x ((a +:+ b) +:+ c) = String x (a +:+ b +:+ c)). by f_equal.
Qed.

Lemma append_nil_r (a : string) : a +:+ "" = a.
Proof.
  induction a as [|x a IH]; [done|].
  change (String x (a +:+ "") = String x a). by f_equal.
Qed.

Lemma calls_printed cs : ∀ out,
  calls (mkPublisher out true) cs = mkPublisher (out +:+ body cs) true.
Proof.
  induction cs as [|[ts sym tob|] cs IH]; intros out.
  - cbn [body calls foldl]. by rewrite append_nil_r.
  - change (calls (mkPublisher (out +:+ data_row ts sym tob) true) cs
            = mkPublisher (out +:+ data_row ts sym tob +:+ body cs) true).
    by rewrite IH, append_assoc.
  - change (calls (mkPublisher (out +:+ header) true) cs
            = mkPublisher (out +:+ header +:+ body cs) true).
    by rewrite IH, append_assoc.
Qed.

(** X21: a publisher writes its header by itself once, right before the
    first published row; rows follow in call order; a [print_header] called by
    hand writes one more header line each time and is not remembered. *)
Theorem header_before_first_publish (out : string) (cs : list Call) :
  output_ (calls (make out) cs) = out +:+ transcript cs ∧
  header_printed_ (calls (make out) cs) = existsb is_publish cs.
Proof.
  unfold make. revert out. induction cs as [|[ts sym tob|] cs IH]; intros out.
  - cbn [transcript calls foldl output_ header_printed_ existsb].
    by rewrite append_nil_r.
  - change (calls (mkPublisher out false) (PublishRow ts sym tob :: cs))
      with (calls (mkPublisher ((out +:+ header) +:+ data_row ts sym tob) true) cs).
    rewrite calls_printed. cbn [output_ header_printed_ transcript existsb is_publish orb].
    by rewrite !append_assoc.
  - change (calls (mkPublisher out false) (PrintHeader :: cs))
      with (calls (mkPublisher (out +:+ header) false) cs).
    destruct (IH (out +:+ header)) as [-> ->].
    cbn [transcript existsb is_publish orb]. by rewrite append_assoc.
Qed.
End SessionFacts.

(** * The sign of a printed price *)

Module PriceSign.
Import Publish Session.

(** ** The sign bit through conversion and division *)

Lemma binary_round_aux_sign s m e l :
  binary_round_aux prec emax (negb s) m e l
  = SFopp (binary_round_aux prec emax s m e l).
Proof.
  unfold binary_round_aux.
  destruct (shr_fexp prec emax m e l) as [mrs e'].
  destruct (shr_fexp prec emax _ e' loc_Exact) as [mrs' e''].
  destruct (shr_m mrs'); [done| |done].
  destruct (e'' <=? emax - prec); done.
Qed.

Lemma shr_1_keeps_nonneg mrs : 0 ≤ shr_m mrs → 0 ≤ shr_m (shr_1 mrs).
Proof.
  destruct mrs as [m r s]. simpl. destruct m as [|[p|p|]|p]; simpl; lia.
Qed.

Lemma iter_shr_1_nonneg p : ∀ mrs,
  0 ≤ shr_m mrs → 0 ≤ shr_m (SpecFloat.iter_pos shr_1 p mrs).
Proof.
  induction p as [p IH|p IH|]; intros mrs Hm; simpl.
  - apply IH, IH. by apply shr_1_keeps_nonneg.
  - by apply IH, IH.
  - by apply shr_1_keeps_nonneg.
Qed.

Lemma shr_fexp_nonneg m e l :
  0 ≤ m → 0 ≤ shr_m (shr_fexp prec emax m e l).1.
Proof.
  intros Hm. unfold shr_fexp, shr.
  assert (0 ≤ shr_m (shr_record_of_loc m l)) as H0
    by (destruct l as [|[| |]]; done).
  destruct (fexp prec emax (Zdigits2 m + e) - e); simpl; try done.
  by apply iter_shr_1_nonneg.
Qed.

Lemma round_nearest_even_nonneg q l : 0 ≤ q → 0 ≤ round_nearest_even q l.
Proof.
  intros Hq. destruct l as [|[| |]]; simpl; try lia. destruct (Z.even q); lia.
Qed.

Lemma binary_round_aux_sign_clear m e l :
  0 ≤ m → sign_clear (binary_round_aux prec emax false m e l).
Proof.
  intros Hm. unfold binary_round_aux.
  pose proof (shr_fexp_nonneg m e l Hm) as H1.
  destruct (shr_fexp prec emax m e l) as [mrs e']. simpl in H1.
  pose proof (shr_fexp_nonneg _ e' loc_Exact
                (round_nearest_even_nonneg _ (loc_of_shr_record mrs) H1)) as H2.
  destruct (shr_fexp prec emax _ e' loc_Exact) as [mrs' e'']. simpl in H2.
  destruct (shr_m mrs'); [done| |lia].
  destruct (e'' <=? emax - prec); done.
Qed.

Lemma double_of_int64_neg z :
  0 < z → double_of_int64 (- z) = SFopp (double_of_int64 z).
Proof.
  intros Hz. destruct z as [|p|p]; try lia.
  unfold double_of_int64, binary_normalize. change (- Z.pos p) with (Z.neg p).
  cbv iota. unfold binary_round.
  destruct (shl_align p 0 (fexp prec emax (Z.pos (digits2_pos p) + 0))) as [mz ez].
  apply (binary_round_aux_sign false).
Qed.

Lemma double_of_int64_sign_clear z : 0 < z → sign_clear (double_of_int64 z).
Proof.
  intros Hz. destruct z as [|p|p]; try lia.
  unfold double_of_int64, binary_normalize, binary_round.
  destruct (shl_align p 0 (fexp prec emax (Z.pos (digits2_pos p) + 0))) as [mz ez].
  apply binary_round_aux_sign_clear. lia.
Qed.

Lemma SFdiv_core_binary_nonneg m1 e1 m2 e2 :
  0 < m1 → 0 < m2 → 0 ≤ (SFdiv_core_binary prec emax m1 e1 m2 e2).1.1.
Proof.
  intros H1 H2. unfold SFdiv_core_binary.
  set (s := e1 - e2 - _).
  set (m' := match s with Z.pos _ => Z.shiftl m1 s | 0 => m1 | Z.neg _ => 0 end).
  assert (0 ≤ m') as Hm'.
  { unfold m'. destruct s; try lia. apply Z.shiftl_nonneg. lia. }
  pose proof (Z.div_eucl_eq m' m2 ltac:(lia)) as Heq.
  pose proof (Z.mod_pos_bound m' m2 H2) as Hr.
  unfold Z.modulo in Hr.
  destruct (Z.div_eucl m' m2) as [q r]. simpl. nia.
Qed.

Lemma double_div_neg x :
  double_div (SFopp x) double_1e9 = SFopp (double_div x double_1e9).
Proof.
  unfold double_div, double_1e9, SFdiv.
  destruct x as [s|s| |s m e]; simpl SFopp; cbv iota; rewrite ?xorb_false_r;
    try done.
  destruct (SFdiv_core_binary prec emax (Z.pos m) e 8388608000000000 (-23))
    as [[mz ez] lz].
  apply binary_round_aux_sign.
Qed.

Lemma double_div_sign_clear x :
  sign_clear x → sign_clear (double_div x double_1e9).
Proof.
  unfold double_div, double_1e9, SFdiv.
  destruct x as [s|s| |s m e]; simpl; try done; intros ->; try done. simpl.
  pose proof (SFdiv_core_binary_nonneg (Z.pos m) e 8388608000000000 (-23)
                ltac:(lia) ltac:(lia)) as Hq.
  destruct (SFdiv_core_binary prec emax (Z.pos m) e 8388608000000000 (-23))
    as [[mz ez] lz]. simpl in Hq.
  by apply binary_round_aux_sign_clear.
Qed.

Lemma fixed9_opp x : sign_clear x → fixed9 (SFopp x) = "-" +:+ fixed9 x.
Proof. destruct x as [s|s| |s m e]; simpl; try done; by intros ->. Qed.

(** X22: a negative price prints as a minus sign followed by the text of
    the positive price, for every positive [price_nano]. *)
Theorem format_price_negative (price_nano : Z) :
  0 < price_nano →
  format_price (- price_nano) = "-" +:+ format_price price_nano.
Proof.
  intros Hz. unfold format_price.
  rewrite double_of_int64_neg, double_div_neg by done.
  apply fixed9_opp, double_div_sign_clear. by apply double_of_int64_sign_clear.
Qed.

Lemma format_price_negative_witness :
  format_price (- 150500000000) = "-" +:+ format_price 150500000000.
Proof.
  assert (0 < 150500000000) as Hpos by lia.
  exact (format_price_negative 150500000000 Hpos).
Defined.
End PriceSign.

(** * Facts about the consumer *)

Module ConsumerFacts.
Import Feed Consumer BookLaws.

(** ** The two ways the consumer finds a book *)

Lemma probe_cases (f : Book.OrderBook → bool * Book.OrderBook) (books : Books) :
  (∀ b, (f b).1 = false → (f b).2 = b) →
  (Forall (rejects f) books ∧ probe f books = (None, books)) ∨
  (∃ pre sym b post,
     books = pre ++ (sym, b) :: post ∧ Forall (rejects f) pre ∧ (f b).1 = true ∧
     probe f books = (Some sym, pre ++ (sym, (f b).2) :: post)).
Proof.
  intros Hrej. induction books as [|[sym b] rest IH]; simpl.
  - left. by split.
  - destruct (f b) as [ok b'] eqn:Hf. destruct ok.
    + right. exists [], sym, b, rest. rewrite Hf. by split_and!.
    + assert (b' = b) as -> by (specialize (Hrej b); rewrite Hf in Hrej; by apply Hrej).
      assert (rejects f (sym, b)) as Hr by (unfold rejects; simpl; by rewrite Hf).
      destruct IH as [[Hall ->]|(pre & sym' & b0 & post & -> & Hpre & Hacc & ->)].
      * left. split; [by constructor | done].
      * right. exists ((sym, b) :: pre), sym', b0, post. split_and!; try done.
        by constructor.
Qed.

Lemma at_symbol_cases symbol (f : Book.OrderBook → bool * Book.OrderBook)
    (books : Books) :
  (Forall (λ entry, Symbol_eq entry.1 symbol = false) books ∧
   at_symbol symbol f books = (None, books)) ∨
  (∃ pre sym b post,
     books = pre ++ (sym, b) :: post ∧
     Forall (λ entry, Symbol_eq entry.1 symbol = false) pre ∧
     Symbol_eq sym symbol = true ∧
     at_symbol symbol f books = (Some (f b).1, pre ++ (sym, (f b).2) :: post)).
Proof.
  induction books as [|[sym b] rest IH]; simpl.
  - left. by split.
  - destruct (Symbol_eq sym symbol) eqn:Heq.
    + right. exists [], sym, b, rest. destruct (f b). by split_and!.
    + destruct IH as [[Hall ->]|(pre & sym' & b0 & post & -> & Hpre & Hacc & ->)].
      * left. split; [by constructor | done].
      * right. exists ((sym, b) :: pre), sym', b0, post. split_and!; try done.
        by constructor.
Qed.

(** ** One event *)

Lemma op_of_cases e op :
  op_of e = Some op →
  match op with
  | Book.Add i s p q =>
      ∃ msg, type e = ADD_ORDER ∧ payload e = payload_add msg ∧
             i = AddOrderMsg.order_id msg ∧ s = side_of (AddOrderMsg.side msg) ∧
             p = AddOrderMsg.px_nano msg ∧ q = AddOrderMsg.qty msg
  | Book.Modify i p q =>
      ∃ msg, type e = MODIFY_ORDER ∧ payload e = payload_modify msg ∧
             i = ModifyOrderMsg.order_id msg ∧ p = ModifyOrderMsg.new_px_nano msg ∧
             q = ModifyOrderMsg.new_qty msg
  | Book.Execute i q =>
      ∃ msg, type e = EXECUTE_ORDER ∧ payload e = payload_execute msg ∧
             i = ExecuteOrderMsg.order_id msg ∧ q = ExecuteOrderMsg.exec_qty msg
  | Book.Delete i =>
      ∃ msg, type e = DELETE_ORDER ∧ payload e = payload_delete_order msg ∧
             i = DeleteOrderMsg.order_id msg
  end.
Proof.
  unfold op_of. destruct e as [ty pl ts]; simpl.
  destruct ty, pl; intros [= <-]; by eexists.
Qed.

Lemma process_probe (books : Books) (e : Event) (op : Book.Op) :
  op_of e = Some op → type e ≠ ADD_ORDER →
  process books e
  = (bool_decide (is_Some (probe (λ b, Book.apply_op b op) books).1),
     default Symbol_default (probe (λ b, Book.apply_op b op) books).1,
     (probe (λ b, Book.apply_op b op) books).2).
Proof.
  intros Hop Hty. apply op_of_cases in Hop.
  destruct op as [i s p q|i p q|i q|i];
    destruct Hop as (msg & Hty' & Hpl & Hargs); try congruence;
    unfold process; rewrite Hty', Hpl; destruct_and?; subst; simpl;
    by destruct (probe _ books).
Qed.

Lemma process_add (books : Books) (e : Event) (msg : AddOrderMsg.t) :
  type e = ADD_ORDER → payload e = payload_add msg →
  let op := Book.Add (AddOrderMsg.order_id msg) (side_of (AddOrderMsg.side msg))
              (AddOrderMsg.px_nano msg) (AddOrderMsg.qty msg) in
  let r := at_symbol (Symbol_of (AddOrderMsg.symbol msg))
             (λ b, Book.apply_op b op) books in
  process books e = (default false r.1, Symbol_of (AddOrderMsg.symbol msg), r.2).
Proof.
  intros Hty Hpl. cbn zeta. unfold process. rewrite Hty, Hpl. simpl.
  by destruct (at_symbol _ _ books).
Qed.

Lemma process_changes_one_book (books : Books) (e : Event) :
  (process books e).2 = books ∨
  ∃ pre sym b post op,
    op_of e = Some op ∧ books = pre ++ (sym, b) :: post ∧
    (Book.apply_op b op).1 = true ∧
    (process books e).2 = pre ++ (sym, (Book.apply_op b op).2) :: post.
Proof.
  destruct (op_of e) as [op|] eqn:Hop.
  2: { left. unfold process, op_of in *. destruct (type e), (payload e); done. }
  assert (type e = ADD_ORDER ∨ type e ≠ ADD_ORDER) as [Hadd|Hne]
    by (destruct (type e); (by left) || by right).
  - pose proof Hop as Hop'. apply op_of_cases in Hop'.
    destruct op as [i s p q|i p q|i q|i];
      destruct Hop' as (msg & Hty & Hpl & Hargs); try congruence.
    destruct Hargs as (-> & -> & -> & ->).
    rewrite (process_add books e msg Hty Hpl). cbn zeta. cbn [snd].
    destruct (at_symbol_cases (Symbol_of (AddOrderMsg.symbol msg))
                (λ b, Book.apply_op b
                        (Book.Add (AddOrderMsg.order_id msg)
                           (side_of (AddOrderMsg.side msg))
                           (AddOrderMsg.px_nano msg) (AddOrderMsg.qty msg))) books)
      as [[_ ->]|(pre & sym & b & post & Hb & _ & _ & ->)]; [by left|].
    cbn [snd].
    destruct (Book.apply_op b
                (Book.Add (AddOrderMsg.order_id msg) (side_of (AddOrderMsg.side msg))
                   (AddOrderMsg.px_nano msg) (AddOrderMsg.qty msg))).1 eqn:Hacc.
    + right. exists pre, sym, b, post. eexists. by split_and!.
    + left. rewrite apply_op_rejected by done. by rewrite Hb.
  - rewrite (process_probe books e op Hop Hne). cbn [snd].
    destruct (probe_cases (λ b, Book.apply_op b op) books
                (λ b, apply_op_rejected b op))
      as [[_ ->]|(pre & sym & b & post & Hb & _ & Hacc & ->)]; [by left|].
    right. exists pre, sym, b, post, op. by split_and!.
Qed.

(** X23: a Modify, Execute or Delete event changes the first book, in the
    iteration order of the map, that accepts the operation, and no other; when
    no book accepts, no book changes and the event counts as not processed. *)
Theorem process_first_acceptor (books : Books) (e : Event) (op : Book.Op) :
  op_of e = Some op → type e ≠ ADD_ORDER →
  (Forall (rejects (λ b, Book.apply_op b op)) books ∧
   process books e = (false, Symbol_default, books)) ∨
  (∃ pre sym b post,
     books = pre ++ (sym, b) :: post ∧
     Forall (rejects (λ b, Book.apply_op b op)) pre ∧
     (Book.apply_op b op).1 = true ∧
     process books e = (true, sym, pre ++ (sym, (Book.apply_op b op).2) :: post)).
Proof.
  intros Hop Hty. apply op_of_cases in Hop.
  destruct (probe_cases (λ b, Book.apply_op b op) books
              (λ b, apply_op_rejected b op))
    as [[Hall Hp]|(pre & sym & b & post & Hb & Hpre & Hacc & Hp)];
    [left; split; [done|] | right; exists pre, sym, b, post; split_and!; try done];
    destruct op as [i s p q|i p q|i q|i];
    destruct Hop as (msg & Hty' & Hpl & Hargs); try congruence;
    unfold process; rewrite Hty', Hpl;
    destruct_and?; subst; simpl in Hp; by rewrite Hp.
Qed.

(** X24: an Add event reaches the book filed under [Symbol(msg.symbol)]
    and no other; for a symbol that is not configured the books are unchanged
    and the event counts as not processed. *)
Theorem process_add_addressed_book (books : Books) (e : Event)
    (msg : AddOrderMsg.t) :
  type e = ADD_ORDER → payload e = payload_add msg →
  let symbol := Symbol_of (AddOrderMsg.symbol msg) in
  let op := Book.Add (AddOrderMsg.order_id msg) (side_of (AddOrderMsg.side msg))
              (AddOrderMsg.px_nano msg) (AddOrderMsg.qty msg) in
  (Forall (λ entry, Symbol_eq entry.1 symbol = false) books ∧
   process books e = (false, symbol, books)) ∨
  (∃ pre sym b post,
     books = pre ++ (sym, b) :: post ∧
     Forall (λ entry, Symbol_eq entry.1 symbol = false) pre ∧
     Symbol_eq sym symbol = true ∧
     process books e
     = ((Book.apply_op b op).1, symbol, pre ++ (sym, (Book.apply_op b op).2) :: post)).
Proof.
  intros Hty Hpl. cbn zeta. unfold process. rewrite Hty, Hpl.
  destruct (at_symbol_cases (Symbol_of (AddOrderMsg.symbol msg))
              (λ book, Book.on_add book (AddOrderMsg.order_id msg)
                         (side_of (AddOrderMsg.side msg))
                         (AddOrderMsg.px_nano msg) (AddOrderMsg.qty msg)) books)
    as [[Hall ->]|(pre & sym & b & post & Hb & Hpre & Hkey & ->)].
  - left. by split.
  - right. exists pre, sym, b, post. by split_and!.
Qed.

(** ** Order ids across the books *)

(** An entry of a list with one element replaced is the new element or an
    entry of the old list at the same place. *)
Lemma lookup_replaced {A} (pre post : list A) (x y : A) (j : nat) (a : A) :
  (pre ++ y :: post) !! j = Some a →
  (j = length pre ∧ a = y) ∨ (j ≠ length pre ∧ (pre ++ x :: post) !! j = Some a).
Proof.
  intros Hj. destruct (decide (j = length pre)) as [->|Hne].
  - left. rewrite list_lookup_middle in Hj by done. by injection Hj as <-.
  - right. split; [done|]. destruct (decide (j < length pre)%nat).
    + rewrite lookup_app_l in Hj |- * by done. done.
    + rewrite lookup_app_r in Hj |- * by lia.
      destruct (j - length pre)%nat eqn:Hd; [lia | done].
Qed.

(** The ids an accepted call leaves: an add brings its own id, which was
    not there; the other calls bring none. *)
Lemma accepted_op_ids b op order_id :
  (Book.apply_op b op).1 = true →
  is_Some (Book.orders_ (Book.apply_op b op).2 !! order_id) →
  is_Some (Book.orders_ b !! order_id) ∨
  ∃ s p q, op = Book.Add order_id s p q.
Proof.
  destruct op as [i s p q|i p q|i q|i]; simpl.
  - unfold Book.on_add. destruct (Book.orders_ b !! i); [done|].
    destruct (Book.has_crossing b s p); [done|]. simpl. intros _.
    rewrite BookFacts.orders_add_to_level. simpl.
    destruct (decide (order_id = i)) as [->|Hne]; [right; eauto|].
    rewrite lookup_insert_ne by done. by left.
  - unfold Book.on_modify. destruct (Book.orders_ b !! i) as [o|] eqn:Hi; [|done].
    destruct (q =? 0); [done|].
    destruct (Book.has_crossing b (Book.side o) p); [done|]. simpl. intros _.
    rewrite BookFacts.orders_add_to_level, BookFacts.orders_remove_from_level.
    simpl. destruct (decide (order_id = i)) as [->|Hne]; [by left; rewrite Hi|].
    rewrite lookup_insert_ne by done. by left.
  - unfold Book.on_execute. destruct (Book.orders_ b !! i) as [o|] eqn:Hi; [|done].
    destruct (q >? Book.quantity o); [done|].
    destruct (wrap32 (Book.quantity o - q) =? 0); simpl; intros _;
      rewrite BookFacts.orders_remove_from_level; simpl.
    + intros [_ H]%lookup_delete_is_Some. by left.
    + destruct (decide (order_id = i)) as [->|Hne]; [by left; rewrite Hi|].
      rewrite lookup_insert_ne by done. by left.
  - unfold Book.on_delete. destruct (Book.orders_ b !! i) as [o|] eqn:Hi; [|done].
    simpl. intros _. rewrite BookFacts.orders_remove_from_level. simpl.
    intros [_ H]%lookup_delete_is_Some. by left.
Qed.

Lemma accepted_add_ids b i s p q :
  (Book.on_add b i s p q).1 = true →
  Book.orders_ b !! i = None ∧
  is_Some (Book.orders_ (Book.on_add b i s p q).2 !! i).
Proof.
  unfold Book.on_add. destruct (Book.orders_ b !! i); [done|].
  destruct (Book.has_crossing b s p); [done|]. simpl. intros _. split; [done|].
  rewrite BookFacts.orders_add_to_level. simpl. by rewrite lookup_insert_eq.
Qed.

(** Replacing a book by one that holds no new id keeps the ids apart. *)
Lemma ids_unique_fewer pre sym b b' post :
  (∀ order_id, is_Some (Book.orders_ b' !! order_id) →
               is_Some (Book.orders_ b !! order_id)) →
  ids_unique (pre ++ (sym, b) :: post) → ids_unique (pre ++ (sym, b') :: post).
Proof.
  intros Hsub Huniq j1 j2 e1 e2 id H1 H2 Hid1 Hid2.
  destruct (lookup_replaced pre post (sym, b) _ _ _ H1) as [[-> ->]|[Hn1 H1']];
    destruct (lookup_replaced pre post (sym, b) _ _ _ H2) as [[-> ->]|[Hn2 H2']];
    try done.
  - apply (Huniq _ _ (sym, b) e2 id); try done.
    + by apply list_lookup_middle.
    + by apply Hsub.
  - apply (Huniq _ _ e1 (sym, b) id); try done.
    + by apply list_lookup_middle.
    + by apply Hsub.
  - by apply (Huniq _ _ e1 e2 id).
Qed.

(** An accepted add keeps the ids apart exactly when no book held its id. *)
Lemma ids_unique_add pre sym b post i s p q :
  (Book.on_add b i s p q).1 = true →
  ids_unique (pre ++ (sym, b) :: post) →
  ids_unique (pre ++ (sym, (Book.on_add b i s p q).2) :: post)
  ↔ id_absent i (pre ++ (sym, b) :: post).
Proof.
  intros Hacc Huniq. destruct (accepted_add_ids b i s p q Hacc) as [Hnew Hin].
  split.
  - intros Huniq'. apply Forall_lookup. intros j e Hj.
    destruct (Book.orders_ e.2 !! i) as [o|] eqn:Hi; [|done]. exfalso.
    destruct (lookup_replaced pre post (sym, (Book.on_add b i s p q).2) _ _ _ Hj)
      as [[-> ->]|[Hne Hj']].
    + simpl in Hi. congruence.
    + apply Hne. apply (Huniq' _ _ e (sym, (Book.on_add b i s p q).2) i);
        first [done | by apply list_lookup_middle | by rewrite Hi].
  - intros Habs j1 j2 e1 e2 id H1 H2 Hid1 Hid2.
    assert (∀ j e, (pre ++ (sym, (Book.on_add b i s p q).2) :: post) !! j = Some e →
                   is_Some (Book.orders_ e.2 !! id) →
                   (id = i ∧ j = length pre) ∨
                   (id ≠ i ∧ ∃ e0, (pre ++ (sym, b) :: post) !! j = Some e0 ∧
                                   is_Some (Book.orders_ e0.2 !! id))) as Hcase.
    { intros j e Hj Hid.
      destruct (lookup_replaced pre post (sym, b) _ _ _ Hj) as [[-> ->]|[Hne Hj']].
      - destruct (decide (id = i)) as [->|Hne]; [by left|]. right. split; [done|].
        exists (sym, b). split; [by apply list_lookup_middle|].
        destruct (accepted_op_ids b (Book.Add i s p q) id Hacc Hid)
          as [H|(? & ? & ? & [= ->])]; done.
      - destruct (decide (id = i)) as [->|Hne'].
        + pose proof (proj1 (Forall_lookup _ _) Habs j e Hj') as Hnone.
          simpl in Hnone. rewrite Hnone in Hid. by destruct Hid.
        + right. split; [done|]. by exists e. }
    destruct (Hcase j1 e1 H1 Hid1) as [[Hi1 ->]|[Hne1 (a1 & Ha1 & Hi1)]];
      destruct (Hcase j2 e2 H2 Hid2) as [[Hi2 ->]|[Hne2 (a2 & Ha2 & Hi2)]];
      try done.
    by apply (Huniq _ _ a1 a2 id).
Qed.

(** The consumer keeps the ids apart except through an accepted Add. *)
Lemma process_ids_unique (books : Books) (e : Event) :
  ids_unique books →
  ids_unique (process books e).2
  ↔ ∀ i s p q, op_of e = Some (Book.Add i s p q) → (process books e).1.1 = true →
               id_absent i books.
Proof.
  intros Huniq.
  destruct (op_of e) as [op|] eqn:Hop.
  2: { assert ((process books e).2 = books) as ->.
       { unfold process, op_of in *. destruct (type e), (payload e); done. }
       split; [by intros _ i s p q | done]. }
  pose proof Hop as Hop'. apply op_of_cases in Hop'.
  destruct op as [i s p q|i p q|i q|i].
  2-4: (split; [by intros _ i' s' p' q' [=] | intros _];
        destruct (process_changes_one_book books e)
          as [->|(pre & sym & b & post & op & Hop2 & -> & Hacc & ->)]; [done|];
        rewrite Hop in Hop2; injection Hop2 as <-;
        apply (ids_unique_fewer pre sym b); [|done]; intros id Hid;
        by destruct (accepted_op_ids _ _ id Hacc Hid) as [?|(? & ? & ? & [=])]).
  - destruct Hop' as (msg & Hty & Hpl & -> & -> & -> & ->).
    rewrite (process_add books e msg Hty Hpl). cbn zeta. cbn [fst snd].
    destruct (at_symbol_cases (Symbol_of (AddOrderMsg.symbol msg))
                (λ b, Book.apply_op b
                        (Book.Add (AddOrderMsg.order_id msg)
                           (side_of (AddOrderMsg.side msg))
                           (AddOrderMsg.px_nano msg) (AddOrderMsg.qty msg))) books)
      as [[_ ->]|(pre & sym & b & post & -> & _ & _ & ->)]; cbn [fst snd default].
    { split; [by intros _ i s p q _ | done]. }
    destruct (Book.apply_op b
                (Book.Add (AddOrderMsg.order_id msg) (side_of (AddOrderMsg.side msg))
                   (AddOrderMsg.px_nano msg) (AddOrderMsg.qty msg))).1 eqn:Hacc.
    + cbn [Book.apply_op] in *. rewrite (ids_unique_add _ _ _ _ _ _ _ _ Hacc Huniq).
      split; [by intros H i s p q [= <- _ _ _] _ | intros H; by eapply H].
    + rewrite apply_op_rejected by done. split; [by intros _ i s p q _ | done].
Qed.

(** ** Decoded events and the book invariants *)

Lemma well_formed_quantities e op :
  Wire.well_formed (payload e) → op_of e = Some op → Book.quantities_ok op.
Proof.
  intros [Hr Hv] Hop. apply op_of_cases in Hop.
  destruct op as [i s p q|i p q|i q|i]; destruct Hop as (msg & _ & Hpl & Hargs);
    rewrite Hpl in Hr, Hv; simpl in *; unfold Wire.uint32_t in *;
    destruct_and?; subst; try done; lia.
Qed.

(** X25: feeding the consumer an event that [next] has decoded keeps in
    every book the invariants of that book (an id at most once in it, and
    I2-I5), as long as the level sums fit: the decoder's checks keep a zero
    quantity away from [on_add]. The part of I1 that spans the books, an id
    live in at most one of them, is kept exactly when the event is not an
    accepted Add of an id that some book already holds: the consumer asks
    only the addressed book. *)
Theorem decoded_event_invariants_and_ids (clock : nat → Z) (d : Decoder)
    (ticks : nat) (e : Event) (d' : Decoder) (t' : nat) (books : Books) :
  Feed.wf d → next clock d ticks = (e, d', t') →
  Forall (λ entry, Book.invariants entry.2 ∧ Book.levels_fit entry.2) books →
  Forall (λ entry, Book.levels_fit entry.2) (process books e).2 →
  Forall (λ entry, Book.invariants entry.2) (process books e).2 ∧
  (ids_unique books →
   ids_unique (process books e).2
   ↔ ∀ i s p q, op_of e = Some (Book.Add i s p q) →
                (process books e).1.1 = true → id_absent i books).
Proof.
  intros Hwf Hnext Hbooks Hfit. split; [|apply process_ids_unique].
  destruct (process_changes_one_book books e)
    as [->|(pre & sym & b & post & op & Hop & -> & Hacc & Hp)].
  { eapply Forall_impl; [apply Hbooks|]. by intros entry [? _]. }
  rewrite Hp in *.
  assert (type e ≠ INVALID) as Hvalid.
  { intros Hty. unfold op_of in Hop. by rewrite Hty in Hop. }
  destruct (WireFacts.next_valid_event_well_formed clock d ticks e d' t' Hwf Hnext Hvalid)
    as [Hw _].
  pose proof (well_formed_quantities e op Hw Hop) as Hq.
  apply Forall_app in Hbooks as [Hpre Hrest].
  apply Forall_cons in Hrest as [[Hinv Hlev] Hpost].
  apply Forall_app in Hfit as [_ Hfit]. apply Forall_cons in Hfit as [Hfit _].
  apply Forall_app. split.
  - eapply Forall_impl; [apply Hpre|]. by intros entry [? _].
  - constructor.
    + by apply BookFacts.accepted_op_keeps_invariants.
    + eapply Forall_impl; [apply Hpost|]. by intros entry [? _].
Qed.

(** The consumer does not look at the other books on an Add: with order
    12345 live in the MSFT book, the Add of 12345 for AAPL is accepted, and
    the id is then live in two books. *)
Example accepted_add_shares_id :
  let e := mkEvent ADD_ORDER Wire.sample_add (sample_clock 0) in
  ids_unique books_sharing_id ∧
  (process books_sharing_id e).1.1 = true ∧
  Forall (λ entry, is_Some (Book.orders_ entry.2 !! 12345))
    (process books_sharing_id e).2 ∧
  ¬ ids_unique (process books_sharing_id e).2.
Proof.
  cbn zeta. split.
  { intros j1 j2 e1 e2 id H1 H2 Hid1 Hid2.
    destruct j1 as [|[|j1]], j2 as [|[|j2]]; try done;
      simpl in H1, H2; simplify_eq; simpl in *;
      rewrite lookup_empty in *; by destruct Hid1 || by destruct Hid2. }
  split; [by vm_compute|]. split.
  { repeat (apply Forall_cons; split); [vm_compute; by eexists.. | constructor]. }
  intros H.
  enough (0%nat = 1%nat) by done.
  apply (H 0%nat 1%nat
           (Symbol_of (list_byte_of_string "AAPL"),
            (Book.on_add Book.empty_book 12345 Book.BUY 150000000000 100).2)
           (Symbol_of (list_byte_of_string "MSFT"),
            (Book.on_add Book.empty_book 12345 Book.BUY 300 50).2) 12345);
    vm_compute; first [done | by eexists].
Qed.

Lemma process_first_acceptor_witness :
  (Forall (rejects (λ b, Book.apply_op b (Book.Delete 7))) sample_books ∧
   process sample_books sample_delete_event = (false, Symbol_default, sample_books)) ∨
  (∃ pre sym b post,
     sample_books = pre ++ (sym, b) :: post ∧
     Forall (rejects (λ b, Book.apply_op b (Book.Delete 7))) pre ∧
     (Book.apply_op b (Book.Delete 7)).1 = true ∧
     process sample_books sample_delete_event
     = (true, sym, pre ++ (sym, (Book.apply_op b (Book.Delete 7)).2) :: post)).
Proof.
  assert (op_of sample_delete_event = Some (Book.Delete 7)) as Hop by reflexivity.
  assert (type sample_delete_event ≠ ADD_ORDER) as Hty by done.
  exact (process_first_acceptor sample_books sample_delete_event (Book.Delete 7)
           Hop Hty).
Defined.

Lemma process_add_addressed_book_witness :
  let msg := AddOrderMsg.mk "A"%byte 1234567890 12345 (list_byte_of_string "AAPL  ")
               "B"%byte 150000000000 100 in
  let symbol := Symbol_of (AddOrderMsg.symbol msg) in
  let op := Book.Add 12345 Book.BUY 150000000000 100 in
  (Forall (λ entry, Symbol_eq entry.1 symbol = false) sample_books ∧
   process sample_books sample_add_event = (false, symbol, sample_books)) ∨
  (∃ pre sym b post,
     sample_books = pre ++ (sym, b) :: post ∧
     Forall (λ entry, Symbol_eq entry.1 symbol = false) pre ∧
     Symbol_eq sym symbol = true ∧
     process sample_books sample_add_event
     = ((Book.apply_op b op).1, symbol, pre ++ (sym, (Book.apply_op b op).2) :: post)).
Proof.
  exact (process_add_addressed_book sample_books sample_add_event
           (AddOrderMsg.mk "A"%byte 1234567890 12345 (list_byte_of_string "AAPL  ")
              "B"%byte 150000000000 100) eq_refl eq_refl).
Defined.

Lemma decoded_event_invariants_and_ids_witness :
  let e := mkEvent ADD_ORDER Wire.sample_add (sample_clock 0) in
  Forall (λ entry, Book.invariants entry.2) (process books_sharing_id e).2 ∧
  (ids_unique books_sharing_id →
   ids_unique (process books_sharing_id e).2
   ↔ ∀ i s p q, op_of e = Some (Book.Add i s p q) →
                (process books_sharing_id e).1.1 = true →
                id_absent i books_sharing_id).
Proof.
  assert (Feed.wf (mkDecoder test_add_record 36 0)) as Hwf.
  { unfold Feed.wf; simpl. split_and!; try done; lia. }
  assert (next sample_clock (mkDecoder test_add_record 36 0) 0
          = (mkEvent ADD_ORDER Wire.sample_add (sample_clock 0),
             set_pos (mkDecoder test_add_record 36 0) 36, 1%nat)) as Hnext
    by (by vm_compute).
  assert (Book.levels_fit (Book.on_add Book.empty_book 12345 Book.BUY 300 50).2)
    as Hfit0 by fits.
  assert (Forall (λ entry, Book.invariants entry.2 ∧ Book.levels_fit entry.2)
            books_sharing_id) as Hbooks.
  { destruct BookFacts.empty_book_invariants as [H0 F0].
    apply Forall_cons; split; [done|]. apply Forall_cons; split; [|constructor].
    split; [|done].
    apply (BookFacts.accepted_op_keeps_invariants Book.empty_book
             (Book.Add 12345 Book.BUY 300 50) H0 F0 ltac:(simpl; lia) eq_refl Hfit0). }
  assert ((process books_sharing_id
             (mkEvent ADD_ORDER Wire.sample_add (sample_clock 0))).2
          = [(Symbol_of (list_byte_of_string "AAPL"),
              (Book.on_add Book.empty_book 12345 Book.BUY 150000000000 100).2);
             (Symbol_of (list_byte_of_string "MSFT"),
              (Book.on_add Book.empty_book 12345 Book.BUY 300 50).2)]) as Hres
    by (by vm_compute).
  assert (Forall (λ entry, Book.levels_fit entry.2)
            (process books_sharing_id
               (mkEvent ADD_ORDER Wire.sample_add (sample_clock 0))).2) as Hfits.
  { rewrite Hres. apply Forall_cons; split; [simpl; fits|].
    apply Forall_cons; split; [done | constructor]. }
  exact (decoded_event_invariants_and_ids sample_clock
           (mkDecoder test_add_record 36 0) 0 _ _ _ books_sharing_id
           Hwf Hnext Hbooks Hfits).
Defined.

End ConsumerFacts.

(** * Facts about the latency statistics *)

Module StatsFacts.
Import Stats.

(** ** Ranks in a sorted vector *)

Lemma sorted_lookup_le (l : list Z) :
  StronglySorted Z.le l →
  ∀ i j x y, (i ≤ j)%nat → l !! i = Some x → l !! j = Some y → x ≤ y.
Proof.
  induction 1 as [|a l Hs IH Hall]; intros i j x y Hij Hi Hj; [done|].
  destruct i as [|i], j as [|j]; simpl in *; try lia.
  - injection Hi as <-. injection Hj as <-. lia.
  - injection Hi as <-. rewrite Forall_forall in Hall. apply Hall.
    by eapply list_elem_of_lookup_2.
  - eapply IH; [|done..]. lia.
Qed.

Lemma filter_all {A} (P : A → Prop) `{∀ x, Decision (P x)} (l : list A) :
  Forall P l → filter P l = l.
Proof.
  induction 1 as [|x l Hx _ IH]; [done|].
  rewrite filter_cons_True by done. by rewrite IH.
Qed.

Lemma length_filter_app_ge {A} (P : A → Prop) `{∀ x, Decision (P x)} (l1 l2 : list A) :
  (length (filter P l1) ≤ length (filter P (l1 ++ l2)))%nat ∧
  (length (filter P l2) ≤ length (filter P (l1 ++ l2)))%nat.
Proof. rewrite filter_app, length_app. lia. Qed.

Lemma rank_position (l : list Z) (i : nat) (x : Z) :
  merge_sort Z.le l !! i = Some x →
  x ∈ l ∧
  Z.of_nat i + 1 ≤ count_le x l ∧
  Z.of_nat (length l) - Z.of_nat i ≤ count_ge x l.
Proof.
  intros Hi. set (sorted := merge_sort Z.le l) in *.
  assert (sorted ≡ₚ l) as Hperm by apply merge_sort_Permutation.
  assert (StronglySorted Z.le sorted) as Hsorted
    by (apply StronglySorted_merge_sort; apply _).
  pose proof (lookup_lt_Some _ _ _ Hi) as Hlt.
  split; [rewrite <- Hperm; by eapply list_elem_of_lookup_2|].
  unfold count_le, count_ge. rewrite <- !Hperm.
  rewrite <- (take_drop (S i) sorted) at 1.
  rewrite <- (take_drop i sorted) at 4.
  split.
  - pose proof (length_filter_app_ge (λ y, y ≤ x) (take (S i) sorted) (drop (S i) sorted))
      as [Hge _].
    rewrite filter_all in Hge.
    + rewrite length_take in Hge. lia.
    + apply Forall_forall. intros y Hy.
      apply list_elem_of_lookup in Hy as [j Hj].
      apply lookup_take_Some in Hj as [Hj Hlt'].
      eapply (sorted_lookup_le sorted Hsorted j i); [lia | done..].
  - pose proof (length_filter_app_ge (λ y, x ≤ y) (take i sorted) (drop i sorted))
      as [_ Hge].
    rewrite filter_all in Hge.
    + rewrite length_drop in Hge.
      assert (length sorted = length l) as Hlen by (by rewrite Hperm). lia.
    + apply Forall_forall. intros y Hy.
      apply list_elem_of_lookup in Hy as [j Hj].
      rewrite lookup_drop in Hj.
      eapply (sorted_lookup_le sorted Hsorted i (i + j)); [lia | done..].
Qed.

(** X26: for a non-empty sample vector, [report] reads its three
    percentiles inside the sorted vector; they are samples, they are ordered
    p50 ≤ p95 ≤ p99, and for each rank [n * p / 100] more than that many samples
    are at most the value and at least [n] minus that many are at least it. *)
Theorem report_percentiles (s : LatencyStats) :
  latencies s ≠ [] →
  Z.of_nat (length (latencies s)) * 99 < 2 ^ 64 →
  let n := Z.of_nat (length (latencies s)) in
  ∃ p50 p95 p99,
    report s = Some (p50, p95, p99, n) ∧
    p50 ≤ p95 ≤ p99 ∧
    p50 ∈ latencies s ∧ p95 ∈ latencies s ∧ p99 ∈ latencies s ∧
    n * 50 / 100 + 1 ≤ count_le p50 (latencies s) ∧
    n - n * 50 / 100 ≤ count_ge p50 (latencies s) ∧
    n * 95 / 100 + 1 ≤ count_le p95 (latencies s) ∧
    n - n * 95 / 100 ≤ count_ge p95 (latencies s) ∧
    n * 99 / 100 + 1 ≤ count_le p99 (latencies s) ∧
    n - n * 99 / 100 ≤ count_ge p99 (latencies s).
Proof.
  intros Hne Hsmall. cbn zeta. destruct s as [l]. simpl in *.
  set (sorted := merge_sort Z.le l).
  assert (length sorted = length l) as Hlen
    by (unfold sorted; by rewrite merge_sort_Permutation).
  assert (0 < Z.of_nat (length l)) as Hpos by (destruct l; simpl; [done | lia]).
  assert (∀ p, 0 ≤ p ≤ 99 →
            ∃ x, at_index sorted (rank (Z.of_nat (length sorted)) p) = x ∧
                 sorted !! Z.to_nat (Z.of_nat (length l) * p / 100) = Some x) as Hrank.
  { intros p Hp. unfold at_index, rank. rewrite Hlen.
    rewrite wrap64_small by nia.
    assert (Z.of_nat (length l) * p / 100 < Z.of_nat (length l)) as Hlt.
    { apply Z.div_lt_upper_bound; nia. }
    assert (0 ≤ Z.of_nat (length l) * p / 100) by (apply Z.div_pos; lia).
    destruct (lookup_lt_is_Some_2 sorted (Z.to_nat (Z.of_nat (length l) * p / 100)))
      as [x Hx]; [lia|].
    exists x. by rewrite Hx. }
  destruct (Hrank 50) as (p50 & H50 & L50); [lia|].
  destruct (Hrank 95) as (p95 & H95 & L95); [lia|].
  destruct (Hrank 99) as (p99 & H99 & L99); [lia|].
  exists p50, p95, p99.
  assert (StronglySorted Z.le sorted) as Hsorted
    by (apply StronglySorted_merge_sort; apply _).
  assert (0 ≤ Z.of_nat (length l) * 50 / 100) by (apply Z.div_pos; lia).
  assert (0 ≤ Z.of_nat (length l) * 95 / 100) by (apply Z.div_pos; lia).
  assert (0 ≤ Z.of_nat (length l) * 99 / 100) by (apply Z.div_pos; lia).
  assert (Z.of_nat (length l) * 50 / 100 ≤ Z.of_nat (length l) * 95 / 100)
    by (apply Z.div_le_mono; nia).
  assert (Z.of_nat (length l) * 95 / 100 ≤ Z.of_nat (length l) * 99 / 100)
    by (apply Z.div_le_mono; nia).
  destruct (rank_position l _ _ L50) as (E50 & A50 & B50).
  destruct (rank_position l _ _ L95) as (E95 & A95 & B95).
  destruct (rank_position l _ _ L99) as (E99 & A99 & B99).
  split.
  { unfold report. simpl. destruct l as [|a l']; [done|].
    fold sorted. by rewrite H50, H95, H99, Hlen. }
  split.
  { split.
    - apply (sorted_lookup_le sorted Hsorted
               (Z.to_nat (Z.of_nat (length l) * 50 / 100))
               (Z.to_nat (Z.of_nat (length l) * 95 / 100))); [lia | done | done].
    - apply (sorted_lookup_le sorted Hsorted
               (Z.to_nat (Z.of_nat (length l) * 95 / 100))
               (Z.to_nat (Z.of_nat (length l) * 99 / 100))); [lia | done | done]. }
  split_and!; try done; lia.
Qed.

Lemma report_percentiles_witness :
  let s := mkStats [12; 3; 7; 25; 4; 9; 1; 30; 18; 6] in
  ∃ p50 p95 p99,
    report s = Some (p50, p95, p99, 10) ∧
    p50 ≤ p95 ≤ p99 ∧
    p50 ∈ latencies s ∧ p95 ∈ latencies s ∧ p99 ∈ latencies s ∧
    10 * 50 / 100 + 1 ≤ count_le p50 (latencies s) ∧
    10 - 10 * 50 / 100 ≤ count_ge p50 (latencies s) ∧
    10 * 95 / 100 + 1 ≤ count_le p95 (latencies s) ∧
    10 - 10 * 95 / 100 ≤ count_ge p95 (latencies s) ∧
    10 * 99 / 100 + 1 ≤ count_le p99 (latencies s) ∧
    10 - 10 * 99 / 100 ≤ count_ge p99 (latencies s).
Proof.
  assert (latencies (mkStats [12; 3; 7; 25; 4; 9; 1; 30; 18; 6]) ≠ []) as Hne by done.
  assert (Z.of_nat (length (latencies (mkStats [12; 3; 7; 25; 4; 9; 1; 30; 18; 6]))) * 99
          < 2 ^ 64) as Hsmall by (simpl; lia).
  exact (report_percentiles (mkStats [12; 3; 7; 25; 4; 9; 1; 30; 18; 6]) Hne Hsmall).
Defined.
End StatsFacts.

(** * Facts about the feed generator *)

Module SimgenFacts.
Import Feed Simgen.

(** ** One generating function *)










(** ** The loop of [generate] *)





End SimgenFacts.
